(** * Circular curve calculator (curve_webapp.py): a verified model

    The program is one Streamlit script.  Its computational core works on
    Python floats (IEEE-754 binary64), Python ints (unbounded) and strings.
    The development below embeds

    - binary64 arithmetic, as correctly rounded exact arithmetic on rationals
      (module [F64]);
    - the Python built-ins the script calls ([float(str)], [//], [int],
      [round], [math.ceil], [str.format] with [05.2f] / [02d], ...);
    - the script itself, stage by stage, in an exception monad;

    and then states and proves the properties of the specification. *)

From Stdlib Require Import ZArith QArith Qround Qabs Qpower List Bool Lia Lqa.
From Stdlib Require Import Ascii String.
From Stdlib Require Import Floats.

Import ListNotations.
Open Scope Z_scope.

(** ** Binary64 floating point *)

Module F64.

(** A float is one of Rocq's [spec_float]s: signed zero, signed infinity,
    NaN, or [(-1)^s * m * 2^e]. *)
Definition f64 := spec_float.

Definition prec : Z := 53.
Definition emax : Z := 1024.
Definition emin : Z := -1074.

Definition pos_zero : f64 := S754_zero false.
Definition neg_zero : f64 := S754_zero true.
Definition pos_inf : f64 := S754_infinity false.
Definition nan : f64 := S754_nan.

Definition is_nan (x : f64) : bool :=
  match x with S754_nan => true | _ => false end.

Definition is_inf (x : f64) : bool :=
  match x with S754_infinity _ => true | _ => false end.

Definition is_finite (x : f64) : bool :=
  match x with S754_zero _ | S754_finite _ _ _ => true | _ => false end.

Definition is_zero (x : f64) : bool :=
  match x with S754_zero _ => true | _ => false end.

Definition sign_bit (x : f64) : bool :=
  match x with
  | S754_zero s | S754_infinity s | S754_finite s _ _ => s
  | S754_nan => false
  end.

(** [2^e] as a rational, for any integer exponent. *)
Definition Qpow2 (e : Z) : Q :=
  match e with
  | Z0 => 1%Q
  | Zpos p => inject_Z (2 ^ Zpos p)
  | Zneg p => (1 # (2 ^ p))%Q
  end.

(** The exact value of a finite float (0 for the others). *)
Definition F2Q (x : f64) : Q :=
  match x with
  | S754_finite s m e =>
      (inject_Z (if s then Zneg m else Zpos m) * Qpow2 e)%Q
  | _ => 0%Q
  end.

(** [floor (log2 q)] for a positive rational. *)
Definition Qlog2 (q : Q) : Z :=
  let k := Z.log2 (Qnum q) - Z.log2 (Zpos (Qden q)) in
  if Qle_bool (Qpow2 k) q then k else k - 1.

(** Round to the nearest integer, ties to even. *)
Definition rne (y : Q) : Z :=
  let f := Qfloor y in
  match Qcompare (y - inject_Z f) (1 # 2) with
  | Lt => f
  | Gt => f + 1
  | Eq => if Z.even f then f else f + 1
  end.

(** The exponent of the binade a positive rational rounds in. *)
Definition round_exp (a : Q) : Z := Z.max emin (Qlog2 a - 52).

(** Round a rational to the nearest binary64, ties to even; [s0] is the sign
    given to an exactly zero result. *)
Definition Q2F (s0 : bool) (q : Q) : f64 :=
  match Qcompare q 0 with
  | Eq => S754_zero s0
  | c =>
      let s := match c with Lt => true | _ => false end in
      let a := Qabs q in
      let e := round_exp a in
      let m := rne (a / Qpow2 e) in
      let '(m', e') := if m =? 2 ^ 53 then (2 ^ 52, e + 1) else (m, e) in
      match m' with
      | Zpos p => if e' >? emax - prec then S754_infinity s else S754_finite s p e'
      | _ => S754_zero s
      end
  end.

Definition opp (x : f64) : f64 :=
  match x with
  | S754_nan => S754_nan
  | S754_infinity s => S754_infinity (negb s)
  | S754_finite s m e => S754_finite (negb s) m e
  | S754_zero s => S754_zero (negb s)
  end.

Definition abs (x : f64) : f64 :=
  match x with
  | S754_nan => S754_nan
  | S754_infinity _ => S754_infinity false
  | S754_finite _ m e => S754_finite false m e
  | S754_zero _ => S754_zero false
  end.

Definition add (x y : f64) : f64 :=
  match x, y with
  | S754_nan, _ | _, S754_nan => S754_nan
  | S754_infinity sx, S754_infinity sy =>
      if Bool.eqb sx sy then x else S754_nan
  | S754_infinity _, _ => x
  | _, S754_infinity _ => y
  | S754_zero sx, S754_zero sy => S754_zero (sx && sy)
  | _, _ => Q2F false (F2Q x + F2Q y)
  end.

Definition sub (x y : f64) : f64 := add x (opp y).

Definition mul (x y : f64) : f64 :=
  match x, y with
  | S754_nan, _ | _, S754_nan => S754_nan
  | S754_infinity _, S754_zero _ | S754_zero _, S754_infinity _ => S754_nan
  | S754_infinity sx, _ => S754_infinity (xorb sx (sign_bit y))
  | _, S754_infinity sy => S754_infinity (xorb (sign_bit x) sy)
  | _, _ => Q2F (xorb (sign_bit x) (sign_bit y)) (F2Q x * F2Q y)
  end.

(** IEEE division; Python checks for a zero divisor before it gets here. *)
Definition div (x y : f64) : f64 :=
  match x, y with
  | S754_nan, _ | _, S754_nan => S754_nan
  | S754_infinity _, S754_infinity _ => S754_nan
  | S754_zero _, S754_zero _ => S754_nan
  | S754_infinity sx, _ => S754_infinity (xorb sx (sign_bit y))
  | _, S754_infinity sy => S754_zero (xorb (sign_bit x) sy)
  | _, S754_zero sy => S754_infinity (xorb (sign_bit x) sy)
  | _, _ => Q2F (xorb (sign_bit x) (sign_bit y)) (F2Q x / F2Q y)
  end.

(** Comparison of two floats; [None] when one is NaN. *)
Definition compare (x y : f64) : option comparison :=
  match x, y with
  | S754_nan, _ | _, S754_nan => None
  | S754_infinity sx, S754_infinity sy =>
      Some (match sx, sy with
            | true, false => Lt | false, true => Gt | _, _ => Eq end)
  | S754_infinity s, _ => Some (if s then Lt else Gt)
  | _, S754_infinity s => Some (if s then Gt else Lt)
  | _, _ => Some (Qcompare (F2Q x) (F2Q y))
  end.

Definition ltb (x y : f64) : bool :=
  match compare x y with Some Lt => true | _ => false end.

Definition leb (x y : f64) : bool :=
  match compare x y with Some (Lt | Eq) => true | _ => false end.

Definition eqb (x y : f64) : bool :=
  match compare x y with Some Eq => true | _ => false end.

(** An integer as a float (exact when it fits, else rounded). *)
Definition of_Z (n : Z) : f64 := Q2F false (inject_Z n).

(** Round toward zero to an integer (finite floats). *)
Definition Qtrunc (q : Q) : Z :=
  if Qle_bool 0 q then Qfloor q else Qceiling q.

(** C's [fmod]: exact remainder with the sign of [x]. *)
Definition fmod (x y : f64) : f64 :=
  match x, y with
  | S754_nan, _ | _, S754_nan => S754_nan
  | S754_infinity _, _ => S754_nan
  | _, S754_zero _ => S754_nan
  | _, S754_infinity _ => x
  | S754_zero _, _ => x
  | _, _ =>
      Q2F (sign_bit x)
          (F2Q x - inject_Z (Qtrunc (F2Q x / F2Q y)) * F2Q y)
  end.

(** C's [floor]. *)
Definition floor (x : f64) : f64 :=
  match x with
  | S754_finite s _ _ => Q2F s (inject_Z (Qfloor (F2Q x)))
  | _ => x
  end.

(** C's [copysign]. *)
Definition copysign (x y : f64) : f64 :=
  if Bool.eqb (sign_bit x) (sign_bit y) then x else opp x.

(** The kernel's binary64 value of a model float, to compare the model with
    hardware arithmetic on samples. *)
Definition to_prim (x : f64) : PrimFloat.float := SF2Prim x.
Definition of_prim (x : PrimFloat.float) : f64 := Prim2SF x.

End F64.

Import F64.


(** ** Python values, exceptions and built-ins *)

(** The exceptions the script can raise. *)
Inductive exn := ValueError | OverflowError | ZeroDivisionError.

(** The name of the exception class. *)
Definition exn_name (e : exn) : string :=
  match e with
  | ValueError => "ValueError"
  | OverflowError => "OverflowError"
  | ZeroDivisionError => "ZeroDivisionError"
  end.

(** The outcome of a computation: a value, an uncaught exception, or a
    [while] loop still running when the fuel given to it ran out. *)
Inductive result (A : Type) :=
| Ok (a : A)
| Raise (e : exn)
| OutOfFuel.
Arguments Ok {A} a.
Arguments Raise {A} e.
Arguments OutOfFuel {A}.

Definition bind {A B} (r : result A) (k : A -> result B) : result B :=
  match r with
  | Ok a => k a
  | Raise e => Raise e
  | OutOfFuel => OutOfFuel
  end.

Notation "x <- r ;; k" := (bind r (fun x => k))
  (at level 61, r at next level, right associativity).

Fixpoint mapM {A B} (f : A -> result B) (l : list A) : result (list B) :=
  match l with
  | [] => Ok []
  | a :: l' => b <- f a;; bs <- mapM f l';; Ok (b :: bs)
  end.

(** A Python number: the station list mixes floats and ints. *)
Inductive num :=
| Float (x : f64)
| Int (n : Z).

(** [float(n)] for an int: correctly rounded, [OverflowError] when out of
    range. *)
Definition float_of_int (n : Z) : result f64 :=
  let r := of_Z n in
  if is_inf r then Raise OverflowError else Ok r.

Definition to_float (v : num) : result f64 :=
  match v with
  | Float x => Ok x
  | Int n => float_of_int n
  end.

(** [a - b] where [b] is a float. *)
Definition num_sub_float (a : num) (b : f64) : result f64 :=
  x <- to_float a;; Ok (sub x b).

(** [x / y] on floats. *)
Definition truediv (x y : f64) : result f64 :=
  if is_zero y then Raise ZeroDivisionError else Ok (div x y).

(** [s < b] for an int [s] and a float [b]: Python compares exactly. *)
Definition int_lt_float (s : Z) (b : f64) : bool :=
  match b with
  | S754_nan => false
  | S754_infinity sb => negb sb
  | _ => match Qcompare (inject_Z s) (F2Q b) with Lt => true | _ => false end
  end.

(** Conversion of a float to an int by [f] (floor, ceiling, truncation or
    rounding of the exact value): [ValueError] on NaN, [OverflowError] on an
    infinity. *)
Definition float_to_int (f : Q -> Z) (x : f64) : result Z :=
  match x with
  | S754_nan => Raise ValueError
  | S754_infinity _ => Raise OverflowError
  | _ => Ok (f (F2Q x))
  end.

Definition math_ceil : f64 -> result Z := float_to_int Qceiling.
Definition int_of_float : f64 -> result Z := float_to_int Qtrunc.
(** [round(x)] with one argument: nearest int, ties to even. *)
Definition round_to_int : f64 -> result Z := float_to_int rne.

(** [round(x, 2)]: the decimal with two places nearest to the exact value
    (ties to even), converted back to a float. *)
Definition round2 (x : f64) : result f64 :=
  match x with
  | S754_finite s _ _ =>
      let r := Q2F s (inject_Z (rne (Qabs (F2Q x) * 100))
                      / 100 * (if s then -1 else 1))%Q in
      if is_inf r then Raise OverflowError else Ok r
  | _ => Ok x
  end.

Definition f100 : f64 := of_Z 100.
Definition f1 : f64 := of_Z 1.
Definition f2 : f64 := of_Z 2.
Definition f200 : f64 := of_Z 200.
Definition f180 : f64 := of_Z 180.
Definition f18000 : f64 := of_Z 18000.
Definition f_half : f64 := Q2F false (1 # 2).
(** The literal [1e-6]. *)
Definition f1em6 : f64 := Q2F false (1 # 1000000).
(** [math.pi] = 0x1.921fb54442d18p+1. *)
Definition math_pi : f64 := S754_finite false 7074237752028440 (-51).
(** [math.radians(x)] is [x * (pi / 180)]. *)
Definition deg_to_rad : f64 := div math_pi f180.
Definition math_radians (x : f64) : f64 := mul x deg_to_rad.

(** [x // y] on floats (CPython's [float_floor_div]). *)
Definition float_floordiv (vx wx : f64) : result f64 :=
  if is_zero wx then Raise ZeroDivisionError else
  let md := fmod vx wx in
  let dv := div (sub vx md) wx in
  let dv :=
    if eqb md pos_zero then dv
    else if Bool.eqb (ltb wx pos_zero) (ltb md pos_zero) then dv
    else sub dv f1 in
  if eqb dv pos_zero then Ok (copysign pos_zero (div vx wx))
  else
    let fl := floor dv in
    Ok (if ltb f_half (sub dv fl) then add fl f1 else fl).

(** The C library's [sin], [cos] and [tan] on doubles: outside the
    repository, so a parameter of the model. *)
Record libm := {
  c_sin : f64 -> f64;
  c_cos : f64 -> f64;
  c_tan : f64 -> f64
}.

(** CPython's wrapper [math_1] (no overflow expected): a NaN result of a
    non-NaN argument, or an infinite result of a finite argument, is a
    [ValueError]. *)
Definition math_1 (f : f64 -> f64) (x : f64) : result f64 :=
  let r := f x in
  if is_nan r && negb (is_nan x) then Raise ValueError
  else if is_inf r && is_finite x then Raise ValueError
  else Ok r.

Definition math_sin (M : libm) := math_1 (c_sin M).
Definition math_cos (M : libm) := math_1 (c_cos M).
Definition math_tan (M : libm) := math_1 (c_tan M).

(** ** Strings: decimal digits, [str(int)], [format], [float(str)] *)

(** A text is a list of characters, one per code point below 256; an
    ASCII text is the same list in every encoding.  The symbols of
    [deg_to_dms_nearest_sec] above that range are held as the bytes of
    their UTF-8 encoding; they are only written, never read. *)
Definition chars := list ascii.

Definition digit_char (d : Z) : ascii := ascii_of_N (Z.to_N (48 + d)).

Definition is_digit (c : ascii) : bool :=
  let n := Z.of_N (N_of_ascii c) in (48 <=? n) && (n <=? 57).

Definition digit_val (c : ascii) : Z := Z.of_N (N_of_ascii c) - 48.

(** The decimal digits of a non-negative integer, most significant first. *)
Fixpoint show_digits (fuel : nat) (n : Z) (acc : chars) : chars :=
  match fuel with
  | O => acc
  | S f =>
      let acc' := digit_char (n mod 10) :: acc in
      if n <? 10 then acc' else show_digits f (n / 10) acc'
  end.

Definition show_nat (n : Z) : chars :=
  show_digits (S (Z.to_nat (Z.log2 n))) n [].

(** [str(n)] for an int.  CPython from version 3.11 refuses, with
    [ValueError], to convert an int of more than 4300 digits (its default
    limit); the limit is not part of this function, and what is stated of
    ints of any size carries it as a hypothesis.  The ints a run converts
    come from floats and have fewer than 320 digits. *)
Definition show_int (n : Z) : chars :=
  if n <? 0 then "-"%char :: show_nat (- n) else show_nat n.

(** The value of a string of decimal digits. *)
Definition digits_val (ds : chars) : Z :=
  fold_left (fun acc c => 10 * acc + digit_val c) ds 0.

(** Zero padding between the sign and the digits, up to [width]
    characters (the [0] flag of a format specification). *)
Definition zero_pad (width : nat) (neg : bool) (body : chars) : chars :=
  let used := ((if neg then 1 else 0) + List.length body)%nat in
  (if neg then ["-"%char] else []) ++ repeat "0"%char (width - used) ++ body.

(** [format(x, "05.2f")] for a float: two decimals, correctly rounded (ties
    to even on the exact value), sign-aware zero padding to width 5. *)
Definition format_05_2f (x : f64) : chars :=
  match x with
  | S754_nan => zero_pad 5 false (list_ascii_of_string "nan")
  | S754_infinity s => zero_pad 5 s (list_ascii_of_string "inf")
  | _ =>
      let n := rne (Qabs (F2Q x) * 100) in
      let frac := n mod 100 in
      zero_pad 5 (sign_bit x)
        (show_nat (n / 100) ++
         "."%char :: digit_char (frac / 10) :: digit_char (frac mod 10) :: [])
  end.

(** [format(n, "02d")] for an int. *)
Definition format_02d (n : Z) : chars :=
  zero_pad 2 (n <? 0) (show_nat (Z.abs n)).

(** The white space [float] strips from the ends of a text: in ASCII the
    space and the codes 9 to 13 (tab, newline, vertical tab, form feed,
    carriage return); below 256 also next line (133) and no-break space
    (160).  Unicode has further white space above 255. *)
Definition is_space (c : ascii) : bool :=
  let n := N_of_ascii c in
  (N.eqb n 32) || ((N.leb 9 n) && (N.leb n 13)) || (N.eqb n 133) || (N.eqb n 160).

Fixpoint lstrip (s : chars) : chars :=
  match s with
  | c :: s' => if is_space c then lstrip s' else s
  | [] => []
  end.

Definition strip (s : chars) : chars := rev (lstrip (rev (lstrip s))).

(** Underscores are allowed only between two digits; they are removed.
    [prev] is the previous character of the original text. *)
Fixpoint drop_underscores (prev : option ascii) (s : chars) : option chars :=
  match s with
  | [] =>
      match prev with
      | Some "_"%char => None
      | _ => Some []
      end
  | c :: s' =>
      if Ascii.eqb c "_" then
        match prev with
        | Some p => if is_digit p then drop_underscores (Some c) s' else None
        | None => None
        end
      else
        match prev with
        | Some "_"%char =>
            if is_digit c then option_map (cons c) (drop_underscores (Some c) s')
            else None
        | _ => option_map (cons c) (drop_underscores (Some c) s')
        end
  end.

(** The longest prefix of digits, and the rest. *)
Fixpoint span_digits (s : chars) : chars * chars :=
  match s with
  | c :: s' =>
      if is_digit c then let '(ds, r) := span_digits s' in (c :: ds, r)
      else ([], s)
  | [] => ([], [])
  end.

Definition lower (c : ascii) : ascii :=
  let n := N_of_ascii c in
  if (N.leb 65 n) && (N.leb n 90) then ascii_of_N (n + 32) else c.

Definition lower_all (s : chars) : chars := map lower s.

Definition chars_eqb (a b : chars) : bool :=
  if list_eq_dec ascii_dec a b then true else false.

(** An optional sign. *)
Definition take_sign (s : chars) : bool * chars :=
  match s with
  | "-"%char :: s' => (true, s')
  | "+"%char :: s' => (false, s')
  | _ => (false, s)
  end.

(** [inf], [infinity] or [nan], in any case, with an optional sign. *)
Definition parse_inf_or_nan (s : chars) : option f64 :=
  let '(neg, body) := take_sign s in
  let b := lower_all body in
  if chars_eqb b (list_ascii_of_string "inf")
     || chars_eqb b (list_ascii_of_string "infinity")
  then Some (S754_infinity neg)
  else if chars_eqb b (list_ascii_of_string "nan") then Some S754_nan
  else None.

(** [10^k] as a rational, for any integer [k]. *)
Definition Qpow10 (k : Z) : Q :=
  match k with
  | Z0 => 1%Q
  | Zpos p => inject_Z (10 ^ Zpos p)
  | Zneg p => (1 # (10 ^ p))%Q
  end.

(** An optional exponent part, [e] or [E], an optional sign and at least
    one digit; without the digits nothing is consumed. *)
Definition parse_exponent (s : chars) : Z * chars :=
  match s with
  | c :: s' =>
      if Ascii.eqb (lower c) "e" then
        let '(neg, s2) := take_sign s' in
        let '(ds, r) := span_digits s2 in
        match ds with
        | [] => (0, s)
        | _ => ((if neg then - digits_val ds else digits_val ds), r)
        end
      else (0, s)
  | [] => (0, [])
  end.

(** An optional fractional part: a point and digits. *)
Definition parse_fraction (s : chars) : chars * chars :=
  match s with
  | "."%char :: s' => span_digits s'
  | _ => ([], s)
  end.

(** A decimal literal: sign, digits, optional point and digits (one digit
    at least in all), optional exponent; the value is rounded correctly.
    [None] when no number starts the text; else the float and what is
    left. *)
Definition parse_decimal (s : chars) : option (f64 * chars) :=
  let '(neg, s1) := take_sign s in
  let '(ip, s2) := span_digits s1 in
  let '(fp, s3) := parse_fraction s2 in
  match ip ++ fp with
  | [] => None
  | ds =>
      let '(ex, s4) := parse_exponent s3 in
      let q := (inject_Z (digits_val ds)
                * Qpow10 (ex - Z.of_nat (List.length fp)))%Q in
      Some (Q2F neg (if neg then - q else q)%Q, s4)
  end.

(** [float(s)] for a string: underscores between digits are dropped,
    white space is stripped from both ends, and what is left is a decimal
    numeral or a spelling of infinity or nan.  This is [float] on every
    ASCII text, and on every text of code points below 256.  Python also
    reads the decimal digits and the white space of Unicode above 255
    (the Arabic-Indic digits, say), which a text of this model cannot hold
    as characters: on their encoded bytes the model raises [ValueError]
    where Python returns a float.  What is proved about rejected texts is
    therefore stated for ASCII texts. *)
Definition float_of_string (s : string) : result f64 :=
  match drop_underscores None (list_ascii_of_string s) with
  | None => Raise ValueError
  | Some t =>
      let t := strip t in
      match parse_decimal t with
      | Some (x, []) => Ok x
      | Some (_, _ :: _) => Raise ValueError
      | None =>
          match parse_inf_or_nan t with
          | Some x => Ok x
          | None => Raise ValueError
          end
      end
  end.

(** [s.replace(c, "")]. *)
Definition remove_char (c : ascii) (s : chars) : chars :=
  filter (fun d => negb (Ascii.eqb d c)) s.

(** ** The script *)

(** [station_to_ft]: every [+] is removed and the rest is read by [float]. *)
Definition station_to_ft (sta : string) : result f64 :=
  float_of_string
    (string_of_list_ascii (remove_char "+" (list_ascii_of_string sta))).

(** [ft_to_station].  The argument is annotated [float], but the stake
    loop passes ints too; on an int [//], [*] and [-] are exact. *)
Definition ft_to_station (x : num) : result string :=
  match x with
  | Float x =>
      q <- float_floordiv x f100;;
      i <- int_of_float q;;
      c <- float_of_int (i * 100);;
      let r := sub x c in
      Ok (string_of_list_ascii (show_int i ++ "+"%char :: format_05_2f r))
  | Int n =>
      let i := n / 100 in
      let r := n - i * 100 in
      rf <- float_of_int r;;
      Ok (string_of_list_ascii (show_int i ++ "+"%char :: format_05_2f rf))
  end.

(** The degree, minute and second signs, as UTF-8 bytes. *)
Definition degree_sign : chars := [ascii_of_N 194; ascii_of_N 176].
Definition prime_sign : chars := [ascii_of_N 226; ascii_of_N 128; ascii_of_N 178].
Definition double_prime_sign : chars :=
  [ascii_of_N 226; ascii_of_N 128; ascii_of_N 179].

(** [deg_to_dms_nearest_sec]. *)
Definition deg_to_dms_nearest_sec (deg : f64) : result string :=
  tot <- round_to_int (mul deg (of_Z 3600));;
  let d := tot / 3600 in
  let rm := tot mod 3600 in
  let m := rm / 60 in
  let s := rm mod 60 in
  let '(s, m) := if s =? 60 then (0, m + 1) else (s, m) in
  let '(m, d) := if m >=? 60 then (m - 60, d + 1) else (m, d) in
  Ok (string_of_list_ascii
        (format_02d d ++ degree_sign ++ format_02d m ++ prime_sign
         ++ format_02d s ++ double_prime_sign)).

(** The guard of the script: [Da_deg > 0 and I_deg > 0]. *)
Definition guard (I_deg Da_deg : f64) : bool :=
  ltb pos_zero Da_deg && ltb pos_zero I_deg.

Record curve_elements := {
  ce_R : f64;
  ce_T : f64;
  ce_L : f64;
  ce_PC : f64;
  ce_PT : f64
}.

(** Section 2 of the script: the curve elements. *)
Definition curve_elements_of (M : libm) (I_deg Da_deg : f64)
    (PI_station_str : string) : result curve_elements :=
  PI_ft <- station_to_ft PI_station_str;;
  R <- truediv f18000 (mul math_pi Da_deg);;
  half <- truediv I_deg f2;;
  t <- math_tan M (math_radians half);;
  let T := mul R t in
  L <- truediv (mul f100 I_deg) Da_deg;;
  let PC_station := sub PI_ft T in
  let PT_station := add PC_station L in
  Ok {| ce_R := R; ce_T := T; ce_L := L;
        ce_PC := PC_station; ce_PT := PT_station |}.

(** The [while] loop of section 3: [s] is an int, the bound a float. *)
Fixpoint stake_loop (fuel : nat) (s : Z) (bound : f64) (stake_step : Z)
    : result (list Z) :=
  if int_lt_float s bound then
    match fuel with
    | O => OutOfFuel
    | S fuel' =>
        rest <- stake_loop fuel' (s + stake_step) bound stake_step;;
        Ok (s :: rest)
    end
  else Ok [].

(** The first stake after P.C.: [math.ceil((PC + step) / step) * step]. *)
Definition first_full (PC_station : f64) (stake_step : Z) : result Z :=
  st <- float_of_int stake_step;;
  q <- truediv (add PC_station st) st;;
  c <- math_ceil q;;
  Ok (c * stake_step).

(** Section 3 of the script: the stake stations. *)
Definition stake_stations (fuel : nat) (PC_station PT_station : f64)
    (stake_step : Z) : result (list num) :=
  first <- first_full PC_station stake_step;;
  mid <- stake_loop fuel first (sub PT_station f1em6) stake_step;;
  Ok (Float PC_station :: map Int mid ++ [Float PT_station]).

(** The deflection angle at one station. *)
Definition deflection_at (Da_deg PC_station : f64) (stn : num) : result f64 :=
  arc_from_PC <- num_sub_float stn PC_station;;
  truediv (mul Da_deg arc_from_PC) f200.

(** Section 4, first loop: the deflection angles. *)
Definition deflections (Da_deg PC_station : f64) (stations : list num)
    : result (list f64) :=
  mapM (deflection_at Da_deg PC_station) stations.

(** One row of the chord loop: incremental and cumulative chord. *)
Definition chord_row (M : libm) (R prev cur : f64) : result (f64 * f64) :=
  let d_inc := sub cur prev in
  si <- math_sin M (math_radians d_inc);;
  let chord_inc := mul (mul f2 R) si in
  sc <- math_sin M (math_radians cur);;
  let chord_cum := mul (mul f2 R) sc in
  ti <- round2 chord_inc;;
  ec <- round2 chord_cum;;
  Ok (ti, ec).

(** The chord loop over [i = 1 .. len - 1]; [prev] is [deflection_deg[i-1]]. *)
Fixpoint chord_loop (M : libm) (R prev : f64) (rest : list f64)
    : result (list (f64 * f64)) :=
  match rest with
  | [] => Ok []
  | cur :: rest' =>
      row <- chord_row M R prev cur;;
      rows <- chord_loop M R cur rest';;
      Ok (row :: rows)
  end.

(** Section 4, second loop: [tape_ct] and [edm_ct]. *)
Definition chords (M : libm) (R : f64) (deflection_deg : list f64)
    : result (list f64 * list f64) :=
  match deflection_deg with
  | [] => Ok ([pos_zero], [pos_zero])
  | d0 :: rest =>
      rows <- chord_loop M R d0 rest;;
      Ok (pos_zero :: map fst rows, pos_zero :: map snd rows)
  end.

(** The point labels: P.C., 1, 2, ..., P.T. *)
Definition point_labels (n : nat) : list string :=
  "P.C."%string
  :: map (fun i => string_of_list_ascii (show_int (Z.of_nat i))) (seq 1 (n - 2))
  ++ ["P.T."%string].

(** Section 5: the plan coordinates of one point (curve to the right). *)
Definition coordinate (M : libm) (R d : f64) : result (f64 * f64) :=
  let angle_rad := math_radians (mul f2 d) in
  s <- math_sin M angle_rad;;
  let x := mul R s in
  c <- math_cos M angle_rad;;
  let y := mul (opp R) (sub f1 c) in
  Ok (x, y).

(** Section 6: the P.I. coordinate, from the last point ([PT_x], [PT_y]). *)
Definition pi_coordinate (M : libm) (I_deg PT_x PT_y : f64)
    : result (f64 * f64) :=
  let theta_PT_tan := math_radians (sub f180 I_deg) in
  m2 <- math_tan M theta_PT_tan;;
  q <- truediv PT_y m2;;
  Ok (sub PT_x q, pos_zero).

(** What the script hands to the page when the guard holds. *)
Record rendering := {
  r_elements : curve_elements;
  r_PC : string;
  r_PT : string;
  r_PI : string;
  r_points : list string;
  r_stations : list num;
  r_station_text : list string;
  r_deflection_deg : list f64;
  r_dms : list string;
  r_tape_ct : list f64;
  r_edm_ct : list f64;
  r_xy : list (f64 * f64);
  r_xy_PI : f64 * f64
}.

(** What a run of the script shows: the guidance warning, or the curve. *)
Inductive page :=
| Warning
| Rendered (r : rendering).

(** The script, for the inputs of its four widgets.  Page layout and
    plotting only consume the values computed here. *)
Definition curve_webapp (M : libm) (fuel : nat) (I_deg Da_deg : f64)
    (PI_station_str : string) (stake_step : Z) : result page :=
  if guard I_deg Da_deg then
    ce <- curve_elements_of M I_deg Da_deg PI_station_str;;
    stations <- stake_stations fuel (ce_PC ce) (ce_PT ce) stake_step;;
    deflection_deg <- deflections Da_deg (ce_PC ce) stations;;
    ct <- chords M (ce_R ce) deflection_deg;;
    station_text <- mapM ft_to_station stations;;
    dms <- mapM deg_to_dms_nearest_sec deflection_deg;;
    xy <- mapM (coordinate M (ce_R ce)) deflection_deg;;
    let '(PT_x, PT_y) := last xy (pos_zero, pos_zero) in
    xy_PI <- pi_coordinate M I_deg PT_x PT_y;;
    pc_text <- ft_to_station (Float (ce_PC ce));;
    pt_text <- ft_to_station (Float (ce_PT ce));;
    Ok (Rendered
          {| r_elements := ce;
             r_PC := pc_text;
             r_PT := pt_text;
             r_PI := PI_station_str;
             r_points := point_labels (List.length stations);
             r_stations := stations;
             r_station_text := station_text;
             r_deflection_deg := deflection_deg;
             r_dms := dms;
             r_tape_ct := fst ct;
             r_edm_ct := snd ct;
             r_xy := xy;
             r_xy_PI := xy_PI |})
  else Ok Warning.

(** ** Sample values of the C library

    The values glibc 2.36 (x86-64) returns for [sin], [cos] and [tan] at the
    arguments that the runs evaluated below reach, as pairs of a signed
    significand and an exponent.  Zeros, infinities and NaN follow the C
    standard (Annex F); any other argument outside the tables gives NaN,
    which [math_1] reports as a [ValueError], so that no run can pass over a
    missing value. *)

Definition float_of_pair (p : Z * Z) : f64 :=
  match fst p with
  | Z0 => S754_zero false
  | Zpos m => S754_finite false m (snd p)
  | Zneg m => S754_finite true m (snd p)
  end.

Fixpoint sample_lookup (tbl : list (Z * Z * (Z * Z))) (m e : Z) : f64 :=
  match tbl with
  | [] => S754_nan
  | (m', e', r) :: tbl' =>
      if (m =? m') && (e =? e') then float_of_pair r
      else sample_lookup tbl' m e
  end.

Definition sample_fun (at_zero : f64 -> f64) (tbl : list (Z * Z * (Z * Z)))
    (x : f64) : f64 :=
  match x with
  | S754_zero _ => at_zero x
  | S754_finite s m e => sample_lookup tbl (if s then Zneg m else Zpos m) e
  | _ => S754_nan
  end.

Definition sin_samples : list (Z * Z * (Z * Z)) :=
  [(7423809611562269, -126, (7423809611562269, -126));
   (7423809611562269, -125, (7423809611562269, -125));
   (7654502062915516, -60, (7654445828893568, -60));
   (7913190052022295, -58, (7912196003293402, -58));
   (5030569068109112, -57, (5029547531033638, -57));
   (5030569068109113, -57, (5029547531033639, -57));
   (5030569068109122, -57, (5029547531033648, -57));
   (6104543110207078, -57, (6102717744963152, -57));
   (4552162689176889, -56, (4549135386136304, -56));
   (5567556089158096, -56, (5562018083417154, -56));
   (6104543110207078, -56, (6097243614102394, -56));
   (7067447223231445, -56, (7056121444729606, -56));
   (8082840623212652, -56, (8065900832081294, -56));
   (4552162689176889, -55, (4540060724102060, -55));
   (4791365878643001, -55, (4777255353127347, -55));
   (5299062578633604, -55, (5279978261519160, -55));
   (5567556089158096, -55, (5545423894943439, -55));
   (6049008145670279, -55, (6020629634121879, -55));
   (6556704845660883, -55, (6520573266804315, -55));
   (7067447223231445, -55, (7022209436789885, -55));
   (7306650412697557, -55, (7256668705314133, -55));
   (7814347112688161, -55, (7753223957981181, -55));
   (8082840623212652, -55, (8015209235043577, -55));
   (8564292679724836, -55, (8483866643493087, -55));
   (4535994689857720, -54, (8976428540057844, -55));
   (4791365878643001, -54, (4735073325485847, -54));
   (4910967473376057, -54, (4850364148503209, -54));
   (5164815823371359, -54, (5094348363335632, -54));
   (5299062578633604, -54, (5222972640718299, -54));
   (5539788606889696, -54, (5452885553686245, -54));
   (5793636956884998, -54, (5694275777885826, -54));
   (6049008145670279, -54, (5935973131302891, -54));
   (6168609740403335, -54, (6048763457774743, -54));
   (6288211335136391, -54, (6161287160138741, -54));
   (6556704845660883, -54, (6412894866220604, -54));
   (6797430873916974, -54, (6637271875330526, -54));
   (7306650412697557, -54, (7107953472706159, -54));
   (7426252007430613, -54, (7217693799499574, -54));
   (7814347112688161, -54, (7571574112556620, -54));
   (8055073140944253, -54, (7789322075574433, -54));
   (8564292679724836, -54, (8245304579279389, -54));
   (8683894274457892, -54, (8351460262553289, -54));
   (4535994689857720, -53, (8693365410908228, -54));
   (4656357703985765, -53, (8903423481646057, -54));
   (4910967473376057, -53, (4671242695378743, -53));
   (4970768270742585, -53, (4722269625346846, -53));
   (5164815823371359, -53, (4886401753415963, -53));
   (5285178837499405, -53, (4987074151742051, -53));
   (5539788606889696, -53, (5197075276257581, -53));
   (5599589404256225, -53, (5245802696483242, -53));
   (5793636956884998, -53, (5402314743214557, -53));
   (5913999971013044, -53, (5498140038692727, -53));
   (6168609740403335, -53, (5697588228798671, -53));
   (6228410537769864, -53, (5743778744188614, -53));
   (6288211335136391, -53, (5789716078925340, -53));
   (6542821104526683, -53, (5982419540045995, -53));
   (6797430873916974, -53, (6170343104208620, -53));
   (6857231671283503, -53, (6213771679214919, -53));
   (7171642238040322, -53, (6437553294750869, -53));
   (7426252007430613, -53, (6613036688255585, -53));
   (7486052804797142, -53, (6653491743226234, -53));
   (7800463371553962, -53, (6861323936904312, -53));
   (8055073140944253, -53, (7023512222297493, -53));
   (8114873938310781, -53, (7060796664271202, -53));
   (8429284505067601, -53, (7251666898535026, -53));
   (8683894274457892, -53, (7399769910793346, -53));
   (8743695071824420, -53, (7433702093716640, -53));
   (4529052819290620, -52, (7606680467971086, -53));
   (4656357703985765, -52, (7739976664106084, -53));
   (4686258102669030, -52, (7770391273794612, -53));
   (4716158501352293, -52, (7800463371553962, -53));
   (4970768270742585, -52, (8042475029131032, -53));
   (5285178837499405, -52, (8305791264240817, -53));
   (5599589404256225, -52, (8528642519206438, -53));
   (5913999971013044, -52, (8709943085114633, -53));
   (6228410537769864, -52, (8848809683832568, -53));
   (6439128407179665, -52, (8917782817037998, -53));
   (6542821104526683, -52, (8944565771250109, -53));
   (6857231671283503, -52, (8996744833334727, -53));
   (7171642238040322, -52, (9005092658940966, -53));
   (7486052804797142, -52, (8969568578301594, -53));
   (7800463371553962, -52, (8890345661166616, -53));
   (8114873938310781, -52, (8767809873624857, -53));
   (8429284505067601, -52, (8602558197715963, -53));
   (8743695071824420, -52, (8395395722993923, -53));
   (4529052819290620, -51, (8147331724211684, -53));
   (4686258102669030, -51, (7859574744236006, -53));
   (4716158501352293, -51, (7800463371553963, -53));
   (6439128407179665, -51, (5013778681723373, -54))].

Definition cos_samples : list (Z * Z * (Z * Z)) :=
  [(7423809611562269, -125, (4503599627370496, -52));
   (6104543110207078, -56, (8974895959394456, -53));
   (4552162689176889, -55, (8935400324185162, -53));
   (5567556089158096, -55, (8899868287154231, -53));
   (7067447223231445, -55, (8834459481412707, -53));
   (8082840623212652, -55, (8781481351230622, -53));
   (4791365878643001, -54, (8690478040083571, -53));
   (5299062578633604, -54, (8620311920875237, -53));
   (6049008145670279, -54, (8504157463306945, -53));
   (6556704845660883, -54, (8417145197352071, -53));
   (7306650412697557, -54, (8276405486204008, -53));
   (7814347112688161, -54, (8172970988515883, -53));
   (8564292679724836, -54, (8008331693513654, -53));
   (4535994689857720, -53, (7888978886567816, -53));
   (4910967473376057, -53, (7701242113807189, -53));
   (5164815823371359, -53, (7566552472481776, -53));
   (5539788606889696, -53, (7356632856648405, -53));
   (5793636956884998, -53, (7207262575337000, -53));
   (6168609740403335, -53, (6976182823698179, -53));
   (6288211335136391, -53, (6899914937159737, -53));
   (6797430873916974, -53, (6561745529274342, -53));
   (7426252007430613, -53, (6115340070216233, -53));
   (8055073140944253, -53, (5639141289047865, -53));
   (8683894274457892, -53, (5135469178363756, -53));
   (4656357703985765, -52, (4606777578058217, -53));
   (4970768270742585, -52, (8111284440928078, -54));
   (5285178837499405, -52, (6969496363286982, -54));
   (5599589404256225, -52, (5793753599935276, -54));
   (5913999971013044, -52, (4589784251430764, -54));
   (6228410537769864, -52, (6726907870833556, -55));
   (6542821104526683, -52, (8482948839690608, -56));
   (6857231671283503, -52, (6941507727340305, -57));
   (7171642238040322, -52, (-6233401105180522, -58));
   (7486052804797142, -52, (-6579862290359141, -56));
   (7800463371553962, -52, (-5784658938374983, -55));
   (8114873938310781, -52, (-8251204454694509, -55));
   (8429284505067601, -52, (-5338775466159471, -54));
   (8743695071824420, -52, (-6525938727552388, -54));
   (4529052819290620, -51, (-7681308271449740, -54));
   (4686258102669030, -51, (-8799255253570997, -54));
   (4716158501352293, -51, (-9007199254740988, -54));
   (6439128407179665, -51, (-8651308817010334, -53))].

Definition tan_samples : list (Z * Z * (Z * Z)) :=
  [(7423809611562269, -126, (7423809611562269, -126));
   (6288211335136391, -54, (6556704845660884, -54));
   (7860264168920489, -53, (5367181035524734, -52));
   (4716158501352293, -52, (7800463371553960, -52));
   (7074237752028440, -52, (8165619676597685, 1));
   (5502184918244342, -51, (-7557937572593441, -53));
   (7074237752028440, -51, (-4967757600021511, -105))].

Definition libm_samples : libm := {|
  c_sin := sample_fun (fun x => x) sin_samples;
  c_cos := sample_fun (fun _ => f1) cos_samples;
  c_tan := sample_fun (fun x => x) tan_samples
|}.

(** Floats written as a signed significand and an exponent. *)
Definition fl (m e : Z) : f64 := float_of_pair (m, e).

(** ** Notions used to reason about rounding *)

(** The scaled significand [a / 2^e] of a positive rational. *)
Definition scaled (a : Q) : Q := (a / Qpow2 (round_exp a))%Q.

(** The rounded magnitude of a positive rational, before the overflow
    check. *)
Definition rnd_abs (a : Q) : Q :=
  (inject_Z (rne (scaled a)) * Qpow2 (round_exp a))%Q.

(** The value [Q2F] gives a rational, when it does not overflow. *)
Definition rnd (q : Q) : Q :=
  match Qcompare q 0 with
  | Eq => 0%Q
  | Lt => (- rnd_abs (Qabs q))%Q
  | Gt => rnd_abs (Qabs q)
  end.

(** The shape of [Q2F] on a non-zero rational with sign [s] and magnitude
    [a]. *)
Definition Q2F_mag (s : bool) (a : Q) : f64 :=
  let e := round_exp a in
  let m := rne (a / Qpow2 e) in
  let '(m', e') := if m =? 2 ^ 53 then (2 ^ 52, e + 1) else (m, e) in
  match m' with
  | Zpos p => if e' >? emax - prec then S754_infinity s else S754_finite s p e'
  | _ => S754_zero s
  end.

(** ** Notions used to state the properties *)

(** The exact sum of the values of a list of floats. *)
Definition Qsum (l : list f64) : Q :=
  fold_right (fun x acc => (F2Q x + acc)%Q) 0%Q l.

(** [x] is within [tol] of [y], on exact values. *)
Definition within (tol : Q) (x y : Q) : Prop := (Qabs (x - y) <= tol)%Q.

(** A float that is a number: not NaN, not an infinity. *)
Definition finite (x : f64) : Prop := is_finite x = true.

(** A well-formed binary64 value (the standard library's notion). *)
Definition valid (x : f64) : Prop :=
  SpecFloat.valid_binary prec emax x = true.

(** The largest finite binary64 value, [(2^53 - 1) * 2^971]. *)
Definition max_float : Q := (inject_Z (2 ^ 53 - 1) * Qpow2 971)%Q.

(** The arithmetic progression [first, first + step, ...] of [n] terms. *)
Definition progression (first step : Z) (n : nat) : list Z :=
  map (fun k => first + Z.of_nat k * step) (seq 0 n).

(** The float nearest to 5.5e-305, a degree of curve at which the arc
    length overflows. *)
Definition Da_tiny : f64 := fl 5435607388624064 (-1063).

(** A non-negative exact value rendered with two decimals (ties to even),
    zero-padded to width 5. *)
Definition render_05_2f (v : Q) : chars :=
  let n := rne (v * 100) in
  zero_pad 5 false
    (show_nat (n / 100) ++
     "."%char :: digit_char (n mod 100 / 10) :: digit_char (n mod 100 mod 10) :: []).

(** The float nearest to 1e-20. *)
Definition f1em20 : f64 := Q2F false (1 # 100000000000000000000).

(** Two decimal digits of a number below 100. *)
Definition two_digits (j : Z) : chars :=
  [digit_char (j / 10); digit_char (j mod 10)].

(** The display form of a station: group [g], then [k] hundredths of a foot
    ([0 <= k < 10000]) as two digits, a point and two digits. *)
Definition station_text (g k : Z) : chars :=
  show_nat g ++ "+"%char :: two_digits (k / 100) ++ "."%char :: two_digits (k mod 100).

(** The characters that can occur in a text [station_to_ft] accepts:
    digits, [+ - . _ e E], white space and the letters of [inf],
    [infinity] and [nan] in either case. *)
Definition accepted_char (c : ascii) : bool :=
  is_digit c || is_space c
  || existsb (Ascii.eqb c) (list_ascii_of_string "+-._eE")
  || existsb (Ascii.eqb (lower c)) (list_ascii_of_string "infinityan").

Definition all_accepted (s : chars) : Prop :=
  Forall (fun c => accepted_char c = true) s.

(** [s.isascii()]: every character of the text has a code below 128.  On
    such a text the characters of a string are the characters of the
    Python text, whatever its encoding. *)
Definition isascii (s : chars) : bool :=
  forallb (fun c => N.ltb (N_of_ascii c) 128) s.

(** The float a station is in [stn - PC_station]: an int is converted. *)
Definition num_float (v : num) : f64 :=
  match v with
  | Float x => x
  | Int n => of_Z n
  end.

(** The exact value of a station. *)
Definition num_value (v : num) : Q :=
  match v with
  | Float x => F2Q x
  | Int n => inject_Z n
  end.

(** The deflection formula [Da * (stn - PC) / 200] in binary64
    arithmetic. *)
Definition deflection_formula (Da_deg PC_station : f64) (stn : num) : f64 :=
  div (mul Da_deg (sub (num_float stn) PC_station)) f200.

(** The same formula on exact values, with the three roundings. *)
Definition deflection_value (da pc v : Q) : Q :=
  rnd (rnd (da * rnd (v - pc)) / 200).

(** A list of rationals that never decreases. *)
Fixpoint values_sorted (l : list Q) : Prop :=
  match l with
  | x :: (y :: _) as l' => (x <= y)%Q /\ values_sorted l'
  | _ => True
  end.

(** A list of floats whose values never decrease. *)
Definition non_decreasing (l : list f64) : Prop := values_sorted (map F2Q l).

(** A station that converts to a float of the same value, between two
    bounds. *)
Definition station_in_range (pc pt : Q) (stn : num) : Prop :=
  to_float stn = Ok (num_float stn) /\
  finite (num_float stn) /\
  (F2Q (num_float stn) == num_value stn)%Q /\
  (pc <= num_value stn <= pt)%Q.

(** The arguments at which the chord loop calls [math.sin]; [prev] is the
    deflection of the previous stake. *)
Fixpoint sine_arguments (prev : f64) (rest : list f64) : list f64 :=
  match rest with
  | [] => []
  | cur :: rest' =>
      math_radians (sub cur prev) :: math_radians cur :: sine_arguments cur rest'
  end.

(** At the finite argument [a] the C library's sine is a number of
    magnitude at most 1. *)
Definition sine_defined (M : libm) (a : f64) : Prop :=
  finite a /\ finite (c_sin M a) /\ (Qabs (F2Q (c_sin M a)) <= 1)%Q.

(** The chord [2 * R * sin(radians(d))] before it is rounded to two
    decimals. *)
Definition chord_formula (M : libm) (R d : f64) : f64 :=
  mul (mul f2 R) (c_sin M (math_radians d)).

(** At the finite argument [a] the C library's cosine is a number of
    magnitude at most 1. *)
Definition cosine_defined (M : libm) (a : f64) : Prop :=
  finite a /\ finite (c_cos M a) /\ (Qabs (F2Q (c_cos M a)) <= 1)%Q.

(** A list of rationals that increases strictly. *)
Fixpoint values_increasing (l : list Q) : Prop :=
  match l with
  | x :: (y :: _) as l' => (x < y)%Q /\ values_increasing l'
  | _ => True
  end.

(** ** Powers of two *)

Lemma Qpow2_Qpower (e : Z) : (Qpow2 e == 2 ^ e)%Q.
Proof.
  destruct e as [|p|p]; unfold Qpow2.
  - reflexivity.
  - rewrite Zpower_Qpower by lia. reflexivity.
  - change (2 ^ Zneg p)%Q with (/ (2 ^ Zpos p))%Q.
    change 2%Q with (inject_Z 2).
    rewrite <- Zpower_Qpower by lia.
    rewrite <- Pos2Z.inj_pow.
    reflexivity.
Qed.

Lemma Qpow2_pos (e : Z) : (0 < Qpow2 e)%Q.
Proof. rewrite Qpow2_Qpower. apply Qpower_0_lt. reflexivity. Qed.

Lemma Qpow2_add (a b : Z) : (Qpow2 (a + b) == Qpow2 a * Qpow2 b)%Q.
Proof.
  rewrite !Qpow2_Qpower. apply Qpower_plus. discriminate.
Qed.

Lemma Qpow2_succ (e : Z) : (Qpow2 (e + 1) == 2 * Qpow2 e)%Q.
Proof. rewrite Qpow2_add. change (Qpow2 1) with 2%Q. ring. Qed.

Lemma Qpow2_le (a b : Z) : a <= b -> (Qpow2 a <= Qpow2 b)%Q.
Proof.
  intros H. rewrite !Qpow2_Qpower. apply Qpower_le_compat_l; [exact H|].
  discriminate.
Qed.

Lemma Qpow2_lt (a b : Z) : a < b -> (Qpow2 a < Qpow2 b)%Q.
Proof.
  intros H. rewrite !Qpow2_Qpower. apply Qpower_lt_compat_l; [exact H|].
  reflexivity.
Qed.

Lemma Qpow2_lt_inv (a b : Z) : (Qpow2 a < Qpow2 b)%Q -> a < b.
Proof.
  intros H. destruct (Z_lt_le_dec a b) as [L|L]; [exact L|].
  apply Qpow2_le in L. lra.
Qed.

Lemma Qpow2_inject (e : Z) : 0 <= e -> (Qpow2 e == inject_Z (2 ^ e))%Q.
Proof.
  intros H. destruct e; simpl; try reflexivity. lia.
Qed.

Lemma Qpow2_opp (e : Z) : (Qpow2 (- e) == / Qpow2 e)%Q.
Proof.
  rewrite !Qpow2_Qpower. apply Qpower_opp.
Qed.

Lemma Qpow2_sub (a b : Z) : (Qpow2 (a - b) == Qpow2 a / Qpow2 b)%Q.
Proof.
  unfold Z.sub. rewrite Qpow2_add, Qpow2_opp. reflexivity.
Qed.

Lemma Qpow2_Proper_eq (a b : Z) : a = b -> (Qpow2 a == Qpow2 b)%Q.
Proof. intros ->. reflexivity. Qed.

Lemma Q_as_fraction (q : Q) : (q * inject_Z (Zpos (Qden q)) == inject_Z (Qnum q))%Q.
Proof.
  destruct q as [n d]. unfold Qeq, Qmult, inject_Z, Qnum, Qden. lia.
Qed.

Lemma Qnum_pos (q : Q) : (0 < q)%Q -> 0 < Qnum q.
Proof.
  destruct q as [n d]. unfold Qlt; simpl. lia.
Qed.

Lemma inject_Z_lt_pow2 (n k : Z) :
  0 <= k -> n < 2 ^ k -> (inject_Z n < Qpow2 k)%Q.
Proof.
  intros Hk H. rewrite Qpow2_inject by exact Hk.
  rewrite <- Zlt_Qlt. exact H.
Qed.

Lemma inject_Z_ge_pow2 (n k : Z) :
  0 <= k -> 2 ^ k <= n -> (Qpow2 k <= inject_Z n)%Q.
Proof.
  intros Hk H. rewrite Qpow2_inject by exact Hk.
  rewrite <- Zle_Qle. exact H.
Qed.

(** [Qlog2] is the floor of the binary logarithm. *)
Lemma Qlog2_spec (q : Q) :
  (0 < q)%Q -> (Qpow2 (Qlog2 q) <= q < Qpow2 (Qlog2 q + 1))%Q.
Proof.
  intros Hq.
  pose proof (Qnum_pos q Hq) as Hn.
  pose proof (Q_as_fraction q) as Hf.
  set (n := Qnum q) in *. set (d := Zpos (Qden q)) in *.
  assert (Hd : 0 < d) by (unfold d; lia).
  pose proof (Z.log2_spec n Hn) as [Hn1 Hn2].
  pose proof (Z.log2_spec d Hd) as [Hd1 Hd2].
  pose proof (Z.log2_nonneg n) as Hln.
  pose proof (Z.log2_nonneg d) as Hld.
  assert (Hn1' := inject_Z_ge_pow2 n (Z.log2 n) Hln Hn1).
  assert (Hn2' : (inject_Z n < Qpow2 (Z.log2 n + 1))%Q).
  { apply inject_Z_lt_pow2; [lia|]. replace (Z.log2 n + 1) with (Z.succ (Z.log2 n)) by lia. exact Hn2. }
  assert (Hd1' := inject_Z_ge_pow2 d (Z.log2 d) Hld Hd1).
  assert (Hd2' : (inject_Z d < Qpow2 (Z.log2 d + 1))%Q).
  { apply inject_Z_lt_pow2; [lia|]. replace (Z.log2 d + 1) with (Z.succ (Z.log2 d)) by lia. exact Hd2. }
  assert (HdQ : (0 < inject_Z d)%Q) by (rewrite <- (Zlt_Qlt 0); exact Hd).
  set (k := Z.log2 n - Z.log2 d).
  (* q < 2^(k+1) *)
  assert (Hup : (q < Qpow2 (k + 1))%Q).
  { apply (Qmult_lt_r _ _ (inject_Z d) HdQ). rewrite Hf.
    eapply Qlt_le_trans; [exact Hn2'|].
    assert (E : Z.log2 n + 1 = (k + 1) + Z.log2 d) by (unfold k; lia).
    rewrite E, Qpow2_add.
    apply Qmult_le_l; [apply Qpow2_pos | exact Hd1']. }
  (* 2^(k-1) < q *)
  assert (Hlo : (Qpow2 (k - 1) < q)%Q).
  { apply (Qmult_lt_r _ _ (inject_Z d) HdQ). rewrite Hf.
    eapply Qlt_le_trans; [|exact Hn1'].
    assert (E : Z.log2 n = (k - 1) + (Z.log2 d + 1)) by (unfold k; lia).
    rewrite E, Qpow2_add.
    apply Qmult_lt_l; [apply Qpow2_pos | exact Hd2']. }
  unfold Qlog2. fold n. fold d. fold k.
  destruct (Qle_bool (Qpow2 k) q) eqn:E.
  - apply Qle_bool_iff in E. split; assumption.
  - assert (Hlt : (q < Qpow2 k)%Q).
    { apply Qnot_le_lt. intros C. apply Qle_bool_iff in C. congruence. }
    replace (k - 1 + 1) with k by lia. split; [apply Qlt_le_weak; exact Hlo | exact Hlt].
Qed.

Lemma Qlog2_unique (q : Q) (j : Z) :
  (Qpow2 j <= q)%Q -> (q < Qpow2 (j + 1))%Q -> Qlog2 q = j.
Proof.
  intros H1 H2.
  assert (Hq : (0 < q)%Q) by (pose proof (Qpow2_pos j); lra).
  destruct (Qlog2_spec q Hq) as [S1 S2].
  assert (A : Qlog2 q < j + 1).
  { apply Qpow2_lt_inv. lra. }
  assert (B : j < Qlog2 q + 1).
  { apply Qpow2_lt_inv. lra. }
  lia.
Qed.

Lemma Qlog2_proper (q q' : Q) : (0 < q)%Q -> (q == q')%Q -> Qlog2 q = Qlog2 q'.
Proof.
  intros Hq E. symmetry. apply Qlog2_unique.
  - rewrite <- E. apply Qlog2_spec; exact Hq.
  - rewrite <- E. apply Qlog2_spec; exact Hq.
Qed.

Lemma Qlog2_mono (a b : Q) : (0 < a)%Q -> (a <= b)%Q -> Qlog2 a <= Qlog2 b.
Proof.
  intros Ha Hab.
  assert (Hb : (0 < b)%Q) by lra.
  destruct (Qlog2_spec a Ha) as [A1 A2].
  destruct (Qlog2_spec b Hb) as [B1 B2].
  assert (Qlog2 a < Qlog2 b + 1); [|lia].
  apply Qpow2_lt_inv. lra.
Qed.

(** ** Rounding to the nearest integer *)

Lemma Qfloor_proper (x y : Q) : (x == y)%Q -> Qfloor x = Qfloor y.
Proof. intros E. rewrite E. reflexivity. Qed.

Lemma Qfloor_bounds (y : Q) :
  (inject_Z (Qfloor y) <= y < inject_Z (Qfloor y) + 1)%Q.
Proof.
  split; [apply Qfloor_le|].
  pose proof (Qlt_floor y) as H. rewrite inject_Z_plus in H. exact H.
Qed.

Lemma Qfloor_unique (y : Q) (n : Z) :
  (inject_Z n <= y)%Q -> (y < inject_Z n + 1)%Q -> Qfloor y = n.
Proof.
  intros H1 H2. destruct (Qfloor_bounds y) as [F1 F2].
  assert (A : (inject_Z n < inject_Z (Qfloor y + 1))%Q)
    by (rewrite inject_Z_plus; change (inject_Z 1) with 1%Q; lra).
  assert (B : (inject_Z (Qfloor y) < inject_Z (n + 1))%Q)
    by (rewrite inject_Z_plus; change (inject_Z 1) with 1%Q; lra).
  rewrite <- Zlt_Qlt in A, B. lia.
Qed.

Lemma rne_proper (y y' : Q) : (y == y')%Q -> rne y = rne y'.
Proof.
  intros E. unfold rne. rewrite (Qfloor_proper _ _ E).
  assert (C : (y - inject_Z (Qfloor y') ?= 1 # 2)%Q
            = (y' - inject_Z (Qfloor y') ?= 1 # 2)%Q).
  { rewrite E. reflexivity. }
  rewrite C. reflexivity.
Qed.

Lemma rne_cases (y : Q) :
  (rne y = Qfloor y /\ (y - inject_Z (Qfloor y) <= 1 # 2)%Q) \/
  (rne y = Qfloor y + 1 /\ (1 # 2 <= y - inject_Z (Qfloor y))%Q).
Proof.
  unfold rne.
  destruct (Qcompare_spec (y - inject_Z (Qfloor y)) (1 # 2)) as [E|L|G].
  - destruct (Z.even (Qfloor y)); [left|right]; split; try reflexivity; lra.
  - left; split; [reflexivity | lra].
  - right; split; [reflexivity | lra].
Qed.

Lemma rne_error (y : Q) : (Qabs (inject_Z (rne y) - y) <= 1 # 2)%Q.
Proof.
  destruct (Qfloor_bounds y) as [F1 F2].
  apply Qabs_Qle_condition.
  destruct (rne_cases y) as [[-> H]|[-> H]].
  - lra.
  - rewrite inject_Z_plus. change (inject_Z 1) with 1%Q. lra.
Qed.

Lemma rne_Z (n : Z) : rne (inject_Z n) = n.
Proof.
  unfold rne. rewrite Qfloor_Z.
  destruct (Qcompare_spec (inject_Z n - inject_Z n) (1 # 2)) as [E|L|G];
    try reflexivity; lra.
Qed.

Lemma rne_mono (y y' : Q) : (y <= y')%Q -> rne y <= rne y'.
Proof.
  intros H.
  pose proof (Qfloor_resp_le _ _ H) as HF.
  destruct (Z.eq_dec (Qfloor y) (Qfloor y')) as [E|NE].
  - unfold rne. rewrite E.
    destruct (Qcompare_spec (y - inject_Z (Qfloor y')) (1 # 2)) as [E1|L1|G1];
    destruct (Qcompare_spec (y' - inject_Z (Qfloor y')) (1 # 2)) as [E2|L2|G2];
    try destruct (Z.even (Qfloor y')); try lia; try lra.
  - assert (Qfloor y + 1 <= Qfloor y') by lia.
    destruct (rne_cases y) as [[-> _]|[-> _]];
    destruct (rne_cases y') as [[-> _]|[-> _]]; lia.
Qed.

Lemma rne_le (y : Q) (n : Z) : (y <= inject_Z n)%Q -> rne y <= n.
Proof. intros H. rewrite <- (rne_Z n). apply rne_mono; exact H. Qed.

Lemma rne_ge (y : Q) (n : Z) : (inject_Z n <= y)%Q -> n <= rne y.
Proof. intros H. rewrite <- (rne_Z n). apply rne_mono; exact H. Qed.

(** ** The binade of a positive rational *)

Lemma round_exp_min (a : Q) : emin <= round_exp a.
Proof. unfold round_exp. lia. Qed.

Lemma round_exp_upper (a : Q) :
  (0 < a)%Q -> (a < Qpow2 (round_exp a + 53))%Q.
Proof.
  intros Ha. destruct (Qlog2_spec a Ha) as [_ H].
  eapply Qlt_le_trans; [exact H|]. apply Qpow2_le. unfold round_exp. lia.
Qed.

Lemma round_exp_lower (a : Q) :
  (0 < a)%Q -> emin < round_exp a -> (Qpow2 (round_exp a + 52) <= a)%Q.
Proof.
  intros Ha He. destruct (Qlog2_spec a Ha) as [H _].
  assert (E : round_exp a + 52 = Qlog2 a) by (unfold round_exp in *; lia).
  rewrite E. exact H.
Qed.

Lemma round_exp_proper (a a' : Q) :
  (0 < a)%Q -> (a == a')%Q -> round_exp a = round_exp a'.
Proof.
  intros Ha E. unfold round_exp. rewrite (Qlog2_proper a a' Ha E). reflexivity.
Qed.

Lemma round_exp_mono (a b : Q) :
  (0 < a)%Q -> (a <= b)%Q -> round_exp a <= round_exp b.
Proof.
  intros Ha H. pose proof (Qlog2_mono a b Ha H). unfold round_exp. lia.
Qed.

(** The scaled significand [a / 2^e] and its rounding. *)

Lemma scaled_pos (a : Q) : (0 < a)%Q -> (0 < scaled a)%Q.
Proof.
  intros Ha. unfold scaled. apply Qlt_shift_div_l; [apply Qpow2_pos|]. lra.
Qed.

Lemma scaled_upper (a : Q) : (0 < a)%Q -> (scaled a < inject_Z (2 ^ 53))%Q.
Proof.
  intros Ha. unfold scaled. apply Qlt_shift_div_r; [apply Qpow2_pos|].
  pose proof (round_exp_upper a Ha) as H.
  rewrite Qpow2_add in H. rewrite Qmult_comm. exact H.
Qed.

Lemma scaled_lower (a : Q) :
  (0 < a)%Q -> emin < round_exp a -> (inject_Z (2 ^ 52) <= scaled a)%Q.
Proof.
  intros Ha He. unfold scaled. apply Qle_shift_div_l; [apply Qpow2_pos|].
  pose proof (round_exp_lower a Ha He) as H.
  rewrite Qpow2_add in H. rewrite Qmult_comm. exact H.
Qed.

Lemma scaled_mul (a : Q) : (scaled a * Qpow2 (round_exp a) == a)%Q.
Proof.
  unfold scaled. field. pose proof (Qpow2_pos (round_exp a)). lra.
Qed.

(** ** The value a rational rounds to *)

Lemma Qcompare_proper (a a' b : Q) : (a == a')%Q -> (a ?= b)%Q = (a' ?= b)%Q.
Proof. intros E. rewrite E. reflexivity. Qed.

Lemma scaled_proper (a a' : Q) : (0 < a)%Q -> (a == a')%Q -> (scaled a == scaled a')%Q.
Proof.
  intros Ha E. unfold scaled. rewrite (round_exp_proper a a' Ha E), E. reflexivity.
Qed.

Lemma Qabs_case_eq (q : Q) :
  ((0 <= q)%Q /\ (Qabs q == q)%Q) \/ ((q <= 0)%Q /\ (Qabs q == - q)%Q).
Proof.
  destruct (Qlt_le_dec q 0) as [L|G].
  - right. split; [lra|]. apply Qabs_neg. lra.
  - left. split; [exact G|]. apply Qabs_pos. exact G.
Qed.

Lemma Qabs_pos_of_nonzero (q : Q) : ~ (q == 0)%Q -> (0 < Qabs q)%Q.
Proof.
  intros H. destruct (Qabs_case_eq q) as [[A E]|[A E]]; rewrite E.
  - destruct (Qeq_dec q 0); [contradiction | lra].
  - destruct (Qeq_dec q 0); [contradiction | lra].
Qed.

Lemma Q2F_proper (s0 : bool) (q q' : Q) : (q == q')%Q -> Q2F s0 q = Q2F s0 q'.
Proof.
  intros E. unfold Q2F. rewrite (Qcompare_proper q q' 0 E).
  destruct (Qcompare_spec q' 0) as [Z|L|G]; [reflexivity| |].
  - assert (Ha : (0 < Qabs q)%Q) by (apply Qabs_pos_of_nonzero; lra).
    assert (Ea : (Qabs q == Qabs q')%Q) by (rewrite E; reflexivity).
    rewrite (round_exp_proper _ _ Ha Ea).
    rewrite (rne_proper (Qabs q / Qpow2 (round_exp (Qabs q')))
                        (Qabs q' / Qpow2 (round_exp (Qabs q')))); [reflexivity|].
    rewrite Ea. reflexivity.
  - assert (Ha : (0 < Qabs q)%Q) by (apply Qabs_pos_of_nonzero; lra).
    assert (Ea : (Qabs q == Qabs q')%Q) by (rewrite E; reflexivity).
    rewrite (round_exp_proper _ _ Ha Ea).
    rewrite (rne_proper (Qabs q / Qpow2 (round_exp (Qabs q')))
                        (Qabs q' / Qpow2 (round_exp (Qabs q')))); [reflexivity|].
    rewrite Ea. reflexivity.
Qed.

Lemma rne_scaled_bounds (a : Q) :
  (0 < a)%Q -> 0 <= rne (scaled a) <= 2 ^ 53.
Proof.
  intros Ha. split.
  - apply rne_ge. pose proof (scaled_pos a Ha). change (inject_Z 0) with 0%Q. lra.
  - apply rne_le. pose proof (scaled_upper a Ha). lra.
Qed.

Lemma Q2F_neg (s0 : bool) (q : Q) :
  (q < 0)%Q -> Q2F s0 q = Q2F_mag true (Qabs q).
Proof.
  intros H. unfold Q2F, Q2F_mag.
  destruct (Qcompare_spec q 0) as [Z|L|G]; try lra. reflexivity.
Qed.

Lemma Q2F_pos (s0 : bool) (q : Q) :
  (0 < q)%Q -> Q2F s0 q = Q2F_mag false (Qabs q).
Proof.
  intros H. unfold Q2F, Q2F_mag.
  destruct (Qcompare_spec q 0) as [Z|L|G]; try lra. reflexivity.
Qed.

Lemma Q2F_zero (s0 : bool) (q : Q) : (q == 0)%Q -> Q2F s0 q = S754_zero s0.
Proof.
  intros H. unfold Q2F.
  destruct (Qcompare_spec q 0) as [Z|L|G]; try lra. reflexivity.
Qed.

Lemma F2Q_finite_pos (p : positive) (e : Z) :
  (F2Q (S754_finite false p e) == inject_Z (Zpos p) * Qpow2 e)%Q.
Proof. reflexivity. Qed.

Lemma F2Q_finite_neg (p : positive) (e : Z) :
  (F2Q (S754_finite true p e) == - (inject_Z (Zpos p) * Qpow2 e))%Q.
Proof.
  unfold F2Q. change (Zneg p) with (- Zpos p). rewrite inject_Z_opp. ring.
Qed.

Lemma F2Q_finite (s : bool) (p : positive) (e : Z) :
  (F2Q (S754_finite s p e)
   == (if s then -1 else 1) * (inject_Z (Zpos p) * Qpow2 e))%Q.
Proof.
  destruct s; [rewrite F2Q_finite_neg | rewrite F2Q_finite_pos]; ring.
Qed.

(** The value of a rounded magnitude. *)
Lemma Q2F_mag_value (s : bool) (a : Q) :
  (0 < a)%Q -> is_finite (Q2F_mag s a) = true ->
  (F2Q (Q2F_mag s a) == (if s then -1 else 1) * rnd_abs a)%Q.
Proof.
  intros Ha. unfold Q2F_mag, rnd_abs. fold (scaled a).
  pose proof (rne_scaled_bounds a Ha) as [B0 B1].
  destruct (Z.eqb_spec (rne (scaled a)) (2 ^ 53)) as [E|NE].
  - rewrite E. change (2 ^ 52) with (Zpos (2 ^ 52)).
    destruct (round_exp a + 1 >? emax - prec); [discriminate|]. intros _.
    rewrite F2Q_finite. rewrite Qpow2_succ.
    change (inject_Z (Zpos (2 ^ 52))) with (inject_Z (2 ^ 52)).
    change (inject_Z (2 ^ 53)) with (2 * inject_Z (2 ^ 52))%Q.
    ring.
  - destruct (rne (scaled a)) as [|p|p] eqn:Em.
    + intros _. simpl F2Q. change (inject_Z 0) with 0%Q. ring.
    + destruct (round_exp a >? emax - prec); [discriminate|]. intros _.
      rewrite F2Q_finite. reflexivity.
    + lia.
Qed.

Lemma Q2F_value (s0 : bool) (q : Q) :
  is_finite (Q2F s0 q) = true -> (F2Q (Q2F s0 q) == rnd q)%Q.
Proof.
  unfold rnd. destruct (Qcompare_spec q 0) as [Z|L|G]; intros F.
  - rewrite Q2F_zero by exact Z. reflexivity.
  - rewrite Q2F_neg in * by exact L.
    rewrite Q2F_mag_value; [ring| |exact F].
    apply Qabs_pos_of_nonzero. lra.
  - rewrite Q2F_pos in * by exact G.
    rewrite Q2F_mag_value; [ring| |exact F].
    apply Qabs_pos_of_nonzero. lra.
Qed.

(** No overflow below [2^1023]. *)
Lemma Q2F_mag_finite (s : bool) (a : Q) :
  (0 < a)%Q -> (a < Qpow2 1023)%Q -> is_finite (Q2F_mag s a) = true.
Proof.
  intros Ha Hb. unfold Q2F_mag.
  assert (He : round_exp a <= 970).
  { destruct (Qlog2_spec a Ha) as [L _].
    assert (Qlog2 a < 1023) by (apply Qpow2_lt_inv; lra).
    unfold round_exp, emin. lia. }
  destruct (rne (a / Qpow2 (round_exp a)) =? 2 ^ 53).
  - change (2 ^ 52) with (Zpos (2 ^ 52)).
    destruct (Z.gtb_spec (round_exp a + 1) (emax - prec)) as [G|G];
      [unfold emax, prec in G; lia | reflexivity].
  - destruct (rne (a / Qpow2 (round_exp a))); try reflexivity.
    destruct (Z.gtb_spec (round_exp a) (emax - prec)) as [G|G];
      [unfold emax, prec in G; lia | reflexivity].
Qed.

Lemma Q2F_finite (s0 : bool) (q : Q) :
  (Qabs q < Qpow2 1023)%Q -> is_finite (Q2F s0 q) = true.
Proof.
  intros H. destruct (Qcompare_spec q 0) as [Z|L|G].
  - rewrite Q2F_zero by exact Z. reflexivity.
  - rewrite Q2F_neg by exact L. apply Q2F_mag_finite; [|exact H].
    apply Qabs_pos_of_nonzero. lra.
  - rewrite Q2F_pos by exact G. apply Q2F_mag_finite; [|exact H].
    apply Qabs_pos_of_nonzero. lra.
Qed.

(** The result is never NaN. *)
Lemma Q2F_not_nan (s0 : bool) (q : Q) : is_nan (Q2F s0 q) = false.
Proof.
  unfold Q2F. destruct (q ?= 0)%Q; try reflexivity;
  match goal with |- context [if ?c then _ else _] => destruct c end;
  try (change (2 ^ 52) with (Zpos (2 ^ 52)));
  repeat match goal with
  | |- context [match ?m with Z0 => _ | Zpos _ => _ | Zneg _ => _ end] => destruct m
  | |- context [if ?c then _ else _] => destruct c
  end; reflexivity.
Qed.

(** ** Error, exactness and monotonicity of rounding *)

Lemma rnd_abs_proper (a a' : Q) : (0 < a)%Q -> (a == a')%Q -> (rnd_abs a == rnd_abs a')%Q.
Proof.
  intros Ha E. unfold rnd_abs.
  rewrite (rne_proper _ _ (scaled_proper a a' Ha E)).
  rewrite (round_exp_proper a a' Ha E). reflexivity.
Qed.

Lemma rnd_abs_nonneg (a : Q) : (0 < a)%Q -> (0 <= rnd_abs a)%Q.
Proof.
  intros Ha. unfold rnd_abs.
  apply Qmult_le_0_compat.
  - change 0%Q with (inject_Z 0). rewrite <- Zle_Qle.
    apply (rne_scaled_bounds a Ha).
  - apply Qlt_le_weak, Qpow2_pos.
Qed.

(** The error is at most half a unit in the last place. *)
Lemma rnd_abs_error (a : Q) :
  (0 < a)%Q ->
  (Qabs (rnd_abs a - a) <= (1 # 2) * Qpow2 (round_exp a))%Q.
Proof.
  intros Ha. unfold rnd_abs.
  pose proof (scaled_mul a) as Hs.
  pose proof (rne_error (scaled a)) as He.
  pose proof (Qpow2_pos (round_exp a)) as Hp.
  set (P := Qpow2 (round_exp a)) in *.
  set (m := inject_Z (rne (scaled a))) in *.
  assert (E : (m * P - a == (m - scaled a) * P)%Q).
  { rewrite <- Hs at 1. ring. }
  rewrite E, Qabs_Qmult, (Qabs_pos P) by lra.
  apply Qmult_le_compat_r; [exact He | lra].
Qed.

(** Below [2^k] the error is at most [2^(k-54)]. *)
Lemma rnd_abs_error_below (a : Q) (k : Z) :
  (0 < a)%Q -> (a < Qpow2 k)%Q -> emin + 53 <= k ->
  (Qabs (rnd_abs a - a) <= Qpow2 (k - 54))%Q.
Proof.
  intros Ha Hk Hmin.
  eapply Qle_trans; [apply rnd_abs_error; exact Ha|].
  assert (He : round_exp a <= k - 53).
  { destruct (Qlog2_spec a Ha) as [L _].
    assert (Qlog2 a < k) by (apply Qpow2_lt_inv; lra).
    unfold round_exp. lia. }
  apply (Qpow2_le _ _) in He.
  assert (E : k - 53 = (k - 54) + 1) by lia.
  rewrite E, Qpow2_succ in He. lra.
Qed.

(** In the normal range the relative error is at most [2^-53]. *)
Lemma rnd_abs_error_rel (a : Q) :
  (0 < a)%Q -> (Qpow2 (emin + 52) <= a)%Q ->
  (Qabs (rnd_abs a - a) <= a * Qpow2 (-53))%Q.
Proof.
  intros Ha Hn.
  eapply Qle_trans; [apply rnd_abs_error; exact Ha|].
  assert (Hl : (Qpow2 (round_exp a + 52) <= a)%Q).
  { destruct (Z.eq_dec (round_exp a) emin) as [E|NE].
    - rewrite E. exact Hn.
    - apply round_exp_lower; [exact Ha|]. pose proof (round_exp_min a). lia. }
  assert (E : ((1 # 2) * Qpow2 (round_exp a)
               == Qpow2 (round_exp a + 52) * Qpow2 (-53))%Q).
  { rewrite <- Qpow2_add.
    assert (X : round_exp a + 52 + -53 = round_exp a + (-1)) by lia.
    rewrite X, Qpow2_add. change (Qpow2 (-1)) with (1 # 2)%Q. ring. }
  rewrite E. apply Qmult_le_compat_r; [exact Hl|].
  apply Qlt_le_weak, Qpow2_pos.
Qed.

(** Values [n * 2^E] with at most 53 bits, [E >= emin], round to
    themselves. *)
Lemma rnd_abs_exact (a : Q) (n E : Z) :
  0 < n <= 2 ^ 53 -> emin <= E -> (a == inject_Z n * Qpow2 E)%Q ->
  (rnd_abs a == a)%Q.
Proof.
  intros [Hn0 Hn1] HE Ea.
  assert (HnQ : (0 < inject_Z n)%Q) by (rewrite <- (Zlt_Qlt 0); exact Hn0).
  pose proof (Qpow2_pos E) as HpE.
  assert (Ha : (0 < a)%Q).
  { rewrite Ea. apply Qmult_lt_0_compat; assumption. }
  destruct (Z.eq_dec n (2 ^ 53)) as [Heq|Hne].
  2:{ (* n < 2^53 *)
    assert (Hlt : (inject_Z n < Qpow2 53)%Q).
    { change (Qpow2 53) with (inject_Z (2 ^ 53)). rewrite <- Zlt_Qlt. lia. }
    assert (Hup : (a < Qpow2 (53 + E))%Q).
    { rewrite Ea, Qpow2_add. apply Qmult_lt_compat_r; [exact HpE|].
      exact Hlt. }
    assert (He : round_exp a <= E).
    { destruct (Qlog2_spec a Ha) as [L _].
      assert (Qlog2 a < 53 + E) by (apply Qpow2_lt_inv; lra).
      unfold round_exp. lia. }
    unfold rnd_abs.
    pose proof (Qpow2_pos (round_exp a)) as Hpe.
    assert (Es : (scaled a == inject_Z (n * 2 ^ (E - round_exp a)))%Q).
    { unfold scaled. set (e := round_exp a) in *. rewrite Ea, inject_Z_mult.
      rewrite <- Qpow2_inject by lia. rewrite Qpow2_sub. field. lra. }
    rewrite (rne_proper _ _ Es), rne_Z.
    rewrite inject_Z_mult, <- Qpow2_inject by lia.
    set (e := round_exp a) in *.
    rewrite Ea, Qpow2_sub. field. lra. }
  - (* n = 2^53: the value is 2^(53+E) *)
    assert (Ea' : (a == Qpow2 (53 + E))%Q).
    { rewrite Ea, Heq, Qpow2_add. reflexivity. }
    assert (Hl : Qlog2 a = 53 + E).
    { apply Qlog2_unique; rewrite Ea'; [apply Qle_refl | apply Qpow2_lt; lia]. }
    assert (He : round_exp a = E + 1) by (unfold round_exp; lia).
    unfold rnd_abs.
    assert (Es : (scaled a == inject_Z (2 ^ 52))%Q).
    { unfold scaled. rewrite He. rewrite Ea'.
      change (inject_Z (2 ^ 52)) with (Qpow2 52).
      assert (X : 53 + E = 52 + (E + 1)) by lia. rewrite X, Qpow2_add.
      field. pose proof (Qpow2_pos (E + 1)). lra. }
    rewrite (rne_proper _ _ Es), rne_Z, He. rewrite Ea'.
    change (inject_Z (2 ^ 52)) with (Qpow2 52).
    rewrite <- Qpow2_add. apply Qpow2_Proper_eq. lia.
Qed.

Lemma rnd_abs_mono (a b : Q) :
  (0 < a)%Q -> (a <= b)%Q -> (rnd_abs a <= rnd_abs b)%Q.
Proof.
  intros Ha Hab. assert (Hb : (0 < b)%Q) by lra.
  pose proof (round_exp_mono a b Ha Hab) as He.
  pose proof (Qpow2_pos (round_exp a)) as Hpa.
  pose proof (Qpow2_pos (round_exp b)) as Hpb.
  unfold rnd_abs.
  destruct (Z.eq_dec (round_exp a) (round_exp b)) as [E|NE].
  - rewrite E. apply Qmult_le_compat_r; [|lra].
    rewrite <- Zle_Qle. apply rne_mono.
    unfold scaled. rewrite E.
    apply Qmult_le_compat_r; [exact Hab|].
    apply Qlt_le_weak, Qinv_lt_0_compat. exact Hpb.
  - assert (Hlt : round_exp a + 1 <= round_exp b) by lia.
    assert (Hmin : emin < round_exp b) by (pose proof (round_exp_min a); lia).
    pose proof (rne_scaled_bounds a Ha) as [_ Ua].
    assert (Lb : 2 ^ 52 <= rne (scaled b)).
    { apply rne_ge. apply scaled_lower; assumption. }
    apply (Qle_trans _ (inject_Z (2 ^ 53) * Qpow2 (round_exp a))).
    { apply Qmult_le_compat_r; [|lra]. rewrite <- Zle_Qle. exact Ua. }
    apply (Qle_trans _ (inject_Z (2 ^ 52) * Qpow2 (round_exp b))).
    { apply (Qle_trans _ (inject_Z (2 ^ 52) * Qpow2 (round_exp a + 1))).
      - rewrite Qpow2_succ.
        change (inject_Z (2 ^ 53)) with (2 * inject_Z (2 ^ 52))%Q.
        apply Qle_lteq. right. ring.
      - apply Qmult_le_l; [reflexivity|]. apply Qpow2_le. exact Hlt. }
    apply Qmult_le_compat_r; [|lra]. rewrite <- Zle_Qle. exact Lb.
Qed.

(** ** Signed rounding *)

Lemma rnd_pos (q : Q) : (0 < q)%Q -> (rnd q == rnd_abs q)%Q.
Proof.
  intros H. unfold rnd. destruct (Qcompare_spec q 0); try lra.
  apply rnd_abs_proper.
  - apply Qabs_pos_of_nonzero. lra.
  - apply Qabs_pos. lra.
Qed.

Lemma rnd_neg (q : Q) : (q < 0)%Q -> (rnd q == - rnd_abs (- q))%Q.
Proof.
  intros H. unfold rnd. destruct (Qcompare_spec q 0); try lra.
  apply Qopp_comp. apply rnd_abs_proper.
  - apply Qabs_pos_of_nonzero. lra.
  - apply Qabs_neg. lra.
Qed.

Lemma rnd_zero (q : Q) : (q == 0)%Q -> (rnd q == 0)%Q.
Proof.
  intros H. unfold rnd. destruct (Qcompare_spec q 0); lra.
Qed.

Lemma rnd_proper (q q' : Q) : (q == q')%Q -> (rnd q == rnd q')%Q.
Proof.
  intros E. destruct (Qcompare_spec q 0) as [Z|L|G].
  - rewrite !rnd_zero; [reflexivity|lra|lra].
  - rewrite !rnd_neg by lra. apply Qopp_comp, rnd_abs_proper; [lra|].
    rewrite E. reflexivity.
  - rewrite !rnd_pos by lra. apply rnd_abs_proper; [lra|exact E].
Qed.

Lemma rnd_sign_nonneg (q : Q) : (0 <= q)%Q -> (0 <= rnd q)%Q.
Proof.
  intros H. destruct (Qeq_dec q 0) as [Z|NZ].
  - rewrite rnd_zero by exact Z. lra.
  - rewrite rnd_pos by lra. apply rnd_abs_nonneg. lra.
Qed.

Lemma rnd_sign_nonpos (q : Q) : (q <= 0)%Q -> (rnd q <= 0)%Q.
Proof.
  intros H. destruct (Qeq_dec q 0) as [Z|NZ].
  - rewrite rnd_zero by exact Z. lra.
  - rewrite rnd_neg by lra.
    assert (0 <= rnd_abs (- q))%Q by (apply rnd_abs_nonneg; lra). lra.
Qed.

Lemma rnd_mono (q q' : Q) : (q <= q')%Q -> (rnd q <= rnd q')%Q.
Proof.
  intros H.
  destruct (Qlt_le_dec 0 q) as [P|NP].
  - rewrite !rnd_pos by lra. apply rnd_abs_mono; assumption.
  - destruct (Qlt_le_dec q' 0) as [N'|P'].
    + rewrite !rnd_neg by lra.
      assert (rnd_abs (- q') <= rnd_abs (- q))%Q by (apply rnd_abs_mono; lra).
      lra.
    + pose proof (rnd_sign_nonpos q NP). pose proof (rnd_sign_nonneg q' P'). lra.
Qed.

Lemma rnd_error_below (q : Q) (k : Z) :
  (Qabs q < Qpow2 k)%Q -> emin + 53 <= k ->
  (Qabs (rnd q - q) <= Qpow2 (k - 54))%Q.
Proof.
  intros Hk Hmin.
  destruct (Qcompare_spec q 0) as [Z|L|G].
  - rewrite rnd_zero by exact Z. rewrite Z.
    assert (E : (0 - 0 == 0)%Q) by ring. rewrite E.
    apply Qlt_le_weak, Qpow2_pos.
  - rewrite rnd_neg by exact L.
    rewrite Qabs_neg in Hk by lra.
    pose proof (rnd_abs_error_below (- q) k ltac:(lra) Hk Hmin) as H.
    apply Qabs_Qle_condition in H. apply Qabs_Qle_condition. lra.
  - rewrite rnd_pos by exact G.
    rewrite Qabs_pos in Hk by lra.
    apply rnd_abs_error_below; assumption.
Qed.

Lemma rnd_error_rel (q : Q) :
  (Qpow2 (emin + 52) <= Qabs q)%Q ->
  (Qabs (rnd q - q) <= Qabs q * Qpow2 (-53))%Q.
Proof.
  intros Hn. pose proof (Qpow2_pos (emin + 52)) as Hp.
  destruct (Qcompare_spec q 0) as [Z|L|G].
  - rewrite Z in Hn. change (Qabs 0) with 0%Q in Hn. lra.
  - rewrite rnd_neg by exact L.
    rewrite Qabs_neg in * by lra.
    pose proof (rnd_abs_error_rel (- q) ltac:(lra) Hn) as H.
    apply Qabs_Qle_condition in H.
    rewrite (Qabs_neg q) by lra.
    apply Qabs_Qle_condition. lra.
  - rewrite rnd_pos by exact G.
    rewrite (Qabs_pos q) in * by lra.
    apply rnd_abs_error_rel; assumption.
Qed.

Lemma rnd_exact (q : Q) (n E : Z) :
  Z.abs n <= 2 ^ 53 -> emin <= E -> (q == inject_Z n * Qpow2 E)%Q ->
  (rnd q == q)%Q.
Proof.
  intros Hn HE Eq. pose proof (Qpow2_pos E) as Hp.
  destruct (Z.lt_trichotomy n 0) as [N|[Z|P]].
  - assert (L : (q < 0)%Q).
    { rewrite Eq. assert (inject_Z n < 0)%Q by (change 0%Q with (inject_Z 0); rewrite <- Zlt_Qlt; exact N).
      assert (0 < - inject_Z n * Qpow2 E)%Q by (apply Qmult_lt_0_compat; lra). lra. }
    rewrite rnd_neg by exact L.
    rewrite (rnd_abs_exact (- q) (- n) E); [ring|lia|exact HE|].
    rewrite Eq, inject_Z_opp. ring.
  - subst n. rewrite rnd_zero; rewrite Eq; change (inject_Z 0) with 0%Q; ring.
  - assert (G : (0 < q)%Q).
    { rewrite Eq. apply Qmult_lt_0_compat; [|exact Hp].
      change 0%Q with (inject_Z 0); rewrite <- Zlt_Qlt; exact P. }
    rewrite rnd_pos by exact G.
    apply (rnd_abs_exact q n E); [lia|exact HE|exact Eq].
Qed.

Lemma rnd_Z (n : Z) : Z.abs n <= 2 ^ 53 -> (rnd (inject_Z n) == inject_Z n)%Q.
Proof.
  intros H. apply (rnd_exact _ n 0); [exact H|unfold emin; lia|].
  change (Qpow2 0) with 1%Q. ring.
Qed.

(** ** The arithmetic operations on finite floats *)

Lemma finite_cases (x : f64) :
  finite x -> (exists s, x = S754_zero s) \/ (exists s m e, x = S754_finite s m e).
Proof.
  destruct x as [s|s| |s m e]; unfold finite; simpl; intros H; try discriminate.
  - left. exists s. reflexivity.
  - right. exists s, m, e. reflexivity.
Qed.

Lemma F2Q_zero (s : bool) : F2Q (S754_zero s) = 0%Q.
Proof. reflexivity. Qed.

Lemma F2Q_opp (x : f64) : (F2Q (opp x) == - F2Q x)%Q.
Proof.
  destruct x as [s|s| |s m e]; try (simpl; reflexivity).
  unfold opp. rewrite !F2Q_finite. destruct s; cbn [negb]; cbv iota; ring.
Qed.

Lemma finite_opp (x : f64) : finite x -> finite (opp x).
Proof. destruct x; unfold finite; simpl; intros H; assumption. Qed.

(** The sum of two finite floats is the rounded exact sum. *)
Lemma add_finite_eq (x y : f64) :
  finite x -> finite y ->
  exists s0, add x y = Q2F s0 (F2Q x + F2Q y).
Proof.
  intros Hx Hy.
  destruct (finite_cases x Hx) as [[s ->]|[s [m [e ->]]]];
  destruct (finite_cases y Hy) as [[t ->]|[t [n [f ->]]]].
  - exists (s && t). unfold add. rewrite Q2F_zero; [reflexivity|].
    rewrite !F2Q_zero. ring.
  - exists false. reflexivity.
  - exists false. reflexivity.
  - exists false. reflexivity.
Qed.

Lemma sub_finite_eq (x y : f64) :
  finite x -> finite y ->
  exists s0, sub x y = Q2F s0 (F2Q x - F2Q y).
Proof.
  intros Hx Hy. unfold sub.
  destruct (add_finite_eq x (opp y) Hx (finite_opp y Hy)) as [s0 E].
  exists s0. rewrite E. apply Q2F_proper. rewrite F2Q_opp. ring.
Qed.

Lemma mul_finite_eq (x y : f64) :
  finite x -> finite y ->
  exists s0, mul x y = Q2F s0 (F2Q x * F2Q y).
Proof.
  intros Hx Hy.
  destruct (finite_cases x Hx) as [[s ->]|[s [m [e ->]]]];
  destruct (finite_cases y Hy) as [[t ->]|[t [n [f ->]]]];
  eexists; reflexivity.
Qed.

Lemma div_finite_eq (x y : f64) :
  finite x -> finite y -> is_zero y = false ->
  exists s0, div x y = Q2F s0 (F2Q x / F2Q y).
Proof.
  intros Hx Hy Hz.
  destruct (finite_cases x Hx) as [[s ->]|[s [m [e ->]]]];
  destruct (finite_cases y Hy) as [[t ->]|[t [n [f ->]]]];
  try discriminate; eexists; reflexivity.
Qed.

(** A rounded rational below [2^1023] in magnitude is a finite float whose
    value is [rnd]. *)
Lemma Q2F_small (s0 : bool) (q : Q) :
  (Qabs q < Qpow2 1023)%Q ->
  finite (Q2F s0 q) /\ (F2Q (Q2F s0 q) == rnd q)%Q.
Proof.
  intros H. pose proof (Q2F_finite s0 q H) as F.
  split; [exact F | apply Q2F_value; exact F].
Qed.

Lemma F2Q_finite_nonzero (s : bool) (m : positive) (e : Z) :
  ~ (F2Q (S754_finite s m e) == 0)%Q.
Proof.
  rewrite F2Q_finite. pose proof (Qpow2_pos e) as Hp.
  assert (Hm : (0 < inject_Z (Zpos m))%Q) by (change 0%Q with (inject_Z 0); rewrite <- Zlt_Qlt; lia).
  assert (0 < inject_Z (Zpos m) * Qpow2 e)%Q by (apply Qmult_lt_0_compat; assumption).
  destruct s; lra.
Qed.

(** Comparison of finite floats is comparison of their values. *)
Lemma compare_finite (x y : f64) :
  finite x -> finite y -> compare x y = Some (F2Q x ?= F2Q y)%Q.
Proof.
  intros Hx Hy.
  destruct (finite_cases x Hx) as [[s ->]|[s [m [e ->]]]];
  destruct (finite_cases y Hy) as [[t ->]|[t [n [f ->]]]]; reflexivity.
Qed.

Lemma leb_finite (x y : f64) :
  finite x -> finite y -> (leb x y = true <-> (F2Q x <= F2Q y)%Q).
Proof.
  intros Hx Hy. unfold leb. rewrite (compare_finite x y Hx Hy).
  destruct (Qcompare_spec (F2Q x) (F2Q y)) as [E|L|G]; split; intros H;
    try reflexivity; try discriminate; lra.
Qed.

Lemma ltb_finite (x y : f64) :
  finite x -> finite y -> (ltb x y = true <-> (F2Q x < F2Q y)%Q).
Proof.
  intros Hx Hy. unfold ltb. rewrite (compare_finite x y Hx Hy).
  destruct (Qcompare_spec (F2Q x) (F2Q y)) as [E|L|G]; split; intros H;
    try reflexivity; try discriminate; lra.
Qed.

Lemma eqb_finite (x y : f64) :
  finite x -> finite y -> (eqb x y = true <-> (F2Q x == F2Q y)%Q).
Proof.
  intros Hx Hy. unfold eqb. rewrite (compare_finite x y Hx Hy).
  destruct (Qcompare_spec (F2Q x) (F2Q y)) as [E|L|G]; split; intros H;
    try reflexivity; try discriminate; lra.
Qed.

(** [0 < x] for a float: positive infinity or a positive value. *)
Lemma ltb_zero_cases (x : f64) :
  ltb pos_zero x = true ->
  x = S754_infinity false \/ (finite x /\ (0 < F2Q x)%Q).
Proof.
  destruct x as [s|s| |s m e]; unfold ltb; cbv beta iota delta [compare pos_zero];
    try discriminate.
  - destruct s; [discriminate|]. left. reflexivity.
  - change (F2Q (S754_zero false)) with 0%Q.
    destruct (Qcompare_spec 0 (F2Q (S754_finite s m e))); intros Hc;
      try discriminate.
    right. split; [reflexivity | assumption].
Qed.

(** ** Well-formed floats *)

Lemma digits2_pos_bound (m : positive) : Zpos m < 2 ^ Zpos (digits2_pos m).
Proof.
  induction m as [m IH|m IH|]; simpl digits2_pos.
  - rewrite Pos2Z.inj_succ, Z.pow_succ_r by lia. lia.
  - rewrite Pos2Z.inj_succ, Z.pow_succ_r by lia. lia.
  - reflexivity.
Qed.

Lemma digits2_pos_lower (m : positive) : 2 ^ (Zpos (digits2_pos m) - 1) <= Zpos m.
Proof.
  induction m as [m IH|m IH|]; simpl digits2_pos.
  - rewrite Pos2Z.inj_succ. replace (Z.succ (Zpos (digits2_pos m)) - 1)
      with (Z.succ (Zpos (digits2_pos m) - 1)) by lia.
    rewrite Z.pow_succ_r by lia. lia.
  - rewrite Pos2Z.inj_succ. replace (Z.succ (Zpos (digits2_pos m)) - 1)
      with (Z.succ (Zpos (digits2_pos m) - 1)) by lia.
    rewrite Z.pow_succ_r by lia. lia.
  - reflexivity.
Qed.

Lemma valid_finite_bounds (s : bool) (m : positive) (e : Z) :
  valid (S754_finite s m e) ->
  emin <= e <= emax - prec /\ Zpos m < 2 ^ 53 /\
  (emin < e -> 2 ^ 52 <= Zpos m).
Proof.
  unfold valid, SpecFloat.valid_binary, bounded, canonical_mantissa, fexp,
    SpecFloat.emin.
  intros H. apply andb_true_iff in H. destruct H as [H1 H2].
  apply Z.eqb_eq in H1. apply Z.leb_le in H2.
  pose proof (digits2_pos_bound m) as B.
  pose proof (digits2_pos_lower m) as L.
  unfold emin, emax, prec in *.
  assert (D : Zpos (digits2_pos m) <= 53) by lia.
  split; [lia|]. split.
  - eapply Z.lt_le_trans; [exact B|]. apply Z.pow_le_mono_r; lia.
  - intros He. assert (Zpos (digits2_pos m) = 53) by lia.
    rewrite H in L. exact L.
Qed.

(** A well-formed non-zero float is at least [2^emin] in magnitude. *)
Lemma valid_finite_lower (s : bool) (m : positive) (e : Z) :
  valid (S754_finite s m e) ->
  (Qpow2 emin <= Qabs (F2Q (S754_finite s m e)))%Q.
Proof.
  intros V. destruct (valid_finite_bounds s m e V) as [[He _] _].
  rewrite F2Q_finite, Qabs_Qmult.
  assert (E1 : (Qabs (if s then -1 else 1) == 1)%Q) by (destruct s; reflexivity).
  rewrite E1, Qmult_1_l.
  pose proof (Qpow2_pos e) as Hp. pose proof (Qpow2_le emin e He) as Hle.
  assert (Hm : (1 <= inject_Z (Zpos m))%Q)
    by (change 1%Q with (inject_Z 1); rewrite <- Zle_Qle; lia).
  rewrite Qabs_pos.
  - apply (Qle_trans _ (1 * Qpow2 e)); [lra|].
    apply Qmult_le_compat_r; [exact Hm | lra].
  - apply Qmult_le_0_compat; lra.
Qed.

(** Rounding does not flush to zero from [2^emin] up. *)
Lemma Q2F_mag_nonzero (s : bool) (a : Q) :
  (Qpow2 emin <= a)%Q -> is_zero (Q2F_mag s a) = false.
Proof.
  intros Ha. pose proof (Qpow2_pos emin) as Hp.
  assert (Hpos : (0 < a)%Q) by lra.
  assert (H1 : 1 <= rne (scaled a)).
  { apply rne_ge. change (inject_Z 1) with 1%Q.
    destruct (Z.eq_dec (round_exp a) emin) as [E|NE].
    - unfold scaled. rewrite E. apply Qle_shift_div_l; [exact Hp|]. lra.
    - pose proof (round_exp_min a).
      pose proof (scaled_lower a Hpos ltac:(lia)) as L.
      assert (1 <= inject_Z (2 ^ 52))%Q by (change 1%Q with (inject_Z 1); rewrite <- Zle_Qle; lia).
      lra. }
  unfold Q2F_mag. fold (scaled a).
  destruct (rne (scaled a) =? 2 ^ 53).
  - change (2 ^ 52) with (Zpos (2 ^ 52)).
    destruct (round_exp a + 1 >? emax - prec); reflexivity.
  - destruct (rne (scaled a)) as [|p|p]; try lia.
    destruct (round_exp a >? emax - prec); reflexivity.
Qed.

Lemma Q2F_nonzero (s0 : bool) (q : Q) :
  (Qpow2 emin <= Qabs q)%Q -> is_zero (Q2F s0 q) = false.
Proof.
  intros H. pose proof (Qpow2_pos emin) as Hp.
  destruct (Qcompare_spec q 0) as [Z|L|G].
  - rewrite Z in H. change (Qabs 0) with 0%Q in H. lra.
  - rewrite Q2F_neg by exact L. apply Q2F_mag_nonzero; exact H.
  - rewrite Q2F_pos by exact G. apply Q2F_mag_nonzero; exact H.
Qed.

(** ** The overflow threshold *)

Lemma valid_finite_max (x : f64) :
  valid x -> finite x -> (Qabs (F2Q x) <= max_float)%Q.
Proof.
  intros V F. unfold max_float.
  destruct (finite_cases x F) as [[s ->]|[s [m [e ->]]]].
  - rewrite F2Q_zero. change (Qabs 0) with 0%Q.
    apply Qmult_le_0_compat; [discriminate | apply Qlt_le_weak, Qpow2_pos].
  - destruct (valid_finite_bounds s m e V) as [[He1 He2] [Hm _]].
    rewrite F2Q_finite, Qabs_Qmult.
    assert (E1 : (Qabs (if s then -1 else 1) == 1)%Q) by (destruct s; reflexivity).
    rewrite E1, Qmult_1_l.
    pose proof (Qpow2_pos e) as Hp.
    assert (Hm0 : (0 <= inject_Z (Zpos m))%Q)
      by (change 0%Q with (inject_Z 0); rewrite <- Zle_Qle; lia).
    rewrite Qabs_pos by (apply Qmult_le_0_compat; lra).
    apply (Qle_trans _ (inject_Z (2 ^ 53 - 1) * Qpow2 e)).
    + apply Qmult_le_compat_r; [|lra]. rewrite <- Zle_Qle. lia.
    + apply Qmult_le_l; [reflexivity|]. apply Qpow2_le.
      unfold emax, prec in He2. lia.
Qed.

(** Rounding stays finite strictly below [max_float] plus half a unit in
    the last place. *)
Lemma Q2F_mag_finite_sharp (s : bool) (a : Q) :
  (0 < a)%Q -> (a < max_float + Qpow2 970)%Q ->
  is_finite (Q2F_mag s a) = true.
Proof.
  intros Ha Hb. unfold max_float in Hb.
  assert (H1024 : (a < Qpow2 1024)%Q).
  { eapply Qlt_le_trans; [exact Hb|]. vm_compute. intros H; discriminate. }
  assert (He : round_exp a <= 971).
  { destruct (Qlog2_spec a Ha) as [L _].
    assert (Qlog2 a < 1024) by (apply Qpow2_lt_inv; lra).
    unfold round_exp, emin. lia. }
  pose proof (rne_scaled_bounds a Ha) as [B0 B1].
  unfold Q2F_mag. fold (scaled a).
  destruct (Z.eq_dec (round_exp a) 971) as [E971|NE].
  - (* top binade: the significand stays below 2^53 *)
    assert (Hs : (scaled a < inject_Z (2 ^ 53 - 1) + (1 # 2))%Q).
    { unfold scaled. rewrite E971.
      apply Qlt_shift_div_r; [apply Qpow2_pos|].
      assert (X : ((inject_Z (2 ^ 53 - 1) + (1 # 2)) * Qpow2 971
                   == inject_Z (2 ^ 53 - 1) * Qpow2 971 + Qpow2 970)%Q).
      { vm_compute. reflexivity. }
      rewrite X. exact Hb. }
    assert (Hm : rne (scaled a) <= 2 ^ 53 - 1).
    { destruct (rne_cases (scaled a)) as [[-> H]|[-> H]].
      - assert (F : Qfloor (scaled a) <= 2 ^ 53 - 1).
        { destruct (Qfloor_bounds (scaled a)) as [F1 _].
          assert (X : (inject_Z (Qfloor (scaled a)) < inject_Z (2 ^ 53 - 1 + 1))%Q).
          { rewrite inject_Z_plus. change (inject_Z 1) with 1%Q. lra. }
          rewrite <- Zlt_Qlt in X. lia. }
        exact F.
      - assert (X : (inject_Z (Qfloor (scaled a)) < inject_Z (2 ^ 53 - 1))%Q) by lra.
        rewrite <- Zlt_Qlt in X. lia. }
    destruct (Z.eqb_spec (rne (scaled a)) (2 ^ 53)) as [E|NE2]; [lia|].
    destruct (rne (scaled a)) as [|p|p]; try reflexivity.
    rewrite E971. reflexivity.
  - destruct (rne (scaled a) =? 2 ^ 53).
    + change (2 ^ 52) with (Zpos (2 ^ 52)).
      destruct (Z.gtb_spec (round_exp a + 1) (emax - prec)) as [G|G];
        [unfold emax, prec in G; lia | reflexivity].
    + destruct (rne (scaled a)); try reflexivity.
      destruct (Z.gtb_spec (round_exp a) (emax - prec)) as [G|G];
        [unfold emax, prec in G; lia | reflexivity].
Qed.

Lemma Q2F_finite_sharp (s0 : bool) (q : Q) :
  (Qabs q < max_float + Qpow2 970)%Q -> finite (Q2F s0 q).
Proof.
  intros H. unfold finite. destruct (Qcompare_spec q 0) as [Z|L|G].
  - rewrite Q2F_zero by exact Z. reflexivity.
  - rewrite Q2F_neg by exact L. apply Q2F_mag_finite_sharp; [|exact H].
    apply Qabs_pos_of_nonzero. lra.
  - rewrite Q2F_pos by exact G. apply Q2F_mag_finite_sharp; [|exact H].
    apply Qabs_pos_of_nonzero. lra.
Qed.

Lemma Q2F_sharp (s0 : bool) (q : Q) :
  (Qabs q < max_float + Qpow2 970)%Q ->
  finite (Q2F s0 q) /\ (F2Q (Q2F s0 q) == rnd q)%Q.
Proof.
  intros H. pose proof (Q2F_finite_sharp s0 q H) as F.
  split; [exact F | apply Q2F_value; exact F].
Qed.

(** ** The results of rounding are well-formed floats *)

Lemma digits2_pos_53 (p : positive) :
  2 ^ 52 <= Zpos p < 2 ^ 53 -> Zpos (digits2_pos p) = 53.
Proof.
  intros [L U].
  pose proof (digits2_pos_bound p) as B.
  pose proof (digits2_pos_lower p) as W.
  set (d := Zpos (digits2_pos p)) in *.
  assert (Hd : 0 < d) by (unfold d; lia).
  assert (A : 52 < d).
  { apply (Z.pow_lt_mono_r_iff 2); lia. }
  assert (C : d - 1 < 53).
  { apply (Z.pow_lt_mono_r_iff 2); lia. }
  lia.
Qed.

Lemma digits2_pos_le (p : positive) (k : Z) :
  0 <= k -> Zpos p < 2 ^ k -> Zpos (digits2_pos p) <= k.
Proof.
  intros Hk U. pose proof (digits2_pos_lower p) as W.
  set (d := Zpos (digits2_pos p)) in *.
  assert (Hd : 0 < d) by (unfold d; lia).
  assert (C : d - 1 < k).
  { apply (Z.pow_lt_mono_r_iff 2); lia. }
  lia.
Qed.

Lemma Q2F_mag_valid (s : bool) (a : Q) : (0 < a)%Q -> valid (Q2F_mag s a).
Proof.
  intros Ha. unfold valid, Q2F_mag. fold (scaled a).
  pose proof (rne_scaled_bounds a Ha) as [B0 B1].
  pose proof (round_exp_min a) as Hmin.
  assert (Hlow : emin < round_exp a -> 2 ^ 52 <= rne (scaled a)).
  { intros H. apply rne_ge. apply scaled_lower; assumption. }
  destruct (Z.eqb_spec (rne (scaled a)) (2 ^ 53)) as [E|NE].
  - change (2 ^ 52) with (Zpos (2 ^ 52)).
    destruct (Z.gtb_spec (round_exp a + 1) (emax - prec)) as [G|G]; [reflexivity|].
    unfold SpecFloat.valid_binary, bounded, canonical_mantissa, fexp, SpecFloat.emin.
    apply andb_true_iff. split; [|apply Z.leb_le; exact G].
    apply Z.eqb_eq. change (Zpos (digits2_pos (2 ^ 52))) with 53.
    unfold emin, emax, prec in *. lia.
  - destruct (rne (scaled a)) as [|p|p] eqn:Em; try reflexivity.
    destruct (Z.gtb_spec (round_exp a) (emax - prec)) as [G|G]; [reflexivity|].
    unfold SpecFloat.valid_binary, bounded, canonical_mantissa, fexp, SpecFloat.emin.
    apply andb_true_iff. split; [|apply Z.leb_le; exact G].
    apply Z.eqb_eq.
    destruct (Z.eq_dec (round_exp a) emin) as [Ee|Ne].
    + pose proof (digits2_pos_le p 53 ltac:(lia) ltac:(lia)).
      unfold emin, emax, prec in *. lia.
    + rewrite (digits2_pos_53 p) by (split; [apply Hlow; lia | lia]).
      unfold emin, emax, prec in *. lia.
Qed.

Lemma Q2F_valid (s0 : bool) (q : Q) : valid (Q2F s0 q).
Proof.
  destruct (Qcompare_spec q 0) as [Z|L|G].
  - rewrite Q2F_zero by exact Z. reflexivity.
  - rewrite Q2F_neg by exact L. apply Q2F_mag_valid.
    apply Qabs_pos_of_nonzero. lra.
  - rewrite Q2F_pos by exact G. apply Q2F_mag_valid.
    apply Qabs_pos_of_nonzero. lra.
Qed.

Lemma valid_opp (x : f64) : valid x -> valid (opp x).
Proof. destruct x; unfold valid; simpl; intros H; exact H. Qed.

Lemma add_valid (x y : f64) : valid x -> valid y -> valid (add x y).
Proof.
  intros Vx Vy.
  destruct x as [s|s| |s m e], y as [t|t| |t n f]; try reflexivity;
    try exact Vx; try exact Vy; try apply Q2F_valid.
  unfold add. destruct (Bool.eqb s t); reflexivity.
Qed.

Lemma sub_valid (x y : f64) : valid x -> valid y -> valid (sub x y).
Proof. intros Vx Vy. apply add_valid; [exact Vx | apply valid_opp; exact Vy]. Qed.

(** Integers up to [2^53] in magnitude are floats. *)
Lemma of_Z_exact (n : Z) :
  Z.abs n <= 2 ^ 53 -> finite (of_Z n) /\ (F2Q (of_Z n) == inject_Z n)%Q.
Proof.
  intros H. unfold of_Z.
  assert (B : (Qabs (inject_Z n) < Qpow2 1023)%Q).
  { apply (Qle_lt_trans _ (inject_Z (2 ^ 53))).
    - change (Qabs (inject_Z n)) with (inject_Z (Z.abs n)).
      rewrite <- Zle_Qle. exact H.
    - vm_compute. reflexivity. }
  destruct (Q2F_small false _ B) as [F V].
  split; [exact F|]. rewrite V. apply rnd_Z. exact H.
Qed.

Lemma float_of_int_small (n : Z) :
  Z.abs n <= 2 ^ 53 -> float_of_int n = Ok (of_Z n).
Proof.
  intros H. destruct (of_Z_exact n H) as [F _]. unfold float_of_int.
  destruct (of_Z n); try discriminate; reflexivity.
Qed.

Lemma is_zero_false_of_value (x : f64) : ~ (F2Q x == 0)%Q -> is_zero x = false.
Proof.
  destruct x; try reflexivity. intros H. exfalso. apply H. reflexivity.
Qed.

(** ** Operations whose exact result is a float *)

Lemma pow2_53_below_1023 : (inject_Z (2 ^ 53) < Qpow2 1023)%Q.
Proof. vm_compute. reflexivity. Qed.

Lemma Qabs_inject_Z (n : Z) : Qabs (inject_Z n) = inject_Z (Z.abs n).
Proof. reflexivity. Qed.

Lemma inject_Z_abs_le (n k : Z) :
  Z.abs n <= k -> (Qabs (inject_Z n) <= inject_Z k)%Q.
Proof. intros H. rewrite Qabs_inject_Z, <- Zle_Qle. exact H. Qed.

(** Rounding a representable value of magnitude at most [2^53 * 2^E],
    given as [n * 2^E]. *)
Lemma Q2F_exact (s0 : bool) (q : Q) (n E : Z) :
  Z.abs n <= 2 ^ 53 -> emin <= E -> (q == inject_Z n * Qpow2 E)%Q ->
  (Qabs q < Qpow2 1023)%Q ->
  finite (Q2F s0 q) /\ (F2Q (Q2F s0 q) == q)%Q.
Proof.
  intros Hn HE Eq B. destruct (Q2F_small s0 q B) as [F V].
  split; [exact F|]. rewrite V. apply (rnd_exact q n E); assumption.
Qed.

Lemma Q2F_exact_Z (s0 : bool) (q : Q) (n : Z) :
  Z.abs n <= 2 ^ 53 -> (q == inject_Z n)%Q ->
  finite (Q2F s0 q) /\ (F2Q (Q2F s0 q) == inject_Z n)%Q.
Proof.
  intros Hn Eq.
  assert (B : (Qabs q < Qpow2 1023)%Q).
  { rewrite Eq. eapply Qle_lt_trans; [apply inject_Z_abs_le; exact Hn|].
    exact pow2_53_below_1023. }
  destruct (Q2F_exact s0 q n 0 Hn ltac:(unfold emin; lia)) as [F V];
    [rewrite Eq; change (Qpow2 0) with 1%Q; ring | exact B |].
  split; [exact F|]. rewrite V. exact Eq.
Qed.

Lemma sub_exact_Z (x y : f64) (n : Z) :
  finite x -> finite y -> Z.abs n <= 2 ^ 53 ->
  (F2Q x - F2Q y == inject_Z n)%Q ->
  finite (sub x y) /\ (F2Q (sub x y) == inject_Z n)%Q.
Proof.
  intros Fx Fy Hn E. destruct (sub_finite_eq x y Fx Fy) as [s0 ->].
  apply Q2F_exact_Z; assumption.
Qed.

Lemma add_exact_Z (x y : f64) (n : Z) :
  finite x -> finite y -> Z.abs n <= 2 ^ 53 ->
  (F2Q x + F2Q y == inject_Z n)%Q ->
  finite (add x y) /\ (F2Q (add x y) == inject_Z n)%Q.
Proof.
  intros Fx Fy Hn E. destruct (add_finite_eq x y Fx Fy) as [s0 ->].
  apply Q2F_exact_Z; assumption.
Qed.

Lemma div_exact_Z (x y : f64) (n : Z) :
  finite x -> finite y -> is_zero y = false -> Z.abs n <= 2 ^ 53 ->
  (F2Q x / F2Q y == inject_Z n)%Q ->
  finite (div x y) /\ (F2Q (div x y) == inject_Z n)%Q.
Proof.
  intros Fx Fy Zy Hn E. destruct (div_finite_eq x y Fx Fy Zy) as [s0 ->].
  apply Q2F_exact_Z; assumption.
Qed.

(** The value of a well-formed finite float as [n * 2^e]. *)
Lemma valid_finite_repr (x : f64) :
  valid x -> finite x ->
  exists n e, Z.abs n < 2 ^ 53 /\ emin <= e /\
              (F2Q x == inject_Z n * Qpow2 e)%Q.
Proof.
  intros V F. destruct (finite_cases x F) as [[s ->]|[s [m [e ->]]]].
  - exists 0, 0. split; [reflexivity|]. split; [unfold emin; lia|].
    rewrite F2Q_zero. change (inject_Z 0) with 0%Q. ring.
  - destruct (valid_finite_bounds s m e V) as [[He _] [Hm _]].
    exists (if s then Zneg m else Zpos m), e.
    split; [destruct s; simpl Z.abs; exact Hm|]. split; [exact He|].
    reflexivity.
Qed.

(** Subtracting an integer from a float, when the result is not larger in
    magnitude and all is below [2^53], is exact. *)
Lemma representable_minus_int (X : Q) (n e k : Z) :
  Z.abs n <= 2 ^ 53 -> emin <= e -> (X == inject_Z n * Qpow2 e)%Q ->
  (Qabs (X - inject_Z k) <= Qabs X)%Q -> (Qabs X <= inject_Z (2 ^ 53))%Q ->
  exists n' e', Z.abs n' <= 2 ^ 53 /\ emin <= e' /\
                (X - inject_Z k == inject_Z n' * Qpow2 e')%Q.
Proof.
  intros Hn He EX Hle HX.
  destruct (Z_lt_le_dec e 0) as [Neg|Pos].
  - (* a negative exponent: the difference has the same exponent *)
    exists (n - k * 2 ^ (- e)), e.
    assert (Hp : (0 < Qpow2 e)%Q) by apply Qpow2_pos.
    assert (Ed : (X - inject_Z k
                  == inject_Z (n - k * 2 ^ (- e)) * Qpow2 e)%Q).
    { rewrite EX. unfold Z.sub. rewrite inject_Z_plus, inject_Z_opp, inject_Z_mult.
      rewrite <- (Qpow2_inject (- e)) by lia. rewrite Qpow2_opp.
      field. lra. }
    split; [|split; [exact He | exact Ed]].
    (* |n'| * 2^e <= |n| * 2^e *)
    rewrite Ed, EX in Hle. rewrite !Qabs_Qmult in Hle.
    rewrite (Qabs_pos (Qpow2 e)) in Hle by lra.
    apply Qmult_lt_0_le_reg_r in Hle; [|exact Hp].
    rewrite !Qabs_inject_Z, <- Zle_Qle in Hle. lia.
  - (* a non-negative exponent: everything is an integer *)
    exists (n * 2 ^ e - k), 0.
    assert (Ed : (X - inject_Z k == inject_Z (n * 2 ^ e - k))%Q).
    { rewrite EX. unfold Z.sub. rewrite inject_Z_plus, inject_Z_opp, inject_Z_mult.
      rewrite <- (Qpow2_inject e) by lia. ring. }
    split; [|split; [unfold emin; lia|]].
    + assert (H : (Qabs (inject_Z (n * 2 ^ e - k)) <= inject_Z (2 ^ 53))%Q).
      { rewrite <- Ed. eapply Qle_trans; [exact Hle | exact HX]. }
      rewrite Qabs_inject_Z, <- Zle_Qle in H. exact H.
    + rewrite Ed. change (Qpow2 0) with 1%Q. ring.
Qed.

(** ** Floor division by 100 *)

Lemma F2Q_f100 : (F2Q f100 == 100)%Q.
Proof. vm_compute. reflexivity. Qed.

Lemma F2Q_f1 : (F2Q f1 == 1)%Q.
Proof. vm_compute. reflexivity. Qed.

Lemma F2Q_f_half : (F2Q f_half == 1 # 2)%Q.
Proof. vm_compute. reflexivity. Qed.

Lemma Qceiling_proper (x y : Q) : (x == y)%Q -> Qceiling x = Qceiling y.
Proof. intros E. rewrite E. reflexivity. Qed.

Lemma Qle_bool_proper (a x y : Q) : (x == y)%Q -> Qle_bool a x = Qle_bool a y.
Proof.
  intros E. destruct (Qle_bool a x) eqn:H1, (Qle_bool a y) eqn:H2; try reflexivity.
  - apply Qle_bool_iff in H1. rewrite E in H1. apply Qle_bool_iff in H1. congruence.
  - apply Qle_bool_iff in H2. rewrite <- E in H2. apply Qle_bool_iff in H2. congruence.
Qed.

Lemma Qtrunc_proper (x y : Q) : (x == y)%Q -> Qtrunc x = Qtrunc y.
Proof.
  intros E. unfold Qtrunc. rewrite (Qle_bool_proper 0 x y E).
  rewrite (Qfloor_proper x y E), (Qceiling_proper x y E). reflexivity.
Qed.

Lemma Qtrunc_nonneg (x : Q) : (0 <= x)%Q -> Qtrunc x = Qfloor x.
Proof.
  intros H. unfold Qtrunc. apply Qle_bool_iff in H. rewrite H. reflexivity.
Qed.

Lemma Qtrunc_neg (x : Q) : (x < 0)%Q -> Qtrunc x = Qceiling x.
Proof.
  intros H. unfold Qtrunc. destruct (Qle_bool 0 x) eqn:E; [|reflexivity].
  apply Qle_bool_iff in E. lra.
Qed.

Lemma Qceiling_bounds (y : Q) :
  (inject_Z (Qceiling y) - 1 < y <= inject_Z (Qceiling y))%Q.
Proof.
  split; [|apply Qle_ceiling].
  pose proof (Qceiling_lt y) as H. unfold Z.sub in H.
  rewrite inject_Z_plus in H. exact H.
Qed.

(** Truncated division by 100: quotient [t] and remainder [X - 100 t]. *)
Lemma trunc_div_100 (X : Q) :
  let t := Qtrunc (X / 100) in
  let r := (X - inject_Z t * 100)%Q in
  ((0 <= X)%Q -> 0 <= t /\ (0 <= r < 100)%Q /\ (r <= X)%Q) /\
  ((X < 0)%Q -> t <= 0 /\ (-100 < r <= 0)%Q /\ (X <= r)%Q).
Proof.
  intros t r. split; intros H.
  - assert (HD : (0 <= X / 100)%Q) by (apply Qle_shift_div_l; lra).
    unfold r, t. rewrite (Qtrunc_nonneg _ HD).
    destruct (Qfloor_bounds (X / 100)) as [F1 F2].
    assert (T0 : 0 <= Qfloor (X / 100)).
    { rewrite <- (Qfloor_Z 0). apply Qfloor_resp_le. exact HD. }
    assert (T0Q : (0 <= inject_Z (Qfloor (X / 100)))%Q)
      by (change 0%Q with (inject_Z 0); rewrite <- Zle_Qle; exact T0).
    assert (EX : (X == X / 100 * 100)%Q) by (field).
    split; [exact T0|]. clear t r. set (D := (X / 100)%Q) in *.
    repeat split; lra.
  - assert (HD : (X / 100 < 0)%Q) by (apply Qlt_shift_div_r; lra).
    unfold r, t. rewrite (Qtrunc_neg _ HD).
    destruct (Qceiling_bounds (X / 100)) as [C1 C2].
    assert (T0 : Qceiling (X / 100) <= 0).
    { rewrite <- (Qceiling_Z 0). apply Qceiling_resp_le.
      change (inject_Z 0) with 0%Q. lra. }
    assert (T0Q : (inject_Z (Qceiling (X / 100)) <= 0)%Q)
      by (change 0%Q with (inject_Z 0); rewrite <- Zle_Qle; exact T0).
    assert (EX : (X == X / 100 * 100)%Q) by (field).
    split; [exact T0|]. clear t r. set (D := (X / 100)%Q) in *.
    repeat split; lra.
Qed.

Lemma trunc_div_100_abs (X : Q) :
  let t := Qtrunc (X / 100) in
  (Qabs (X - inject_Z (t * 100)) <= Qabs X)%Q /\
  (Qabs (inject_Z (t * 100)) <= Qabs X)%Q /\
  (Qabs (inject_Z t) <= Qabs X)%Q.
Proof.
  intros t. destruct (trunc_div_100 X) as [P N]. fold t in P, N.
  rewrite inject_Z_mult. change (inject_Z 100) with 100%Q.
  destruct (Qlt_le_dec X 0) as [L|G].
  - destruct (N L) as [T0 [[R1 R2] R3]].
    assert (T0Q : (inject_Z t <= 0)%Q)
      by (change 0%Q with (inject_Z 0); rewrite <- Zle_Qle; exact T0).
    rewrite (Qabs_neg X) by lra.
    repeat split; apply Qabs_Qle_condition; lra.
  - destruct (P G) as [T0 [[R1 R2] R3]].
    assert (T0Q : (0 <= inject_Z t)%Q)
      by (change 0%Q with (inject_Z 0); rewrite <- Zle_Qle; exact T0).
    rewrite (Qabs_pos X) by lra.
    repeat split; apply Qabs_Qle_condition; lra.
Qed.

Lemma f100_shape : exists m e, f100 = S754_finite false m e.
Proof. eexists. eexists. vm_compute. reflexivity. Qed.

(** [fmod(x, 100)] is exact. *)
Lemma fmod_100 (x : f64) :
  valid x -> finite x -> (Qabs (F2Q x) <= inject_Z (2 ^ 52))%Q ->
  finite (fmod x f100) /\
  (F2Q (fmod x f100)
   == F2Q x - inject_Z (Qtrunc (F2Q x / 100) * 100))%Q.
Proof.
  intros V F B. destruct f100_shape as [m100 [e100 E100]].
  destruct (finite_cases x F) as [[s ->]|[s [m [e Ex]]]].
  - rewrite E100. cbn [fmod]. split; [reflexivity|].
    rewrite F2Q_zero.
    assert (E : Qtrunc (0 / 100) = 0) by reflexivity.
    rewrite E. reflexivity.
  - assert (Ef : fmod x f100
                 = Q2F (sign_bit x)
                       (F2Q x - inject_Z (Qtrunc (F2Q x / F2Q f100)) * F2Q f100)).
    { rewrite E100, Ex. reflexivity. }
    rewrite Ef.
    assert (Et : Qtrunc (F2Q x / F2Q f100) = Qtrunc (F2Q x / 100)).
    { apply Qtrunc_proper. rewrite F2Q_f100. reflexivity. }
    rewrite Et. set (t := Qtrunc (F2Q x / 100)).
    assert (Eq : (F2Q x - inject_Z t * F2Q f100
                  == F2Q x - inject_Z (t * 100))%Q).
    { rewrite F2Q_f100, inject_Z_mult. reflexivity. }
    rewrite (Q2F_proper _ _ _ Eq).
    destruct (trunc_div_100_abs (F2Q x)) as [A1 [A2 A3]]. fold t in A1, A2, A3.
    destruct (valid_finite_repr x V F) as [n [e' [Hn [He' EX]]]].
    destruct (representable_minus_int (F2Q x) n e' (t * 100)
                ltac:(lia) He' EX A1) as [n' [e'' [Hn' [He'' ER]]]].
    { eapply Qle_trans; [exact B|]. rewrite <- Zle_Qle. lia. }
    apply (Q2F_exact _ _ n' e'' Hn' He'' ER).
    eapply Qle_lt_trans; [exact A1|]. eapply Qle_lt_trans; [exact B|].
    vm_compute. reflexivity.
Qed.

Lemma finite_copysign_zero (y : f64) :
  finite (copysign pos_zero y) /\ (F2Q (copysign pos_zero y) == 0)%Q.
Proof.
  unfold copysign. destruct (Bool.eqb (sign_bit pos_zero) (sign_bit y));
    split; reflexivity.
Qed.

(** [floor] of a float whose value is an integer below [2^53]. *)
Lemma floor_of_integer (x : f64) (d : Z) :
  finite x -> Z.abs d <= 2 ^ 53 -> (F2Q x == inject_Z d)%Q ->
  finite (floor x) /\ (F2Q (floor x) == inject_Z d)%Q.
Proof.
  intros F Hd E. destruct (finite_cases x F) as [[s ->]|[s [m [e ->]]]].
  - split; [reflexivity | exact E].
  - cbn [floor].
    assert (Ef : Qfloor (F2Q (S754_finite s m e)) = d).
    { rewrite (Qfloor_proper _ _ E). apply Qfloor_Z. }
    rewrite Ef. apply Q2F_exact_Z; [exact Hd | reflexivity].
Qed.

Lemma inject_Z_pred (t : Z) : (inject_Z (t - 1) == inject_Z t - 1)%Q.
Proof.
  unfold Z.sub. rewrite inject_Z_plus, inject_Z_opp. reflexivity.
Qed.

Lemma is_zero_f100 : is_zero f100 = false.
Proof. reflexivity. Qed.

Lemma finite_f100 : finite f100.
Proof. reflexivity. Qed.

Lemma finite_f1 : finite f1.
Proof. reflexivity. Qed.

Lemma ltb_f100_zero : ltb f100 pos_zero = false.
Proof. reflexivity. Qed.

Lemma eqb_zero_value (x : f64) :
  finite x -> (eqb x pos_zero = true <-> (F2Q x == 0)%Q).
Proof. intros F. apply (eqb_finite x pos_zero F eq_refl). Qed.

Lemma ltb_zero_value (x : f64) :
  finite x -> (ltb x pos_zero = true <-> (F2Q x < 0)%Q).
Proof. intros F. apply (ltb_finite x pos_zero F eq_refl). Qed.

(** The last step of [float_floor_div], on a quotient that is already an
    integer. *)
Lemma floordiv_snap (dv x : f64) (d : Z) :
  finite dv -> Z.abs d <= 2 ^ 53 -> (F2Q dv == inject_Z d)%Q ->
  exists q,
    (if eqb dv pos_zero then Ok (copysign pos_zero (div x f100))
     else Ok (if ltb f_half (sub dv (floor dv))
              then add (floor dv) f1 else floor dv)) = Ok q /\
    finite q /\ (F2Q q == inject_Z d)%Q.
Proof.
  intros F Hd E.
  destruct (eqb dv pos_zero) eqn:Ez.
  - apply (eqb_zero_value dv F) in Ez.
    destruct (finite_copysign_zero (div x f100)) as [Fc Vc].
    eexists. split; [reflexivity|]. split; [exact Fc|].
    rewrite Vc, <- E, Ez. reflexivity.
  - destruct (floor_of_integer dv d F Hd E) as [Ff Vf].
    destruct (sub_exact_Z dv (floor dv) 0 F Ff ltac:(lia)) as [Fs Vs].
    { rewrite E, Vf. change (inject_Z 0) with 0%Q. ring. }
    assert (Hl : ltb f_half (sub dv (floor dv)) = false).
    { destruct (ltb f_half (sub dv (floor dv))) eqn:El; [|reflexivity].
      apply (ltb_finite f_half _ eq_refl Fs) in El.
      rewrite Vs, F2Q_f_half in El. change (inject_Z 0) with 0%Q in El. lra. }
    rewrite Hl. eexists. split; [reflexivity|]. split; assumption.
Qed.

(** [x // 100] on a float below [2^52] in magnitude is the floor of the
    exact quotient. *)
Lemma floordiv_100 (x : f64) :
  valid x -> finite x -> (Qabs (F2Q x) <= inject_Z (2 ^ 52))%Q ->
  exists q,
    float_floordiv x f100 = Ok q /\ finite q /\
    (F2Q q == inject_Z (Qfloor (F2Q x / 100)))%Q.
Proof.
  intros V F B.
  destruct (fmod_100 x V F B) as [Fm Vm].
  destruct (trunc_div_100 (F2Q x)) as [P N].
  destruct (trunc_div_100_abs (F2Q x)) as [A1 [A2 A3]].
  set (t := Qtrunc (F2Q x / 100)) in *.
  set (md := fmod x f100) in *.
  assert (Ht : Z.abs t <= 2 ^ 52).
  { assert (H : (Qabs (inject_Z t) <= inject_Z (2 ^ 52))%Q)
      by (eapply Qle_trans; [exact A3 | exact B]).
    rewrite Qabs_inject_Z, <- Zle_Qle in H. exact H. }
  assert (Ht100 : Z.abs (t * 100) <= 2 ^ 52).
  { assert (H : (Qabs (inject_Z (t * 100)) <= inject_Z (2 ^ 52))%Q)
      by (eapply Qle_trans; [exact A2 | exact B]).
    rewrite Qabs_inject_Z, <- Zle_Qle in H. exact H. }
  (* x - md = 100 t, exactly *)
  destruct (sub_exact_Z x md (t * 100) F Fm ltac:(lia)) as [Fs Vs].
  { rewrite Vm. ring. }
  (* (x - md) / 100 = t, exactly *)
  destruct (div_exact_Z (sub x md) f100 t Fs finite_f100 is_zero_f100 ltac:(lia))
    as [Fd Vd].
  { rewrite Vs, F2Q_f100, inject_Z_mult. change (inject_Z 100) with 100%Q.
    field. }
  (* the adjusted quotient is the floor *)
  set (fl0 := Qfloor (F2Q x / 100)).
  assert (EX : (F2Q x == F2Q x / 100 * 100)%Q) by field.
  assert (Hadj : exists dv,
            (if eqb md pos_zero then div (sub x md) f100
             else if Bool.eqb (ltb f100 pos_zero) (ltb md pos_zero)
                  then div (sub x md) f100
                  else sub (div (sub x md) f100) f1) = dv /\
            finite dv /\ (F2Q dv == inject_Z fl0)%Q).
  { rewrite ltb_f100_zero.
    rewrite inject_Z_mult in Vm. change (inject_Z 100) with 100%Q in Vm.
    destruct (eqb md pos_zero) eqn:Ez.
    - apply (eqb_zero_value md Fm) in Ez.
      eexists. split; [reflexivity|]. split; [exact Fd|].
      rewrite Vd. unfold fl0.
      assert (E : (F2Q x / 100 == inject_Z t)%Q).
      { rewrite Ez in Vm. set (D := (F2Q x / 100)%Q) in *. lra. }
      rewrite (Qfloor_proper _ _ E), Qfloor_Z. reflexivity.
    - assert (Nz : ~ (F2Q md == 0)%Q).
      { intros C. apply (eqb_zero_value md Fm) in C. congruence. }
      destruct (ltb md pos_zero) eqn:El.
      + (* a negative remainder: one less *)
        apply (ltb_zero_value md Fm) in El.
        cbn [Bool.eqb].
        destruct (sub_exact_Z (div (sub x md) f100) f1 (t - 1) Fd finite_f1
                    ltac:(lia)) as [Fa Va].
        { rewrite Vd, F2Q_f1, inject_Z_pred. reflexivity. }
        eexists. split; [reflexivity|]. split; [exact Fa|].
        rewrite Va. unfold fl0. f_equiv. symmetry.
        assert (Xneg : (F2Q x < 0)%Q).
        { destruct (Qlt_le_dec (F2Q x) 0) as [L|G]; [exact L|].
          destruct (P G) as [_ [[R1 _] _]]. rewrite <- Vm in R1. lra. }
        destruct (N Xneg) as [_ [[R1 R2] _]]. rewrite <- Vm in R1, R2.
        apply Qfloor_unique.
        * rewrite inject_Z_pred. set (D := (F2Q x / 100)%Q) in *. lra.
        * rewrite inject_Z_pred. set (D := (F2Q x / 100)%Q) in *. lra.
      + (* a positive remainder *)
        cbn [Bool.eqb].
        assert (Pos : (0 < F2Q md)%Q).
        { destruct (Qlt_le_dec (F2Q md) 0) as [L|G].
          - apply (ltb_zero_value md Fm) in L. congruence.
          - destruct (Qeq_dec (F2Q md) 0); [contradiction | lra]. }
        eexists. split; [reflexivity|]. split; [exact Fd|].
        rewrite Vd. unfold fl0. f_equiv. symmetry.
        assert (Xpos : (0 <= F2Q x)%Q).
        { destruct (Qlt_le_dec (F2Q x) 0) as [L|G]; [|exact G].
          destruct (N L) as [_ [[_ R2] _]]. rewrite <- Vm in R2. lra. }
        destruct (P Xpos) as [_ [[R1 R2] _]]. rewrite <- Vm in R1, R2.
        apply Qfloor_unique; set (D := (F2Q x / 100)%Q) in *; lra. }
  destruct Hadj as [dv [Edv [Fdv Vdv]]].
  assert (Hfl : Z.abs fl0 <= 2 ^ 53).
  { unfold fl0.
    destruct (Qfloor_bounds (F2Q x / 100)) as [F1 F2].
    assert (Bx := B). apply Qabs_Qle_condition in Bx.
    change (inject_Z (2 ^ 52)) with 4503599627370496%Q in Bx.
    assert (L1 : (inject_Z (Qfloor (F2Q x / 100)) <= inject_Z (2 ^ 52))%Q).
    { change (inject_Z (2 ^ 52)) with 4503599627370496%Q.
      set (D := (F2Q x / 100)%Q) in *. lra. }
    assert (L2 : (inject_Z (- 2 ^ 52 - 1) <= inject_Z (Qfloor (F2Q x / 100)))%Q).
    { change (inject_Z (- 2 ^ 52 - 1)) with (-4503599627370497)%Q.
      set (D := (F2Q x / 100)%Q) in *. lra. }
    rewrite <- Zle_Qle in L1, L2. lia. }
  destruct (floordiv_snap dv x fl0 Fdv Hfl Vdv) as [q [Eq [Fq Vq]]].
  exists q. split; [|split; assumption].
  unfold float_floordiv. rewrite is_zero_f100. fold md.
  rewrite Edv. exact Eq.
Qed.

(** ** Decimal digits *)

Lemma digit_char_cases (d : Z) :
  0 <= d <= 9 ->
  d = 0 \/ d = 1 \/ d = 2 \/ d = 3 \/ d = 4 \/ d = 5 \/ d = 6 \/ d = 7 \/
  d = 8 \/ d = 9.
Proof. lia. Qed.

Lemma digit_char_is_digit (d : Z) : 0 <= d <= 9 -> is_digit (digit_char d) = true.
Proof.
  intros H. destruct (digit_char_cases d H) as [E|[E|[E|[E|[E|[E|[E|[E|[E|E]]]]]]]]];
    subst; reflexivity.
Qed.

Lemma digit_val_digit_char (d : Z) : 0 <= d <= 9 -> digit_val (digit_char d) = d.
Proof.
  intros H. destruct (digit_char_cases d H) as [E|[E|[E|[E|[E|[E|[E|[E|[E|E]]]]]]]]];
    subst; reflexivity.
Qed.

Lemma is_digit_range (c : ascii) :
  is_digit c = true -> 0 <= digit_val c <= 9.
Proof.
  unfold is_digit, digit_val. intros H. apply andb_true_iff in H.
  destruct H as [H1 H2]. apply Z.leb_le in H1, H2. lia.
Qed.

Lemma digits_val_app_acc (ds : chars) (acc : Z) :
  fold_left (fun a c => 10 * a + digit_val c) ds acc
  = acc * 10 ^ Z.of_nat (List.length ds) + digits_val ds.
Proof.
  revert acc. unfold digits_val.
  induction ds as [|c ds IH]; intros acc.
  - cbn [fold_left List.length]. change (Z.of_nat 0) with 0. lia.
  - cbn [fold_left List.length]. rewrite (IH (10 * acc + digit_val c)).
    rewrite (IH (10 * 0 + digit_val c)).
    rewrite Nat2Z.inj_succ, Z.pow_succ_r by lia. ring.
Qed.

Lemma digits_val_app (a b : chars) :
  digits_val (a ++ b)
  = digits_val a * 10 ^ Z.of_nat (List.length b) + digits_val b.
Proof.
  unfold digits_val at 1. rewrite fold_left_app.
  apply digits_val_app_acc.
Qed.

Lemma digits_val_single (c : ascii) : digits_val [c] = digit_val c.
Proof. unfold digits_val. cbn [fold_left]. lia. Qed.

Lemma digits_val_nonneg (ds : chars) :
  Forall (fun c => is_digit c = true) ds -> 0 <= digits_val ds.
Proof.
  induction ds as [|c ds IH] using rev_ind; intros H.
  - reflexivity.
  - apply Forall_app in H. destruct H as [H1 H2].
    rewrite digits_val_app, digits_val_single. cbn [List.length].
    inversion H2 as [|? ? Hc _]; subst. apply is_digit_range in Hc.
    specialize (IH H1). change (Z.of_nat 1) with 1. lia.
Qed.

(** The digits printed for a non-negative integer. *)
Lemma show_digits_spec (fuel : nat) :
  forall (n : Z) (acc : chars),
  0 <= n < 2 ^ Z.of_nat fuel -> (0 < fuel)%nat ->
  exists ds,
    show_digits fuel n acc = ds ++ acc /\
    ds <> [] /\
    Forall (fun c => is_digit c = true) ds /\
    digits_val ds = n.
Proof.
  induction fuel as [|fuel IH]; intros n acc Hn Hf; [lia|].
  cbn [show_digits].
  assert (Hd : 0 <= n mod 10 <= 9) by (pose proof (Z.mod_pos_bound n 10); lia).
  destruct (Z.ltb_spec n 10) as [L|G].
  - exists [digit_char (n mod 10)]. split; [reflexivity|]. split; [discriminate|].
    split.
    + constructor; [apply digit_char_is_digit; exact Hd | constructor].
    + rewrite digits_val_single, digit_val_digit_char by exact Hd.
      apply Z.mod_small. lia.
  - assert (Hq : 0 <= n / 10 < 2 ^ Z.of_nat fuel).
    { split; [apply Z.div_pos; lia|].
      rewrite Nat2Z.inj_succ, Z.pow_succ_r in Hn by lia.
      apply Z.div_lt_upper_bound; lia. }
    assert (Hfuel : (0 < fuel)%nat).
    { destruct fuel; [|lia]. change (2 ^ Z.of_nat 0) with 1 in Hq.
      assert (1 <= n / 10) by (apply Z.div_le_lower_bound; lia). lia. }
    destruct (IH (n / 10) (digit_char (n mod 10) :: acc) Hq Hfuel)
      as [ds [E [Nn [Fd Vd]]]].
    exists (ds ++ [digit_char (n mod 10)]). split; [|split; [|split]].
    + rewrite E, <- app_assoc. reflexivity.
    + intros C. apply app_eq_nil in C. destruct C; discriminate.
    + apply Forall_app. split; [exact Fd|].
      constructor; [apply digit_char_is_digit; exact Hd | constructor].
    + rewrite digits_val_app, Vd, digits_val_single,
        digit_val_digit_char by exact Hd.
      cbn [List.length]. change (10 ^ Z.of_nat 1) with 10.
      pose proof (Z.div_mod n 10 ltac:(lia)). lia.
Qed.

Lemma show_nat_spec (n : Z) :
  0 <= n ->
  show_nat n <> [] /\
  Forall (fun c => is_digit c = true) (show_nat n) /\
  digits_val (show_nat n) = n.
Proof.
  intros Hn. unfold show_nat.
  destruct (show_digits_spec (S (Z.to_nat (Z.log2 n))) n []) as [ds [E [Nn [Fd Vd]]]].
  - split; [exact Hn|].
    rewrite Nat2Z.inj_succ, Z2Nat.id by apply Z.log2_nonneg.
    destruct (Z.eq_dec n 0) as [->|NZ]; [reflexivity|].
    apply Z.log2_spec. lia.
  - lia.
  - rewrite E, app_nil_r. repeat split; assumption.
Qed.

(** ** Scanning *)

Lemma span_digits_app (ds rest : chars) :
  Forall (fun c => is_digit c = true) ds ->
  match rest with [] => True | c :: _ => is_digit c = false end ->
  span_digits (ds ++ rest) = (ds, rest).
Proof.
  intros Fd Hr. induction Fd as [|c ds Hc _ IH].
  - destruct rest as [|c rest]; [reflexivity|].
    cbn [app span_digits]. rewrite Hr. reflexivity.
  - cbn [app span_digits]. rewrite Hc, IH. reflexivity.
Qed.

Lemma digit_not_space (c : ascii) : is_digit c = true -> is_space c = false.
Proof.
  unfold is_digit, is_space. intros H. apply andb_true_iff in H.
  destruct H as [H1 H2]. apply Z.leb_le in H1, H2.
  destruct (N.eqb_spec (N_of_ascii c) 32) as [E|NE]; [lia|].
  destruct (N.eqb_spec (N_of_ascii c) 133) as [E1|NE1]; [lia|].
  destruct (N.eqb_spec (N_of_ascii c) 160) as [E2|NE2]; [lia|].
  destruct (N.leb_spec 9 (N_of_ascii c)); [|reflexivity].
  destruct (N.leb_spec (N_of_ascii c) 13); [lia | reflexivity].
Qed.

Lemma digit_not_underscore (c : ascii) : is_digit c = true -> Ascii.eqb c "_" = false.
Proof.
  intros H. destruct (Ascii.eqb_spec c "_"%char) as [->|NE]; [discriminate|reflexivity].
Qed.

Lemma digit_not_plus (c : ascii) : is_digit c = true -> Ascii.eqb c "+" = false.
Proof.
  intros H. destruct (Ascii.eqb_spec c "+"%char) as [->|NE]; [discriminate|reflexivity].
Qed.

Lemma lstrip_nonspace (c : ascii) (s : chars) :
  is_space c = false -> lstrip (c :: s) = c :: s.
Proof. intros H. cbn [lstrip]. rewrite H. reflexivity. Qed.

Lemma strip_id (s : chars) (a b : ascii) (mid : chars) :
  s = a :: mid ++ [b] \/ (s = [a] /\ b = a) ->
  is_space a = false -> is_space b = false -> strip s = s.
Proof.
  intros Hs Ha Hb. unfold strip. destruct Hs as [->|[-> ->]].
  - rewrite (lstrip_nonspace a _ Ha).
    change (a :: mid ++ [b]) with ((a :: mid) ++ [b]).
    rewrite rev_app_distr. cbn [rev app].
    rewrite (lstrip_nonspace b _ Hb).
    change (b :: rev mid ++ [a]) with ([b] ++ rev (a :: mid)).
    rewrite rev_app_distr, rev_involutive. reflexivity.
  - rewrite (lstrip_nonspace a _ Ha). cbn [rev app].
    rewrite (lstrip_nonspace a _ Ha). reflexivity.
Qed.

(** A text without underscores passes [drop_underscores] unchanged. *)
Lemma drop_underscores_none (s : chars) :
  Forall (fun c => Ascii.eqb c "_" = false) s ->
  forall prev,
    match prev with Some p => Ascii.eqb p "_" = false | None => True end ->
    drop_underscores prev s = Some s.
Proof.
  intros H. induction H as [|c s Hc _ IH]; intros prev Hp.
  - destruct prev as [p|]; [|reflexivity]. cbn [drop_underscores].
    destruct p as [[] [] [] [] [] [] [] []]; try reflexivity. discriminate Hp.
  - cbn [drop_underscores]. rewrite Hc.
    assert (E : drop_underscores (Some c) s = Some s) by (apply IH; exact Hc).
    destruct prev as [p|].
    + destruct p as [[] [] [] [] [] [] [] []]; try (rewrite E; reflexivity).
      discriminate Hp.
    + rewrite E. reflexivity.
Qed.

(** ** Reading a decimal numeral *)

Lemma take_sign_digit (a : ascii) (s : chars) :
  is_digit a = true -> take_sign (a :: s) = (false, a :: s).
Proof.
  intros H. destruct a as [[] [] [] [] [] [] [] []]; try reflexivity;
    discriminate H.
Qed.

Lemma Forall_digit_no_underscore (ds : chars) :
  Forall (fun c => is_digit c = true) ds ->
  Forall (fun c => Ascii.eqb c "_" = false) ds.
Proof.
  intros H. eapply Forall_impl; [|exact H]. intros c. apply digit_not_underscore.
Qed.

Lemma remove_plus_digits (ds : chars) :
  Forall (fun c => is_digit c = true) ds -> remove_char "+" ds = ds.
Proof.
  intros H. unfold remove_char. induction H as [|c ds Hc _ IH]; [reflexivity|].
  cbn [filter]. rewrite (digit_not_plus c Hc). cbn [negb]. rewrite IH. reflexivity.
Qed.

Lemma remove_char_app (c : ascii) (a b : chars) :
  remove_char c (a ++ b) = remove_char c a ++ remove_char c b.
Proof. unfold remove_char. apply filter_app. Qed.

(** [float] on digits, a point and digits: the decimal value, rounded. *)
Lemma float_of_string_decimal (ip fp : chars) :
  Forall (fun c => is_digit c = true) ip ->
  Forall (fun c => is_digit c = true) fp ->
  ip <> [] ->
  float_of_string (string_of_list_ascii (ip ++ "."%char :: fp))
  = Ok (Q2F false (inject_Z (digits_val (ip ++ fp))
                   * Qpow10 (0 - Z.of_nat (List.length fp)))).
Proof.
  intros Fi Ff Ni.
  destruct ip as [|a ip']; [congruence|].
  inversion Fi as [|? ? Ha Fi']; subst.
  unfold float_of_string. rewrite list_ascii_of_string_of_list_ascii.
  set (l := (a :: ip') ++ "."%char :: fp).
  (* no underscore *)
  assert (Hu : drop_underscores None l = Some l).
  { apply drop_underscores_none; [|exact I].
    unfold l. apply Forall_app. split.
    - apply Forall_digit_no_underscore. exact Fi.
    - constructor; [reflexivity|]. apply Forall_digit_no_underscore. exact Ff. }
  rewrite Hu.
  (* nothing to strip *)
  assert (Hs : strip l = l).
  { destruct (exists_last (l:="."%char :: fp) ltac:(discriminate)) as [mid [b Eb]].
    apply (strip_id l a b (ip' ++ mid)).
    - left. unfold l. cbn [app]. rewrite Eb, app_assoc. reflexivity.
    - apply digit_not_space. exact Ha.
    - destruct fp as [|f fp'] using rev_ind.
      + change ["."%char] with ([] ++ ["."%char]) in Eb.
        apply app_inj_tail in Eb. destruct Eb as [_ <-]. reflexivity.
      + change ("."%char :: fp' ++ [f]) with (("."%char :: fp') ++ [f]) in Eb.
        apply app_inj_tail in Eb. destruct Eb as [_ <-].
        apply Forall_app in Ff. destruct Ff as [_ Ff].
        inversion Ff; subst. apply digit_not_space. assumption. }
  rewrite Hs.
  (* the numeral *)
  unfold parse_decimal. unfold l at 1. cbn [app].
  rewrite (take_sign_digit a _ Ha).
  change (a :: ip' ++ "."%char :: fp) with ((a :: ip') ++ "."%char :: fp).
  rewrite (span_digits_app (a :: ip') ("."%char :: fp) Fi eq_refl).
  cbn [parse_fraction].
  rewrite <- (app_nil_r fp) at 1.
  rewrite (span_digits_app fp [] Ff I).
  cbn [app parse_exponent]. reflexivity.
Qed.

(** [station_to_ft] on digits, a plus sign, digits, a point and digits:
    the plus sign is dropped and the rest is one decimal numeral. *)
Lemma station_to_ft_numeral (a b c : chars) :
  Forall (fun c => is_digit c = true) a ->
  Forall (fun c => is_digit c = true) b ->
  Forall (fun c => is_digit c = true) c ->
  a <> [] ->
  station_to_ft (string_of_list_ascii (a ++ "+"%char :: b ++ "."%char :: c))
  = Ok (Q2F false (inject_Z (digits_val (a ++ b ++ c))
                   * Qpow10 (0 - Z.of_nat (List.length c)))).
Proof.
  intros Fa Fb Fc Na. unfold station_to_ft.
  rewrite list_ascii_of_string_of_list_ascii.
  assert (E : remove_char "+" (a ++ "+"%char :: b ++ "."%char :: c)
              = (a ++ b) ++ "."%char :: c).
  { rewrite remove_char_app, (remove_plus_digits a Fa).
    change ("+"%char :: b ++ "."%char :: c)
      with (["+"%char] ++ b ++ ["."%char] ++ c).
    rewrite !remove_char_app, (remove_plus_digits b Fb), (remove_plus_digits c Fc).
    cbn. rewrite <- app_assoc. reflexivity. }
  rewrite E, float_of_string_decimal.
  - rewrite <- app_assoc. reflexivity.
  - apply Forall_app. split; assumption.
  - exact Fc.
  - intros C. apply app_eq_nil in C. destruct C. contradiction.
Qed.

(** ** What [float] consumes *)

Lemma accepted_digit (c : ascii) : is_digit c = true -> accepted_char c = true.
Proof. intros H. unfold accepted_char. rewrite H. reflexivity. Qed.

Lemma accepted_space (c : ascii) : is_space c = true -> accepted_char c = true.
Proof.
  intros H. unfold accepted_char. rewrite H. rewrite orb_true_r. reflexivity.
Qed.

Lemma all_accepted_digits (ds : chars) :
  Forall (fun c => is_digit c = true) ds -> all_accepted ds.
Proof.
  intros H. eapply Forall_impl; [|exact H]. intros c. apply accepted_digit.
Qed.

Lemma take_sign_inv (s : chars) :
  all_accepted (snd (take_sign s)) -> all_accepted s.
Proof.
  destruct s as [|c s]; [intros H; exact H|].
  destruct c as [[] [] [] [] [] [] [] []]; cbn [take_sign snd]; intros H;
    try exact H; constructor; try reflexivity; exact H.
Qed.

Lemma span_digits_inv (s : chars) :
  s = fst (span_digits s) ++ snd (span_digits s) /\
  Forall (fun c => is_digit c = true) (fst (span_digits s)).
Proof.
  induction s as [|c s IH]; [split; [reflexivity | constructor]|].
  cbn [span_digits]. destruct (is_digit c) eqn:E.
  - destruct (span_digits s) as [ds r]. cbn [fst snd] in *.
    destruct IH as [E1 F1]. split; [rewrite E1 at 1; reflexivity|].
    constructor; assumption.
  - split; [reflexivity | constructor].
Qed.

Lemma span_digits_accepted (s : chars) :
  all_accepted (snd (span_digits s)) -> all_accepted s.
Proof.
  intros H. destruct (span_digits_inv s) as [E F]. rewrite E.
  apply Forall_app. split; [apply all_accepted_digits; exact F | exact H].
Qed.

Lemma lower_e_accepted (c : ascii) :
  Ascii.eqb (lower c) "e" = true -> accepted_char c = true.
Proof.
  destruct c as [[] [] [] [] [] [] [] []]; intros H; try discriminate H;
    reflexivity.
Qed.

Lemma parse_exponent_accepted (s : chars) :
  all_accepted (snd (parse_exponent s)) -> all_accepted s.
Proof.
  destruct s as [|c s]; [intros H; exact H|].
  cbn [parse_exponent]. destruct (Ascii.eqb (lower c) "e") eqn:Ee;
    [|intros H; exact H].
  destruct (take_sign s) as [neg s2] eqn:Et.
  destruct (span_digits s2) as [ds r] eqn:Es.
  destruct ds as [|d ds]; [intros H; exact H|].
  cbn [snd]. intros H. constructor; [apply lower_e_accepted; exact Ee|].
  apply take_sign_inv. rewrite Et. cbn [snd].
  apply span_digits_accepted. rewrite Es. exact H.
Qed.

Lemma parse_fraction_accepted (s : chars) :
  all_accepted (snd (parse_fraction s)) -> all_accepted s.
Proof.
  destruct s as [|c s]; [intros H; exact H|].
  destruct c as [[] [] [] [] [] [] [] []]; cbn [parse_fraction snd];
    intros H; try exact H.
  constructor; [reflexivity|]. apply span_digits_accepted. exact H.
Qed.

(** A numeral read to the end consists of accepted characters. *)
Lemma parse_decimal_accepted (s : chars) (x : f64) :
  parse_decimal s = Some (x, []) -> all_accepted s.
Proof.
  unfold parse_decimal.
  destruct (take_sign s) as [neg s1] eqn:Et.
  destruct (span_digits s1) as [ip s2] eqn:Ei.
  destruct (parse_fraction s2) as [fp s3] eqn:Ef.
  intros H. apply take_sign_inv. rewrite Et. cbn [snd].
  apply span_digits_accepted. rewrite Ei. cbn [snd].
  apply parse_fraction_accepted. rewrite Ef. cbn [snd].
  destruct (ip ++ fp) as [|d ds]; [discriminate H|].
  destruct (parse_exponent s3) as [ex s4] eqn:Ex.
  injection H as _ E4. subst s4.
  apply parse_exponent_accepted. rewrite Ex. constructor.
Qed.

Lemma lower_letter_accepted (c : ascii) (w : string) :
  In (lower c) (list_ascii_of_string w) ->
  (forall d, In d (list_ascii_of_string w) ->
             In d (list_ascii_of_string "infinityan")) ->
  accepted_char c = true.
Proof.
  intros H Hw. specialize (Hw _ H). unfold accepted_char.
  assert (E : existsb (Ascii.eqb (lower c)) (list_ascii_of_string "infinityan") = true).
  { apply existsb_exists. exists (lower c). split; [exact Hw | apply Ascii.eqb_refl]. }
  rewrite E. apply orb_true_r.
Qed.

Lemma lower_all_word_accepted (body : chars) (w : string) :
  lower_all body = list_ascii_of_string w ->
  (forall d, In d (list_ascii_of_string w) ->
             In d (list_ascii_of_string "infinityan")) ->
  all_accepted body.
Proof.
  intros E Hw. apply Forall_forall. intros c Hc.
  apply (lower_letter_accepted c w); [|exact Hw].
  rewrite <- E. unfold lower_all. apply in_map. exact Hc.
Qed.

Lemma chars_eqb_eq (a b : chars) : chars_eqb a b = true -> a = b.
Proof.
  unfold chars_eqb. destruct (list_eq_dec ascii_dec a b); [auto | discriminate].
Qed.

Lemma parse_inf_or_nan_accepted (s : chars) (x : f64) :
  parse_inf_or_nan s = Some x -> all_accepted s.
Proof.
  unfold parse_inf_or_nan. destruct (take_sign s) as [neg body] eqn:Et.
  intros H. apply take_sign_inv. rewrite Et. cbn [snd].
  destruct (chars_eqb (lower_all body) (list_ascii_of_string "inf")) eqn:E1.
  - apply chars_eqb_eq in E1. apply (lower_all_word_accepted body "inf" E1).
    intros d Hd. cbn in Hd |- *. tauto.
  - destruct (chars_eqb (lower_all body) (list_ascii_of_string "infinity")) eqn:E2.
    + apply chars_eqb_eq in E2.
      apply (lower_all_word_accepted body "infinity" E2).
      intros d Hd. cbn in Hd |- *. tauto.
    + cbn [orb] in H.
      destruct (chars_eqb (lower_all body) (list_ascii_of_string "nan")) eqn:E3;
        [|discriminate].
      apply chars_eqb_eq in E3. apply (lower_all_word_accepted body "nan" E3).
      intros d Hd. cbn in Hd |- *. tauto.
Qed.

(** Stripping removes white space only. *)
Lemma lstrip_accepted (s : chars) : all_accepted (lstrip s) -> all_accepted s.
Proof.
  induction s as [|c s IH]; [intros H; exact H|].
  cbn [lstrip]. destruct (is_space c) eqn:E; [|intros H; exact H].
  intros H. constructor; [apply accepted_space; exact E | apply IH; exact H].
Qed.

Lemma all_accepted_rev (s : chars) : all_accepted (rev s) -> all_accepted s.
Proof.
  intros H. apply Forall_forall. intros c Hc.
  apply (proj1 (Forall_forall _ _) H). apply in_rev in Hc. exact Hc.
Qed.

Lemma strip_accepted (s : chars) : all_accepted (strip s) -> all_accepted s.
Proof.
  unfold strip. intros H. apply lstrip_accepted. apply all_accepted_rev.
  apply lstrip_accepted. apply all_accepted_rev. exact H.
Qed.

(** Dropping underscores removes underscores only. *)
Lemma drop_underscores_accepted (s : chars) :
  forall prev t,
  drop_underscores prev s = Some t -> all_accepted t -> all_accepted s.
Proof.
  induction s as [|c s IH]; intros prev t E A; [constructor|].
  cbn [drop_underscores] in E.
  destruct (Ascii.eqb_spec c "_"%char) as [->|NE].
  - constructor; [reflexivity|].
    destruct prev as [p|]; [|discriminate].
    destruct (is_digit p); [|discriminate].
    apply (IH _ _ E A).
  - assert (Hgen : forall r, option_map (cons c) (drop_underscores (Some c) s) = Some r ->
                     all_accepted r -> all_accepted (c :: s)).
    { intros r Er Ar.
      destruct (drop_underscores (Some c) s) as [t'|] eqn:Ed; [|discriminate].
      cbn [option_map] in Er. injection Er as <-.
      inversion Ar; subst. constructor; [assumption|].
      apply (IH _ _ Ed). assumption. }
    destruct prev as [p|].
    + destruct p as [[] [] [] [] [] [] [] []];
        try (apply (Hgen t E A)).
      destruct (is_digit c); [apply (Hgen t E A) | discriminate].
    + apply (Hgen t E A).
Qed.

Lemma remove_char_accepted (s : chars) :
  all_accepted (remove_char "+" s) -> all_accepted s.
Proof.
  unfold remove_char. induction s as [|c s IH]; [intros H; exact H|].
  cbn [filter]. destruct (Ascii.eqb_spec c "+"%char) as [->|NE]; cbn [negb].
  - intros H. constructor; [reflexivity | apply IH; exact H].
  - intros H. inversion H; subst. constructor; [assumption | apply IH; assumption].
Qed.

(** [float] either returns a float or raises [ValueError]. *)
Lemma float_of_string_outcomes (s : string) :
  (exists x, float_of_string s = Ok x) \/ float_of_string s = Raise ValueError.
Proof.
  unfold float_of_string.
  destruct (drop_underscores None (list_ascii_of_string s)) as [t|];
    [|right; reflexivity].
  destruct (parse_decimal (strip t)) as [[x [|c r]]|].
  - left. exists x. reflexivity.
  - right. reflexivity.
  - destruct (parse_inf_or_nan (strip t)) as [x|].
    + left. exists x. reflexivity.
    + right. reflexivity.
Qed.

(** A text [float] accepts consists of accepted characters. *)
Lemma float_of_string_accepted (s : string) (x : f64) :
  float_of_string s = Ok x -> all_accepted (list_ascii_of_string s).
Proof.
  unfold float_of_string.
  destruct (drop_underscores None (list_ascii_of_string s)) as [t|] eqn:Ed;
    [|discriminate].
  intros H. apply (drop_underscores_accepted _ _ _ Ed). apply strip_accepted.
  destruct (parse_decimal (strip t)) as [[y [|c r]]|] eqn:Ep.
  - apply (parse_decimal_accepted _ _ Ep).
  - discriminate.
  - destruct (parse_inf_or_nan (strip t)) as [y|] eqn:Ei; [|discriminate].
    apply (parse_inf_or_nan_accepted _ _ Ei).
Qed.

(** ** Bounds through a rounding *)

Lemma rnd_pow2 (k : Z) : emin <= k -> (rnd (Qpow2 k) == Qpow2 k)%Q.
Proof.
  intros H. apply (rnd_exact _ 1 k); [lia | exact H | ring].
Qed.

Lemma rnd_opp_pow2 (k : Z) : emin <= k -> (rnd (- Qpow2 k) == - Qpow2 k)%Q.
Proof.
  intros H. apply (rnd_exact _ (-1) k); [lia | exact H|].
  change (inject_Z (-1)) with (-1)%Q. ring.
Qed.

(** Rounding keeps a value within a power of two. *)
Lemma rnd_within_pow2 (q : Q) (k : Z) :
  emin <= k -> (Qabs q <= Qpow2 k)%Q -> (Qabs (rnd q) <= Qpow2 k)%Q.
Proof.
  intros Hk H. apply Qabs_Qle_condition in H. destruct H as [H1 H2].
  apply Qabs_Qle_condition. split.
  - rewrite <- (rnd_opp_pow2 k Hk). apply rnd_mono. exact H1.
  - rewrite <- (rnd_pow2 k Hk). apply rnd_mono. exact H2.
Qed.

(** A rounded value at most [2^k] comes from a value below [2^(k+1)]. *)
Lemma rnd_below_inv (q : Q) (k : Z) :
  emin <= k -> (0 <= q)%Q -> (rnd q <= Qpow2 k)%Q -> (q < Qpow2 (k + 1))%Q.
Proof.
  intros Hk H0 H. destruct (Qlt_le_dec q (Qpow2 (k + 1))) as [L|G]; [exact L|].
  exfalso. pose proof (rnd_mono _ _ G) as M.
  rewrite (rnd_pow2 (k + 1)) in M by lia.
  pose proof (Qpow2_lt k (k + 1) ltac:(lia)). lra.
Qed.

(** The three facts about a rounded value below [2^k] in magnitude. *)
Lemma Q2F_below (s0 : bool) (q : Q) (k : Z) :
  (Qabs q < Qpow2 k)%Q -> emin + 53 <= k <= 1023 ->
  finite (Q2F s0 q) /\
  (F2Q (Q2F s0 q) == rnd q)%Q /\
  (Qabs (rnd q - q) <= Qpow2 (k - 54))%Q.
Proof.
  intros H [K1 K2].
  assert (H1023 : (Qabs q < Qpow2 1023)%Q).
  { eapply Qlt_le_trans; [exact H|]. apply Qpow2_le. lia. }
  destruct (Q2F_small s0 q H1023) as [F V].
  split; [exact F|]. split; [exact V|].
  apply rnd_error_below; assumption.
Qed.

Lemma Qabs_mult_le (x y bx byy : Q) :
  (Qabs x <= bx)%Q -> (Qabs y <= byy)%Q -> (Qabs (x * y) <= bx * byy)%Q.
Proof.
  intros Hx Hy. rewrite Qabs_Qmult.
  pose proof (Qabs_nonneg x). pose proof (Qabs_nonneg y).
  apply (Qle_trans _ (bx * Qabs y)).
  - apply Qmult_le_compat_r; assumption.
  - rewrite !(Qmult_comm bx). apply Qmult_le_compat_r; [assumption | lra].
Qed.

(** ** Sorted lists *)

Lemma values_sorted_cons (x y : Q) (l : list Q) :
  values_sorted (x :: y :: l) <-> (x <= y)%Q /\ values_sorted (y :: l).
Proof. reflexivity. Qed.

(** A monotone map keeps a list sorted, when it is monotone on the
    elements of the list. *)
Lemma values_sorted_map {A} (v f : A -> Q) (P : A -> Prop) (l : list A) :
  (forall a b, P a -> P b -> (v a <= v b)%Q -> (f a <= f b)%Q) ->
  Forall P l ->
  values_sorted (map v l) -> values_sorted (map f l).
Proof.
  intros Hm. induction l as [|a l IH]; intros FP S; [exact I|].
  destruct l as [|b l]; [exact I|].
  cbn [map] in *. apply values_sorted_cons in S. destruct S as [S1 S2].
  apply values_sorted_cons.
  inversion FP as [|? ? Pa FP']; subst. inversion FP' as [|? ? Pb _]; subst.
  split; [apply Hm; assumption | apply IH; assumption].
Qed.

Lemma last_map_app {A B} (f : A -> B) (l : list A) (a : A) (d : B) :
  last (map f (l ++ [a])) d = f a.
Proof. rewrite map_app. cbn [map]. apply last_last. Qed.

Lemma in_progression (first step : Z) (n : nat) (s : Z) :
  In s (progression first step n) ->
  exists k, (k < n)%nat /\ s = first + Z.of_nat k * step.
Proof.
  unfold progression. intros H. apply in_map_iff in H.
  destruct H as [k [E Hk]]. apply in_seq in Hk.
  exists k. split; [lia | symmetry; exact E].
Qed.

(** ** Rounding a float gives it back *)

Lemma round_exp_of_valid (s : bool) (m : positive) (e : Z) (a : Q) :
  valid (S754_finite s m e) ->
  (a == inject_Z (Zpos m) * Qpow2 e)%Q ->
  round_exp a = e.
Proof.
  intros V Ea. destruct (valid_finite_bounds s m e V) as [[He1 He2] [Hm Hn]].
  pose proof (Qpow2_pos e) as Hp.
  assert (M1 : (1 <= inject_Z (Zpos m))%Q)
    by (change 1%Q with (inject_Z 1); rewrite <- Zle_Qle; lia).
  assert (Ha : (0 < a)%Q).
  { rewrite Ea. apply Qmult_lt_0_compat; lra. }
  assert (Hup : (a < Qpow2 (e + 53))%Q).
  { rewrite Ea, Qpow2_add, (Qmult_comm (Qpow2 e)).
    apply Qmult_lt_compat_r; [exact Hp|].
    rewrite (Qpow2_inject 53) by lia. rewrite <- Zlt_Qlt. exact Hm. }
  unfold round_exp.
  destruct (Z.eq_dec e emin) as [E|NE].
  - destruct (Qlog2_spec a Ha) as [S1 _].
    assert (Qlog2 a < e + 53) by (apply Qpow2_lt_inv; lra).
    lia.
  - assert (Hlo : (Qpow2 (e + 52) <= a)%Q).
    { rewrite Ea, Qpow2_add, (Qmult_comm (Qpow2 e)).
      apply Qmult_le_compat_r; [|lra].
      rewrite (Qpow2_inject 52) by lia. rewrite <- Zle_Qle. apply Hn. lia. }
    rewrite (Qlog2_unique a (e + 52)); [lia | exact Hlo|].
    replace (e + 52 + 1) with (e + 53) by lia. exact Hup.
Qed.

Lemma Q2F_mag_round_trip (s : bool) (m : positive) (e : Z) (a : Q) :
  valid (S754_finite s m e) ->
  (a == inject_Z (Zpos m) * Qpow2 e)%Q ->
  Q2F_mag s a = S754_finite s m e.
Proof.
  intros V Ea. destruct (valid_finite_bounds s m e V) as [[He1 He2] [Hm Hn]].
  pose proof (Qpow2_pos e) as Hp.
  unfold Q2F_mag. rewrite (round_exp_of_valid s m e a V Ea).
  assert (Es : (a / Qpow2 e == inject_Z (Zpos m))%Q).
  { rewrite Ea. field. lra. }
  rewrite (rne_proper _ _ Es), rne_Z.
  destruct (Z.eqb_spec (Zpos m) (2 ^ 53)) as [E|NE]; [lia|].
  destruct (Z.gtb_spec e (emax - prec)) as [G|L]; [lia | reflexivity].
Qed.

(** Rounding the value of a well-formed non-zero float gives the same
    float. *)
Lemma Q2F_round_trip (s0 s : bool) (m : positive) (e : Z) :
  valid (S754_finite s m e) ->
  Q2F s0 (F2Q (S754_finite s m e)) = S754_finite s m e.
Proof.
  intros V. pose proof (Qpow2_pos e) as Hp.
  assert (M1 : (1 <= inject_Z (Zpos m))%Q)
    by (change 1%Q with (inject_Z 1); rewrite <- Zle_Qle; lia).
  assert (P : (0 < inject_Z (Zpos m) * Qpow2 e)%Q)
    by (apply Qmult_lt_0_compat; lra).
  destruct s.
  - rewrite Q2F_neg by (rewrite F2Q_finite_neg; lra).
    apply Q2F_mag_round_trip; [exact V|].
    rewrite F2Q_finite_neg, Qabs_neg by lra. ring.
  - rewrite Q2F_pos by (rewrite F2Q_finite_pos; lra).
    apply Q2F_mag_round_trip; [exact V|].
    rewrite F2Q_finite_pos, Qabs_pos by lra. reflexivity.
Qed.

(** [x - 0.0] is [x]. *)
Lemma sub_pos_zero (x : f64) : valid x -> finite x -> sub x pos_zero = x.
Proof.
  intros V F. destruct (finite_cases x F) as [[s ->]|[s [m [e ->]]]].
  - destruct s; reflexivity.
  - change (sub (S754_finite s m e) pos_zero)
      with (Q2F false (F2Q (S754_finite s m e) + 0)).
    rewrite (Q2F_proper false _ (F2Q (S754_finite s m e))) by ring.
    apply Q2F_round_trip. exact V.
Qed.

(** ** The model on samples *)

(** The model agrees with the kernel's (hardware) binary64 arithmetic. *)
Example arithmetic_matches_hardware :
  to_prim (add (of_prim 0x1.999999999999ap-4) (of_prim 0x1.999999999999ap-3))
    = (0x1.999999999999ap-4 + 0x1.999999999999ap-3)%float
  /\ to_prim (sub (of_prim 0x1.f4p+9) (of_prim 0x1.04accbc57de7dp+8))
    = (0x1.f4p+9 - 0x1.04accbc57de7dp+8)%float
  /\ to_prim (mul (of_prim 0x1.921fb54442d18p+1) (of_prim 0x1p+3))
    = (0x1.921fb54442d18p+1 * 0x1p+3)%float
  /\ to_prim (div (of_prim 0x1.194p+14) (of_prim 0x1.921fb54442d18p+4))
    = (0x1.194p+14 / 0x1.921fb54442d18p+4)%float
  /\ to_prim (div (of_prim 0x1p-1074) (of_prim 0x1.8p+1))
    = (0x1p-1074 / 0x1.8p+1)%float
  /\ to_prim (mul (of_prim 0x1.fffffffffffffp+1023) (of_prim 0x1.0000000000001p+0))
    = (0x1.fffffffffffffp+1023 * 0x1.0000000000001p+0)%float
  /\ to_prim math_pi = 0x1.921fb54442d18p+1%float
  /\ to_prim deg_to_rad = 0x1.1df46a2529d39p-6%float
  /\ to_prim f1em6 = 0x1.0c6f7a0b5ed8dp-20%float.
Proof. vm_compute. repeat split; reflexivity. Qed.

(** The reference run of the specification: I = 40, Da = 8,
    PI = 10+00.00, interval 50. *)
Example reference_run :
  exists r,
    curve_webapp libm_samples 100 (of_Z 40) (of_Z 8) "10+00.00" 50
      = Ok (Rendered r) /\
    r_PC r = "7+39.33"%string /\
    r_PT r = "12+39.33"%string /\
    r_station_text r =
      ["7+39.33"; "8+00.00"; "8+50.00"; "9+00.00"; "9+50.00"; "10+00.00";
       "10+50.00"; "11+00.00"; "11+50.00"; "12+00.00"; "12+39.33"]%string /\
    r_points r =
      ["P.C."; "1"; "2"; "3"; "4"; "5"; "6"; "7"; "8"; "9"; "P.T."]%string.
Proof.
  eexists. split; [vm_compute; reflexivity|].
  cbn [r_PC r_PT r_station_text r_points]. repeat split; reflexivity.
Qed.

(** C1, counterexample: at I = 180 (Da = 8, PI = 10+00.00) the tangent
    length is about 1.17e19 ft; adding L = 2250 to P.C. moves it by 2048
    only. *)
Lemma curve_elements_absorb_L :
  guard (of_Z 180) (of_Z 8) = true /\
  exists ce,
    curve_elements_of libm_samples (of_Z 180) (of_Z 8) "10+00.00" = Ok ce /\
    (F2Q (ce_L ce) == 2250)%Q /\
    (F2Q (ce_PT ce) - F2Q (ce_PC ce) == 2048)%Q /\
    ~ within (1 # 1000000000)
             (F2Q (ce_PT ce) - F2Q (ce_PC ce)) (F2Q (ce_L ce)).
Proof.
  split; [vm_compute; reflexivity|].
  eexists. split; [vm_compute; reflexivity|].
  cbn [ce_L ce_PT ce_PC]. split; [|split].
  - vm_compute. reflexivity.
  - vm_compute. reflexivity.
  - unfold within. vm_compute. intros H. apply H. reflexivity.
Qed.

(** C3, counterexample: at I = 180 (Da = 8, PI = 10+00.00, interval 50)
    P.T. - P.C. is 2048 ft instead of L = 2250 ft, and the deflection at
    P.T. is 81.92 degrees, not I/2 = 90. *)
Lemma final_deflection_off_at_180 :
  guard (of_Z 180) (of_Z 8) = true /\
  exists ce stations deflection_deg,
    curve_elements_of libm_samples (of_Z 180) (of_Z 8) "10+00.00" = Ok ce /\
    stake_stations 100 (ce_PC ce) (ce_PT ce) 50 = Ok stations /\
    deflections (of_Z 8) (ce_PC ce) stations = Ok deflection_deg /\
    (F2Q (last deflection_deg pos_zero) < 82)%Q /\
    ~ within (1 # 1000000)
             (F2Q (last deflection_deg pos_zero)) (F2Q (of_Z 180) / 2).
Proof.
  split; [vm_compute; reflexivity|].
  eexists. eexists. eexists.
  split; [vm_compute; reflexivity|].
  split; [vm_compute; reflexivity|].
  split; [vm_compute; reflexivity|].
  split.
  - vm_compute. reflexivity.
  - unfold within. vm_compute. intros H. apply H. reflexivity.
Qed.

(** C4, counterexample: in the reference run the incremental chords add
    up to 499.90 ft while the last cumulative chord is 489.91 ft. *)
Lemma chords_do_not_telescope :
  exists r,
    curve_webapp libm_samples 100 (of_Z 40) (of_Z 8) "10+00.00" 50
      = Ok (Rendered r) /\
    (499 < Qsum (r_tape_ct r))%Q /\
    (F2Q (last (r_edm_ct r) pos_zero) < 490)%Q /\
    ~ within (1 # 1000000)
             (Qsum (r_tape_ct r)) (F2Q (last (r_edm_ct r) pos_zero)).
Proof.
  eexists. split; [vm_compute; reflexivity|].
  cbn [r_tape_ct r_edm_ct fst snd]. split; [|split].
  - vm_compute. reflexivity.
  - vm_compute. reflexivity.
  - unfold within. vm_compute. intros H. apply H. reflexivity.
Qed.

(** C6, counterexample: at I = 180 the run ends in Python's
    [ZeroDivisionError]; the script has no [DegenerateGeometryError]. *)
Lemma degenerate_run_raises_zero_division :
  curve_webapp libm_samples 100 (of_Z 180) (of_Z 8) "10+00.00" 50
    = Raise ZeroDivisionError /\
  exn_name ZeroDivisionError <> "DegenerateGeometryError"%string.
Proof.
  split; [vm_compute; reflexivity | discriminate].
Qed.

(** ** The guard (claim C7) *)

Lemma Qcompare_flip (a b : Q) : (b ?= a)%Q = CompOpp (a ?= b)%Q.
Proof. symmetry. apply Qcompare_antisym. Qed.

Lemma leb_zero_not_ltb (x : f64) :
  leb x pos_zero = true -> ltb pos_zero x = false.
Proof.
  unfold leb, ltb, pos_zero.
  destruct x as [s|s| |s m e]; cbv beta iota delta [compare];
    try discriminate; try reflexivity.
  - destruct s; [reflexivity | discriminate].
  - rewrite (Qcompare_flip (F2Q (S754_finite s m e)) (F2Q (S754_zero false))).
    destruct (F2Q (S754_finite s m e) ?= F2Q (S754_zero false))%Q; simpl;
      try discriminate; reflexivity.
Qed.

(** C7: when [I <= 0] or [Da <= 0] the script computes nothing, shows the
    warning and raises no exception. *)
Theorem non_positive_input_warns (M : libm) (fuel : nat) (I_deg Da_deg : f64)
    (PI_station_str : string) (stake_step : Z) :
  leb I_deg pos_zero = true \/ leb Da_deg pos_zero = true ->
  curve_webapp M fuel I_deg Da_deg PI_station_str stake_step = Ok Warning.
Proof.
  intros H. unfold curve_webapp, guard.
  destruct H as [H|H]; rewrite (leb_zero_not_ltb _ H).
  - rewrite andb_false_r. reflexivity.
  - reflexivity.
Qed.

(** C7, on I = 0 and on Da = -1. *)
Lemma non_positive_input_warns_witness :
  curve_webapp libm_samples 0 (of_Z 0) (of_Z 8) "10+00.00" 50 = Ok Warning
  /\ curve_webapp libm_samples 0 (of_Z 40) (of_Z (-1)) "10+00.00" 50 = Ok Warning.
Proof.
  split.
  - apply (non_positive_input_warns libm_samples 0 (of_Z 0) (of_Z 8)).
    left. vm_compute. reflexivity.
  - apply (non_positive_input_warns libm_samples 0 (of_Z 40) (of_Z (-1))).
    right. vm_compute. reflexivity.
Defined.

(** ** The curve elements (claim C1) *)

Lemma positive_not_zero (x : f64) : ltb pos_zero x = true -> is_zero x = false.
Proof.
  intros H. destruct (ltb_zero_cases x H) as [->|[F P]]; [reflexivity|].
  destruct x as [s|s| |s m e]; try reflexivity.
  exfalso. change (F2Q (S754_zero s)) with 0%Q in P. lra.
Qed.

Lemma F2Q_math_pi_ge_1 : (1 <= F2Q math_pi)%Q.
Proof. vm_compute. intros H. discriminate. Qed.

Lemma mul_pi_nonzero (Da_deg : f64) :
  valid Da_deg -> ltb pos_zero Da_deg = true ->
  is_zero (mul math_pi Da_deg) = false.
Proof.
  intros V H. destruct (ltb_zero_cases Da_deg H) as [->|[F P]]; [reflexivity|].
  destruct Da_deg as [s|s| |s m e]; try discriminate.
  change (mul math_pi (S754_finite s m e))
      with (Q2F (xorb false s) (F2Q math_pi * F2Q (S754_finite s m e))).
  apply Q2F_nonzero.
  pose proof (valid_finite_lower s m e V) as L.
  pose proof F2Q_math_pi_ge_1 as P1.
  pose proof (Qpow2_pos emin) as Hp.
  rewrite Qabs_Qmult. rewrite (Qabs_pos (F2Q math_pi)) by lra.
  set (a := Qabs (F2Q (S754_finite s m e))) in *.
  apply (Qle_trans _ (1 * a)); [lra|].
  apply Qmult_le_compat_r; lra.
Qed.

Lemma f2_nonzero : is_zero f2 = false.
Proof. reflexivity. Qed.

(** The sum of two finite floats below [2^24] is within [2^-30] of the exact
    sum. *)
Lemma add_error_24 (x y : f64) :
  finite x -> finite y -> (Qabs (F2Q x + F2Q y) < 16777216)%Q ->
  finite (add x y) /\
  (Qabs (F2Q (add x y) - (F2Q x + F2Q y)) <= 1 # 1073741824)%Q.
Proof.
  intros Hx Hy Hb. destruct (add_finite_eq x y Hx Hy) as [s0 E].
  rewrite E.
  assert (Hk : (Qabs (F2Q x + F2Q y) < Qpow2 24)%Q) by exact Hb.
  assert (H1023 : (Qabs (F2Q x + F2Q y) < Qpow2 1023)%Q).
  { eapply Qlt_le_trans; [exact Hk|]. apply Qpow2_le. lia. }
  destruct (Q2F_small s0 _ H1023) as [F V].
  split; [exact F|].
  pose proof (rnd_error_below _ 24 Hk ltac:(unfold emin; lia)) as R.
  change (Qpow2 (24 - 54)) with (1 # 1073741824)%Q in R.
  apply Qabs_Qle_condition in R. apply Qabs_Qle_condition.
  rewrite V. lra.
Qed.

(** C1, amended: the curve elements are computed by the formulas of the
    specification, in binary64 arithmetic; P.T. - P.C. is within 1e-9 of L
    whenever P.C. and L are numbers whose sum is below 2^24 ft in
    magnitude (at larger magnitudes the addition absorbs part of L). *)
Theorem curve_elements_formulas (M : libm) (I_deg Da_deg : f64)
    (PI_station_str : string) (PI_ft t : f64) :
  valid Da_deg ->
  guard I_deg Da_deg = true ->
  station_to_ft PI_station_str = Ok PI_ft ->
  math_tan M (math_radians (div I_deg f2)) = Ok t ->
  exists ce,
    curve_elements_of M I_deg Da_deg PI_station_str = Ok ce /\
    ce_R ce = div f18000 (mul math_pi Da_deg) /\
    ce_T ce = mul (ce_R ce) t /\
    ce_L ce = div (mul f100 I_deg) Da_deg /\
    ce_PC ce = sub PI_ft (ce_T ce) /\
    ce_PT ce = add (ce_PC ce) (ce_L ce) /\
    (finite (ce_PC ce) -> finite (ce_L ce) ->
     (Qabs (F2Q (ce_PC ce) + F2Q (ce_L ce)) < 16777216)%Q ->
     within (1 # 1000000000)
            (F2Q (ce_PT ce) - F2Q (ce_PC ce)) (F2Q (ce_L ce))).
Proof.
  intros V G Hs Ht.
  unfold guard in G. apply andb_true_iff in G. destruct G as [GDa GI].
  eexists. split.
  - unfold curve_elements_of. rewrite Hs. cbn [bind].
    unfold truediv at 1. rewrite (mul_pi_nonzero Da_deg V GDa). cbn [bind].
    unfold truediv at 1. rewrite f2_nonzero. cbn [bind].
    rewrite Ht. cbn [bind].
    unfold truediv. rewrite (positive_not_zero Da_deg GDa). cbn [bind].
    reflexivity.
  - cbn [ce_R ce_T ce_L ce_PC ce_PT].
    repeat (split; [reflexivity|]).
    intros FPC FL B.
    destruct (add_error_24 _ _ FPC FL B) as [_ E].
    unfold within. apply Qabs_Qle_condition in E. apply Qabs_Qle_condition.
    lra.
Qed.

(** C1, on the reference input: I = 40, Da = 8, PI = 10+00.00. *)
Lemma curve_elements_formulas_witness :
  exists ce,
    curve_elements_of libm_samples (of_Z 40) (of_Z 8) "10+00.00" = Ok ce /\
    within (1 # 1000000000)
           (F2Q (ce_PT ce) - F2Q (ce_PC ce)) (F2Q (ce_L ce)).
Proof.
  destruct (curve_elements_formulas libm_samples (of_Z 40) (of_Z 8) "10+00.00"
              (of_Z 1000) (fl 6556704845660884 (-54)))
    as [ce [E [ER [ET [EL [EPC [EPT W]]]]]]].
  - vm_compute. reflexivity.
  - vm_compute. reflexivity.
  - vm_compute. reflexivity.
  - vm_compute. reflexivity.
  - exists ce. split; [exact E|].
    rewrite ER in ET. rewrite ET in EPC.
    apply W.
    + rewrite EPC. vm_compute. reflexivity.
    + rewrite EL. vm_compute. reflexivity.
    + rewrite EPC, EL. vm_compute. reflexivity.
Defined.

(** ** The P.I. coordinate at I = 180 (claim C6) *)

Lemma eqb_finite_right (x y : f64) :
  finite y -> eqb x y = true -> finite x /\ (F2Q x == F2Q y)%Q.
Proof.
  intros Hy H.
  assert (Hx : finite x).
  { destruct (finite_cases y Hy) as [[t ->]|[t [n [f ->]]]];
    destruct x as [s|[|]| |s m e]; try reflexivity; discriminate. }
  split; [exact Hx|]. apply (eqb_finite x y Hx Hy). exact H.
Qed.

Lemma sub_180_is_zero (I_deg : f64) :
  eqb I_deg f180 = true -> sub f180 I_deg = pos_zero.
Proof.
  intros H. destruct (eqb_finite_right I_deg f180 eq_refl H) as [F E].
  destruct (finite_cases I_deg F) as [[s ->]|[s [m [e ->]]]].
  - vm_compute in H. discriminate.
  - change (sub f180 (S754_finite s m e))
      with (Q2F false (F2Q f180 + F2Q (opp (S754_finite s m e)))).
    apply Q2F_zero. rewrite F2Q_opp, E. ring.
Qed.

(** C6, amended: with I = 180 the slope [m2] is [tan 0 = 0] and the
    division raises Python's [ZeroDivisionError]; no coordinate, NaN or
    infinite, is returned. *)
Theorem pi_coordinate_at_180_raises (M : libm) (I_deg PT_x PT_y : f64) :
  eqb I_deg f180 = true ->
  is_zero (c_tan M pos_zero) = true ->
  pi_coordinate M I_deg PT_x PT_y = Raise ZeroDivisionError.
Proof.
  intros HI Ht. unfold pi_coordinate.
  rewrite (sub_180_is_zero I_deg HI).
  change (math_radians pos_zero) with pos_zero.
  unfold math_tan, math_1.
  destruct (c_tan M pos_zero) as [s|s| |s m e]; try discriminate.
  reflexivity.
Qed.

(** C6, on I = 180 with the last point at (5, -7). *)
Lemma pi_coordinate_at_180_raises_witness :
  pi_coordinate libm_samples (of_Z 180) (of_Z 5) (of_Z (-7))
    = Raise ZeroDivisionError.
Proof.
  apply (pi_coordinate_at_180_raises libm_samples (of_Z 180)).
  - vm_compute. reflexivity.
  - vm_compute. reflexivity.
Defined.

(** ** The stake stations (claim C2) *)

Lemma progression_succ (first step : Z) (n : nat) :
  progression first step (S n) = first :: progression (first + step) step n.
Proof.
  unfold progression. cbn [seq map]. f_equal; [lia|].
  rewrite <- seq_shift, map_map. apply map_ext. intros k. lia.
Qed.

Lemma stake_loop_unfold (fuel : nat) (s : Z) (bound : f64) (step : Z) :
  stake_loop fuel s bound step =
  if int_lt_float s bound then
    match fuel with
    | O => OutOfFuel
    | S fuel' =>
        rest <- stake_loop fuel' (s + step) bound step;; Ok (s :: rest)
    end
  else Ok [].
Proof. destruct fuel; reflexivity. Qed.

(** The loop yields the terms of the progression below the bound. *)
Lemma stake_loop_progression (bound : f64) (step : Z) (n : nat) :
  forall (first : Z) (fuel : nat),
  (forall k, (k < n)%nat ->
     int_lt_float (first + Z.of_nat k * step) bound = true) ->
  int_lt_float (first + Z.of_nat n * step) bound = false ->
  (n <= fuel)%nat ->
  stake_loop fuel first bound step = Ok (progression first step n).
Proof.
  induction n as [|n IH]; intros first fuel Hlt Hge Hfuel.
  - rewrite stake_loop_unfold.
    replace (first + Z.of_nat 0 * step) with first in Hge by lia.
    rewrite Hge. reflexivity.
  - rewrite stake_loop_unfold.
    pose proof (Hlt 0%nat ltac:(lia)) as H0.
    replace (first + Z.of_nat 0 * step) with first in H0 by lia.
    rewrite H0. destruct fuel as [|fuel]; [lia|].
    rewrite (IH (first + step) fuel).
    + rewrite progression_succ. reflexivity.
    + intros k Hk. specialize (Hlt (S k) ltac:(lia)).
      replace (first + step + Z.of_nat k * step)
        with (first + Z.of_nat (S k) * step) by lia. exact Hlt.
    + replace (first + step + Z.of_nat n * step)
        with (first + Z.of_nat (S n) * step) by lia. exact Hge.
    + lia.
Qed.

(** With an infinite bound the loop never ends. *)
Lemma stake_loop_diverges (step : Z) (fuel : nat) :
  forall s, stake_loop fuel s pos_inf step = OutOfFuel.
Proof.
  induction fuel as [|fuel IH]; intros s; [reflexivity|].
  cbn [stake_loop int_lt_float pos_inf negb]. rewrite IH. reflexivity.
Qed.

Lemma int_lt_float_finite (s : Z) (b : f64) :
  finite b -> (int_lt_float s b = true <-> (inject_Z s < F2Q b)%Q).
Proof.
  intros F. destruct (finite_cases b F) as [[t ->]|[t [m [e ->]]]];
    unfold int_lt_float;
    match goal with |- context [Qcompare ?a ?b] =>
      destruct (Qcompare_spec a b) end;
    split; intros Hc; try reflexivity; try discriminate; lra.
Qed.

(** Below a finite bound the progression has finitely many terms. *)
Lemma progression_length_exists (first step : Z) (b : Q) :
  0 < step ->
  exists n : nat,
    (forall k, (k < n)%nat -> (inject_Z (first + Z.of_nat k * step) < b)%Q) /\
    (b <= inject_Z (first + Z.of_nat n * step))%Q.
Proof.
  intros Hs.
  assert (HsQ : (0 < inject_Z step)%Q)
    by (change 0%Q with (inject_Z 0); rewrite <- Zlt_Qlt; exact Hs).
  set (q := ((b - inject_Z first) / inject_Z step)%Q).
  assert (Hq : (q * inject_Z step == b - inject_Z first)%Q).
  { unfold q. field. lra. }
  exists (Z.to_nat (Qceiling q)). split.
  - intros k Hk.
    assert (Hk' : Z.of_nat k <= Qceiling q - 1) by lia.
    pose proof (Qceiling_lt q) as Hc.
    assert (X : (inject_Z (Z.of_nat k) < q)%Q).
    { eapply Qle_lt_trans; [|exact Hc]. rewrite <- Zle_Qle. exact Hk'. }
    assert (Y : (inject_Z (Z.of_nat k) * inject_Z step < q * inject_Z step)%Q)
      by (apply Qmult_lt_compat_r; assumption).
    rewrite inject_Z_plus, inject_Z_mult. lra.
  - pose proof (Qle_ceiling q) as Hc.
    assert (X : (q <= inject_Z (Z.of_nat (Z.to_nat (Qceiling q))))%Q).
    { eapply Qle_trans; [exact Hc|]. rewrite <- Zle_Qle. lia. }
    assert (Y : (q * inject_Z step
                 <= inject_Z (Z.of_nat (Z.to_nat (Qceiling q))) * inject_Z step)%Q)
      by (apply Qmult_le_compat_r; [exact X | lra]).
    rewrite inject_Z_plus, inject_Z_mult. lra.
Qed.

Lemma math_ceil_finite (x : f64) :
  finite x -> math_ceil x = Ok (Qceiling (F2Q x)).
Proof.
  intros F. destruct (finite_cases x F) as [[t ->]|[t [m [e ->]]]]; reflexivity.
Qed.

Lemma max_float_threshold (a d : Q) :
  (a <= max_float)%Q -> (d < Qpow2 970)%Q -> (a + d < max_float + Qpow2 970)%Q.
Proof. intros. lra. Qed.

Lemma small_below_pow970 (d : Q) : (d <= 100)%Q -> (d < Qpow2 970)%Q.
Proof.
  intros H. eapply Qle_lt_trans; [exact H|].
  apply (Qlt_le_trans _ (Qpow2 7)); [reflexivity | apply Qpow2_le; lia].
Qed.

(** The quotient [(PC + step) / step] is a finite float. *)
Lemma first_quotient_finite (PC_station : f64) (stake_step : Z) :
  valid PC_station -> finite PC_station -> 0 < stake_step <= 100 ->
  let st := of_Z stake_step in
  finite (add PC_station st) /\
  (F2Q (add PC_station st) == rnd (F2Q PC_station + inject_Z stake_step))%Q /\
  finite (div (add PC_station st) st) /\
  (F2Q (div (add PC_station st) st)
   == rnd (F2Q (add PC_station st) / inject_Z stake_step))%Q.
Proof.
  intros V F Hs st.
  destruct (of_Z_exact stake_step ltac:(lia)) as [Fst Est]. fold st in Fst, Est.
  assert (HsQ : (0 < inject_Z stake_step <= 100)%Q).
  { split.
    - change 0%Q with (inject_Z 0); rewrite <- Zlt_Qlt; lia.
    - change 100%Q with (inject_Z 100); rewrite <- Zle_Qle; lia. }
  pose proof (valid_finite_max PC_station V F) as Mx.
  destruct (add_finite_eq PC_station st F Fst) as [s0 Ea].
  assert (Ba : (Qabs (F2Q PC_station + F2Q st) < max_float + Qpow2 970)%Q).
  { eapply Qle_lt_trans; [apply Qabs_triangle|].
    apply max_float_threshold; [exact Mx|]. apply small_below_pow970.
    rewrite Est, Qabs_pos; lra. }
  destruct (Q2F_sharp s0 _ Ba) as [Fa Va]. rewrite <- Ea in Fa, Va.
  assert (Va' : (F2Q (add PC_station st)
                 == rnd (F2Q PC_station + inject_Z stake_step))%Q).
  { rewrite Va. apply rnd_proper. rewrite Est. reflexivity. }
  assert (Vy : valid (add PC_station st)) by (rewrite Ea; apply Q2F_valid).
  pose proof (valid_finite_max _ Vy Fa) as My.
  assert (Zst : is_zero st = false).
  { apply is_zero_false_of_value. rewrite Est. lra. }
  destruct (div_finite_eq (add PC_station st) st Fa Fst Zst) as [s1 Ed].
  assert (Bd : (Qabs (F2Q (add PC_station st) / F2Q st)
                < max_float + Qpow2 970)%Q).
  { apply (Qle_lt_trans _ max_float); [|pose proof (Qpow2_pos 970); lra].
    eapply Qle_trans; [|exact My].
    unfold Qdiv. rewrite Qabs_Qmult, Qabs_Qinv, Est.
    rewrite (Qabs_pos (inject_Z stake_step)) by lra.
    set (a := Qabs (F2Q (add PC_station st))) in *.
    assert (A0 : (0 <= a)%Q) by apply Qabs_nonneg.
    assert (Hinv : (/ inject_Z stake_step <= 1)%Q).
    { assert (H1 : (1 <= inject_Z stake_step)%Q)
        by (change 1%Q with (inject_Z 1); rewrite <- Zle_Qle; lia).
      apply Qle_shift_inv_r; lra. }
    apply (Qle_trans _ (a * 1)); [|lra].
    rewrite !(Qmult_comm a). apply Qmult_le_compat_r; assumption. }
  destruct (Q2F_sharp s1 _ Bd) as [Fd Vd]. rewrite <- Ed in Fd, Vd.
  repeat split; try assumption.
  rewrite Vd. apply rnd_proper. rewrite Est. reflexivity.
Qed.

(** The station list for finite P.C. and P.T.: P.C., a progression of
    ints below [PT - 1e-6], P.T. *)
Lemma stake_stations_progression (PC_station PT_station : f64) (stake_step : Z) :
  valid PC_station -> finite PC_station ->
  valid PT_station -> finite PT_station ->
  0 < stake_step <= 100 ->
  let st := of_Z stake_step in
  let bound := sub PT_station f1em6 in
  exists (first : Z) (n : nat),
    first = Qceiling (F2Q (div (add PC_station st) st)) * stake_step /\
    finite bound /\
    (forall k, (k < n)%nat ->
       (inject_Z (first + Z.of_nat k * stake_step) < F2Q bound)%Q) /\
    (F2Q bound <= inject_Z (first + Z.of_nat n * stake_step))%Q /\
    (forall fuel, (n <= fuel)%nat ->
       stake_stations fuel PC_station PT_station stake_step
       = Ok (Float PC_station
             :: map Int (progression first stake_step n)
             ++ [Float PT_station])).
Proof.
  intros VPC FPC VPT FPT Hs st bound.
  destruct (first_quotient_finite PC_station stake_step VPC FPC Hs)
    as [Fa [Va [Fd Vd]]]. fold st in Fa, Va, Fd, Vd.
  destruct (of_Z_exact stake_step ltac:(lia)) as [Fst Est]. fold st in Fst, Est.
  assert (HsQ : (0 < inject_Z stake_step)%Q)
    by (change 0%Q with (inject_Z 0); rewrite <- Zlt_Qlt; lia).
  (* the bound is finite *)
  assert (Fb : finite bound).
  { unfold bound.
    destruct (sub_finite_eq PT_station f1em6 FPT eq_refl) as [s0 E]. rewrite E.
    apply Q2F_finite_sharp.
    pose proof (valid_finite_max PT_station VPT FPT) as Mx.
    eapply Qle_lt_trans; [apply Qabs_triangle|].
    apply max_float_threshold; [exact Mx|].
    apply small_below_pow970. vm_compute. intros H; discriminate. }
  set (first := Qceiling (F2Q (div (add PC_station st) st)) * stake_step).
  destruct (progression_length_exists first stake_step (F2Q bound) ltac:(lia))
    as [n [Hlt Hge]].
  exists first, n.
  split; [reflexivity|]. split; [exact Fb|]. split; [exact Hlt|].
  split; [exact Hge|].
  intros fuel Hfuel. unfold stake_stations, first_full.
  rewrite (float_of_int_small stake_step) by lia. cbn [bind]. fold st.
  unfold truediv.
  rewrite (is_zero_false_of_value st) by (rewrite Est; lra). cbn [bind].
  rewrite (math_ceil_finite _ Fd). cbn [bind]. fold first. fold bound.
  rewrite (stake_loop_progression bound stake_step n first fuel).
  - reflexivity.
  - intros k Hk. apply (int_lt_float_finite _ bound Fb). apply Hlt. exact Hk.
  - destruct (int_lt_float (first + Z.of_nat n * stake_step) bound) eqn:E;
      [|reflexivity].
    apply (int_lt_float_finite _ bound Fb) in E. lra.
  - exact Hfuel.
Qed.

(** C2, amended: when P.C. and P.T. are finite, the station list is P.C.,
    then the terms [first, first + step, ...] that are below
    [PT - 1e-6], then P.T.; [first] is
    [ceil((PC + step) / step) * step] in binary64 arithmetic, and when
    P.C. is a multiple of the interval (up to 2^52 ft) it is the next
    multiple, [PC + step].  Enough fuel makes the loop end. *)
Theorem stake_stations_shape (PC_station PT_station : f64) (stake_step : Z) :
  valid PC_station -> finite PC_station ->
  valid PT_station -> finite PT_station ->
  0 < stake_step <= 100 ->
  let st := of_Z stake_step in
  let bound := sub PT_station f1em6 in
  exists (first : Z) (n : nat),
    first = Qceiling (F2Q (div (add PC_station st) st)) * stake_step /\
    (forall j, (F2Q PC_station == inject_Z (j * stake_step))%Q ->
               Z.abs (j * stake_step) <= 2 ^ 52 ->
               first = (j + 1) * stake_step) /\
    finite bound /\
    (forall k, (k < n)%nat ->
       (inject_Z (first + Z.of_nat k * stake_step) < F2Q bound)%Q) /\
    (F2Q bound <= inject_Z (first + Z.of_nat n * stake_step))%Q /\
    (forall fuel, (n <= fuel)%nat ->
       stake_stations fuel PC_station PT_station stake_step
       = Ok (Float PC_station
             :: map Int (progression first stake_step n)
             ++ [Float PT_station])).
Proof.
  intros VPC FPC VPT FPT Hs st bound.
  destruct (stake_stations_progression PC_station PT_station stake_step
              VPC FPC VPT FPT Hs) as [first [n [E1 [Fb [Hlt [Hge Hst]]]]]].
  fold st in E1. fold bound in Fb, Hlt, Hge.
  exists first, n.
  split; [exact E1|]. split; [|repeat split; assumption].
  (* P.C. on a multiple of the interval *)
  destruct (first_quotient_finite PC_station stake_step VPC FPC Hs)
    as [_ [Va [_ Vd]]]. fold st in Va, Vd.
  assert (HsQ : (0 < inject_Z stake_step)%Q)
    by (change 0%Q with (inject_Z 0); rewrite <- Zlt_Qlt; lia).
  intros j Ej Bj. rewrite E1. f_equal.
  assert (Ea : (F2Q (add PC_station st) == inject_Z ((j + 1) * stake_step))%Q).
  { rewrite Va.
    assert (X : (F2Q PC_station + inject_Z stake_step
                 == inject_Z ((j + 1) * stake_step))%Q).
    { rewrite Ej, !inject_Z_mult, inject_Z_plus. ring. }
    rewrite (rnd_proper _ _ X). apply rnd_Z. lia. }
  assert (Eq : (F2Q (div (add PC_station st) st) == inject_Z (j + 1))%Q).
  { rewrite Vd.
    assert (X : (F2Q (add PC_station st) / inject_Z stake_step
                 == inject_Z (j + 1))%Q).
    { rewrite Ea, inject_Z_mult. field. lra. }
    rewrite (rnd_proper _ _ X). apply rnd_Z. nia. }
  rewrite Eq. apply Qceiling_Z.
Qed.

(** C2, on the reference run: nine stakes from 8+00 to 12+00. *)
Lemma stake_stations_shape_witness :
  exists first n,
    first = 800 /\ n = 9%nat /\
    stake_stations 20 (fl 6503176059504482 (-43)) (fl 5450611285304241 (-42)) 50
    = Ok (Float (fl 6503176059504482 (-43))
          :: map Int (progression first 50 n)
          ++ [Float (fl 5450611285304241 (-42))]).
Proof.
  destruct (stake_stations_shape (fl 6503176059504482 (-43))
              (fl 5450611285304241 (-42)) 50)
    as [first [n [E1 [_ [_ [Hlt [Hge H]]]]]]];
    try reflexivity; try lia.
  assert (Ef : first = 800) by (rewrite E1; vm_compute; reflexivity).
  exists first, n. split; [exact Ef|].
  assert (En : n = 9%nat).
  { subst first.
    destruct (Nat.lt_trichotomy n 9) as [L|[E|G]]; [exfalso|exact E|exfalso].
    - assert (B : (F2Q (sub (fl 5450611285304241 (-42)) f1em6)
                   <= inject_Z (800 + 8 * 50))%Q).
      { eapply Qle_trans; [exact Hge|]. rewrite <- Zle_Qle. nia. }
      vm_compute in B. apply B. reflexivity.
    - specialize (Hlt 9%nat G). vm_compute in Hlt. discriminate. }
  split; [exact En|]. apply H. lia.
Defined.

(** C2, counterexample: with I = 100 and Da = 5.5e-305 the arc length
    overflows, P.T. is infinite and the loop never ends (no list is
    produced); with the station text "nan" P.C. is NaN and [math.ceil]
    raises. *)
Lemma stake_stations_not_always_produced :
  guard (of_Z 100) Da_tiny = true /\
  (exists ce,
     curve_elements_of libm_samples (of_Z 100) Da_tiny "10+00.00" = Ok ce /\
     finite (ce_PC ce) /\ ce_PT ce = pos_inf) /\
  ~ (exists fuel pg,
       curve_webapp libm_samples fuel (of_Z 100) Da_tiny "10+00.00" 50 = Ok pg) /\
  curve_webapp libm_samples 100 (of_Z 40) (of_Z 8) "nan" 50 = Raise ValueError.
Proof.
  split; [vm_compute; reflexivity|]. split; [|split].
  - eexists. split; [vm_compute; reflexivity|]. split; reflexivity.
  - intros [fuel [pg H]]. unfold curve_webapp in H.
    change (guard (of_Z 100) Da_tiny) with true in H. cbv iota in H.
    remember (curve_elements_of libm_samples (of_Z 100) Da_tiny "10+00.00")
      as r eqn:E.
    vm_compute in E. subst r. cbn [bind ce_PC ce_PT] in H.
    unfold stake_stations in H.
    match type of H with context [first_full ?pc ?st] =>
      remember (first_full pc st) as r eqn:E; vm_compute in E; subst r
    end.
    cbn [bind] in H.
    change (sub (S754_infinity false) f1em6) with pos_inf in H.
    rewrite stake_loop_diverges in H. discriminate.
  - vm_compute. reflexivity.
Qed.

(** ** Formatting a station (claims C9 and C10) *)

Lemma Qtrunc_Z (n : Z) : Qtrunc (inject_Z n) = n.
Proof.
  unfold Qtrunc. destruct (Qle_bool 0 (inject_Z n));
    [apply Qfloor_Z | apply Qceiling_Z].
Qed.

Lemma int_of_float_integer (q : f64) (i : Z) :
  finite q -> (F2Q q == inject_Z i)%Q -> int_of_float q = Ok i.
Proof.
  intros F E. unfold int_of_float, float_to_int.
  destruct (finite_cases q F) as [[s ->]|[s [m [e ->]]]];
    rewrite (Qtrunc_proper _ _ E), Qtrunc_Z; reflexivity.
Qed.

Lemma sign_bit_Q2F_mag (s : bool) (a : Q) : sign_bit (Q2F_mag s a) = s.
Proof.
  unfold Q2F_mag.
  destruct (rne (a / Qpow2 (round_exp a)) =? 2 ^ 53).
  - change (2 ^ 52) with (Zpos (2 ^ 52)).
    destruct (round_exp a + 1 >? emax - prec); reflexivity.
  - destruct (rne (a / Qpow2 (round_exp a))); try reflexivity.
    destruct (round_exp a >? emax - prec); reflexivity.
Qed.

Lemma sign_bit_Q2F_false (q : Q) : (0 <= q)%Q -> sign_bit (Q2F false q) = false.
Proof.
  intros H. destruct (Qeq_dec q 0) as [Z|NZ].
  - rewrite Q2F_zero by exact Z. reflexivity.
  - rewrite Q2F_pos by lra. apply sign_bit_Q2F_mag.
Qed.

(** The remainder [x - 100 i] computed by [ft_to_station]. *)
Lemma sub_sign (x c : f64) :
  finite x -> finite c -> sign_bit x = false -> sign_bit c = false ->
  sub x c = Q2F false (F2Q x - F2Q c).
Proof.
  intros Fx Fc Sx Sc.
  destruct (finite_cases x Fx) as [[s ->]|[s [m [e ->]]]];
  destruct (finite_cases c Fc) as [[t ->]|[t [n [f ->]]]];
  cbn [sign_bit] in Sx, Sc; subst.
  - unfold sub, opp, add. cbn [andb]. symmetry. apply Q2F_zero. reflexivity.
  - unfold sub. change (add (S754_zero false) (opp (S754_finite false n f)))
      with (Q2F false (F2Q (S754_zero false) + F2Q (opp (S754_finite false n f)))).
    apply Q2F_proper. rewrite F2Q_opp. ring.
  - unfold sub. change (add (S754_finite false m e) (opp (S754_zero false)))
      with (Q2F false (F2Q (S754_finite false m e) + F2Q (opp (S754_zero false)))).
    apply Q2F_proper. rewrite F2Q_opp. ring.
  - unfold sub. change (add (S754_finite false m e) (opp (S754_finite false n f)))
      with (Q2F false (F2Q (S754_finite false m e) + F2Q (opp (S754_finite false n f)))).
    apply Q2F_proper. rewrite F2Q_opp. ring.
Qed.

Lemma sub_nonzero (x c : f64) :
  finite x -> finite c -> is_zero x = false ->
  sub x c = Q2F false (F2Q x - F2Q c).
Proof.
  intros Fx Fc Zx.
  destruct (finite_cases x Fx) as [[s ->]|[s [m [e ->]]]]; [discriminate|].
  destruct (finite_cases c Fc) as [[t ->]|[t [n [f ->]]]].
  - unfold sub. change (add (S754_finite s m e) (opp (S754_zero t)))
      with (Q2F false (F2Q (S754_finite s m e) + F2Q (opp (S754_zero t)))).
    apply Q2F_proper. rewrite F2Q_opp. ring.
  - unfold sub. change (add (S754_finite s m e) (opp (S754_finite t n f)))
      with (Q2F false (F2Q (S754_finite s m e) + F2Q (opp (S754_finite t n f)))).
    apply Q2F_proper. rewrite F2Q_opp. ring.
Qed.

Lemma format_05_2f_render (r : f64) :
  finite r -> sign_bit r = false -> (0 <= F2Q r)%Q ->
  format_05_2f r = render_05_2f (F2Q r).
Proof.
  intros F S P.
  assert (E : rne (Qabs (F2Q r) * 100) = rne (F2Q r * 100)).
  { apply rne_proper. rewrite Qabs_pos by exact P. reflexivity. }
  destruct (finite_cases r F) as [[s ->]|[s [m [e ->]]]];
    unfold format_05_2f, render_05_2f; rewrite E; cbn [sign_bit] in *; subst;
    reflexivity.
Qed.

(** The common part: group and remainder of a float below [2^52]. *)
Lemma ft_to_station_steps (x : f64) :
  valid x -> finite x -> (Qabs (F2Q x) <= inject_Z (2 ^ 52))%Q ->
  let i := Qfloor (F2Q x / 100) in
  let c := of_Z (i * 100) in
  finite c /\ (F2Q c == inject_Z i * 100)%Q /\
  ft_to_station (Float x)
  = Ok (string_of_list_ascii
          (show_int i ++ "+"%char :: format_05_2f (sub x c))).
Proof.
  intros V F B i c.
  destruct (floordiv_100 x V F B) as [q [Eq [Fq Vq]]]. fold i in Vq.
  assert (Hi : Z.abs (i * 100) <= 2 ^ 53).
  { unfold i. destruct (Qfloor_bounds (F2Q x / 100)) as [F1 F2].
    assert (Bx := B). apply Qabs_Qle_condition in Bx.
    change (inject_Z (2 ^ 52)) with 4503599627370496%Q in Bx.
    assert (L1 : (inject_Z (Qfloor (F2Q x / 100) * 100) <= inject_Z (2 ^ 52))%Q).
    { rewrite inject_Z_mult.
      change (inject_Z (2 ^ 52)) with 4503599627370496%Q.
      change (inject_Z 100) with 100%Q.
      assert (EX : (F2Q x == F2Q x / 100 * 100)%Q) by field.
      set (D := (F2Q x / 100)%Q) in *. lra. }
    assert (L2 : (inject_Z (- 2 ^ 52 - 100)
                  <= inject_Z (Qfloor (F2Q x / 100) * 100))%Q).
    { rewrite inject_Z_mult.
      change (inject_Z (- 2 ^ 52 - 100)) with (-4503599627370596)%Q.
      change (inject_Z 100) with 100%Q.
      assert (EX : (F2Q x == F2Q x / 100 * 100)%Q) by field.
      set (D := (F2Q x / 100)%Q) in *. lra. }
    rewrite <- Zle_Qle in L1, L2. lia. }
  destruct (of_Z_exact (i * 100) Hi) as [Fc Vc]. fold c in Fc, Vc.
  split; [exact Fc|]. split.
  - rewrite Vc, inject_Z_mult. reflexivity.
  - unfold ft_to_station. rewrite Eq. cbn [bind].
    rewrite (int_of_float_integer q i Fq Vq). cbn [bind].
    rewrite (float_of_int_small (i * 100) Hi). cbn [bind]. fold c.
    reflexivity.
Qed.

Lemma render_05_2f_proper (v w : Q) : (v == w)%Q -> render_05_2f v = render_05_2f w.
Proof.
  intros E. unfold render_05_2f.
  assert (H : rne (v * 100) = rne (w * 100)) by (apply rne_proper; rewrite E; reflexivity).
  rewrite H. reflexivity.
Qed.

(** From 99.995 up the offset is rendered as 100.00. *)
Lemma render_05_2f_rounds_to_100 (v : Q) :
  ((9999 # 100) + (1 # 200) <= v)%Q -> (v < 100)%Q ->
  render_05_2f v = list_ascii_of_string "100.00".
Proof.
  intros L U.
  assert (Hf : Qfloor (v * 100) = 9999).
  { apply Qfloor_unique; change (inject_Z 9999) with 9999%Q; lra. }
  assert (Hn : rne (v * 100) = 10000).
  { unfold rne. rewrite Hf. change (inject_Z 9999) with 9999%Q.
    destruct (Qcompare_spec (v * 100 - 9999) (1 # 2)) as [E|Lt|Gt];
      [reflexivity | lra | reflexivity]. }
  unfold render_05_2f. rewrite Hn. reflexivity.
Qed.

Lemma nonneg_of_sign (x : f64) :
  finite x -> sign_bit x = false -> (0 <= F2Q x)%Q.
Proof.
  intros F S. destruct (finite_cases x F) as [[s ->]|[s [m [e ->]]]].
  - rewrite F2Q_zero. lra.
  - cbn [sign_bit] in S. subst s. rewrite F2Q_finite_pos.
    apply Qmult_le_0_compat; [|apply Qlt_le_weak, Qpow2_pos].
    change 0%Q with (inject_Z 0). rewrite <- Zle_Qle. lia.
Qed.

(** The text of a non-negative distance up to 2^52 ft: group and
    offset. *)
Lemma ft_to_station_group_offset (x : f64) :
  valid x -> finite x -> sign_bit x = false ->
  (F2Q x <= inject_Z (2 ^ 52))%Q ->
  let i := Qfloor (F2Q x / 100) in
  let r := (F2Q x - inject_Z i * 100)%Q in
  0 <= i /\ (0 <= r < 100)%Q /\
  ft_to_station (Float x)
  = Ok (string_of_list_ascii (show_int i ++ "+"%char :: render_05_2f r)).
Proof.
  intros V F S B i r.
  pose proof (nonneg_of_sign x F S) as P.
  assert (Babs : (Qabs (F2Q x) <= inject_Z (2 ^ 52))%Q)
    by (rewrite Qabs_pos by exact P; exact B).
  destruct (trunc_div_100 (F2Q x)) as [TP _].
  assert (HD : (0 <= F2Q x / 100)%Q) by (apply Qle_shift_div_l; lra).
  rewrite (Qtrunc_nonneg _ HD) in TP. fold i in TP. fold r in TP.
  destruct (TP P) as [I0 [[R1 R2] R3]].
  destruct (ft_to_station_steps x V F Babs) as [Fc [Vc Eft]].
  fold i in Fc, Vc, Eft.
  set (c := of_Z (i * 100)) in *.
  assert (Sc : sign_bit c = false).
  { unfold c, of_Z. apply sign_bit_Q2F_false.
    change 0%Q with (inject_Z 0). rewrite <- Zle_Qle. lia. }
  assert (Er : (F2Q x - F2Q c == r)%Q) by (rewrite Vc; reflexivity).
  (* the remainder is a float *)
  destruct (valid_finite_repr x V F) as [n [e [Hn [He EX]]]].
  assert (Hle : (Qabs (F2Q x - inject_Z (i * 100)) <= Qabs (F2Q x))%Q).
  { rewrite inject_Z_mult. change (inject_Z 100) with 100%Q. fold r.
    rewrite !Qabs_pos by lra. exact R3. }
  destruct (representable_minus_int (F2Q x) n e (i * 100)
              ltac:(lia) He EX Hle) as [n' [e' [Hn' [He' ER]]]].
  { eapply Qle_trans; [exact Babs|]. rewrite <- Zle_Qle. lia. }
  assert (ER' : (F2Q x - F2Q c == inject_Z n' * Qpow2 e')%Q).
  { rewrite <- ER, Vc, inject_Z_mult. reflexivity. }
  assert (Bsmall : (Qabs (F2Q x - F2Q c) < Qpow2 1023)%Q).
  { rewrite Er, Qabs_pos by lra.
    apply (Qlt_le_trans _ 100); [exact R2|].
    apply (Qle_trans _ (Qpow2 7)); [discriminate | apply Qpow2_le; lia]. }
  destruct (Q2F_exact false _ n' e' Hn' He' ER' Bsmall) as [Fr Vr].
  rewrite <- (sub_sign x c F Fc S Sc) in Fr, Vr.
  assert (Sr : sign_bit (sub x c) = false).
  { rewrite (sub_sign x c F Fc S Sc). apply sign_bit_Q2F_false. rewrite Er. exact R1. }
  assert (Efmt : format_05_2f (sub x c) = render_05_2f r).
  { rewrite (format_05_2f_render _ Fr Sr) by (rewrite Vr, Er; exact R1).
    apply render_05_2f_proper. rewrite Vr. exact Er. }
  split; [exact I0|]. split; [split; assumption|].
  rewrite Eft, Efmt. reflexivity.
Qed.

(** A finite float that is at least zero and is not the negative zero has
    its sign bit clear. *)
Lemma sign_of_nonneg (x : f64) :
  finite x -> (0 <= F2Q x)%Q -> x <> neg_zero -> sign_bit x = false.
Proof.
  intros F P N. destruct (finite_cases x F) as [[s ->]|[s [m [e ->]]]].
  - destruct s; [exfalso; apply N; reflexivity | reflexivity].
  - destruct s; [exfalso | reflexivity].
    rewrite F2Q_finite_neg in P.
    assert (H : (0 < inject_Z (Zpos m) * Qpow2 e)%Q).
    { apply Qmult_lt_0_compat; [|apply Qpow2_pos].
      change 0%Q with (inject_Z 0). rewrite <- Zlt_Qlt. lia. }
    lra.
Qed.

(** C9, amended: for a non-negative distance up to 2^52 ft, the negative
    zero -0.0 apart, the text is [floor(x/100)], a plus sign, and
    [x mod 100] with two decimals zero-padded to width 5; an offset from
    99.995 up is rendered 100.00 and the group is not incremented. *)
Theorem ft_to_station_non_negative (x : f64) :
  valid x -> finite x -> (0 <= F2Q x)%Q -> x <> neg_zero ->
  (F2Q x <= inject_Z (2 ^ 52))%Q ->
  let i := Qfloor (F2Q x / 100) in
  let r := (F2Q x - inject_Z i * 100)%Q in
  0 <= i /\ (0 <= r < 100)%Q /\
  ft_to_station (Float x)
  = Ok (string_of_list_ascii (show_int i ++ "+"%char :: render_05_2f r)) /\
  (((9999 # 100) + (1 # 200) <= r)%Q ->
   ft_to_station (Float x)
   = Ok (string_of_list_ascii
           (show_int i ++ list_ascii_of_string "+100.00"))).
Proof.
  intros V F P N B i r.
  pose proof (sign_of_nonneg x F P N) as S.
  destruct (ft_to_station_group_offset x V F S B) as [I0 [[R1 R2] Eft]].
  fold i in I0, R1, R2, Eft. fold r in R1, R2, Eft.
  split; [exact I0|]. split; [split; assumption|].
  split; [exact Eft|].
  intros H100. rewrite Eft.
  rewrite (render_05_2f_rounds_to_100 r H100 R2). reflexivity.
Qed.

(** C9, on a distance just below 200 ft: the offset is rendered
    100.00 and the group stays 1. *)
Lemma ft_to_station_non_negative_witness :
  ft_to_station (Float (fl 7036870019719922 (-45)))
  = Ok "1+100.00"%string.
Proof.
  assert (P : (0 <= F2Q (fl 7036870019719922 (-45)))%Q)
    by (vm_compute; intros C; discriminate).
  assert (N : fl 7036870019719922 (-45) <> neg_zero) by discriminate.
  assert (B : (F2Q (fl 7036870019719922 (-45)) <= inject_Z (2 ^ 52))%Q)
    by (vm_compute; intros C; discriminate).
  destruct (ft_to_station_non_negative (fl 7036870019719922 (-45))
              eq_refl eq_refl P N B) as [_ [_ [_ H]]].
  rewrite H.
  - reflexivity.
  - vm_compute. intros C; discriminate.
Defined.

(** C9, counterexamples.  At x = 2^60 ft the group printed is
    11529215046068468 and the offset 128.00, while [floor(x/100)] is
    11529215046068469 and [x mod 100] is 76.  At the negative zero, which
    is not below zero ([-0.0 >= 0] holds) and is what [station_to_ft]
    reads from the text -0, the sign of the zero remainder is printed:
    the offset is -0.00, not 00.00. *)
Lemma ft_to_station_large_distance :
  (ft_to_station (Float (of_Z (2 ^ 60)))
     = Ok "11529215046068468+128.00"%string /\
   (F2Q (of_Z (2 ^ 60)) == inject_Z (2 ^ 60))%Q /\
   2 ^ 60 / 100 = 11529215046068469 /\
   2 ^ 60 mod 100 = 76) /\
  (ft_to_station (Float neg_zero) = Ok "0+-0.00"%string /\
   leb (of_Z 0) neg_zero = true /\
   (0 <= F2Q neg_zero)%Q /\
   station_to_ft "-0" = Ok neg_zero).
Proof.
  split.
  - vm_compute. repeat split; reflexivity.
  - vm_compute. repeat split; try reflexivity. intros C; discriminate.
Qed.

(** ** Negative stations (claim C10) *)

Lemma rnd_100 : (rnd 100 == 100)%Q.
Proof. apply (rnd_Z 100). lia. Qed.

Lemma rnd_0 : (rnd 0 == 0)%Q.
Proof. apply rnd_zero. reflexivity. Qed.

(** A negative distance down to -2^52 ft: group, offset and text. *)
Lemma ft_to_station_negative (x : f64) :
  valid x -> finite x -> (F2Q x < 0)%Q -> (- inject_Z (2 ^ 52) <= F2Q x)%Q ->
  let i := Qfloor (F2Q x / 100) in
  let r := sub x (of_Z (i * 100)) in
  i < 0 /\
  show_int i = "-"%char :: show_nat (- i) /\
  finite r /\ sign_bit r = false /\
  (F2Q r == rnd (F2Q x - inject_Z i * 100))%Q /\
  (0 <= F2Q r <= 100)%Q /\
  ft_to_station (Float x)
  = Ok (string_of_list_ascii
          (show_int i ++ "+"%char :: render_05_2f (F2Q r))).
Proof.
  intros V F N B i r.
  assert (Babs : (Qabs (F2Q x) <= inject_Z (2 ^ 52))%Q)
    by (rewrite Qabs_neg by lra; lra).
  destruct (ft_to_station_steps x V F Babs) as [Fc [Vc Eft]].
  fold i in Fc, Vc, Eft. set (c := of_Z (i * 100)) in *. fold r in Eft.
  destruct (Qfloor_bounds (F2Q x / 100)) as [F1 F2]. fold i in F1, F2.
  assert (EX : (F2Q x == F2Q x / 100 * 100)%Q) by field.
  assert (Hi : i < 0).
  { assert (H : (inject_Z i < inject_Z 0)%Q).
    { change (inject_Z 0) with 0%Q. set (D := (F2Q x / 100)%Q) in *. lra. }
    rewrite <- Zlt_Qlt in H. exact H. }
  assert (Zx : is_zero x = false) by (apply is_zero_false_of_value; lra).
  assert (Er : r = Q2F false (F2Q x - F2Q c)) by (apply sub_nonzero; assumption).
  assert (Rb : (0 <= F2Q x - F2Q c <= 100)%Q).
  { rewrite Vc. set (D := (F2Q x / 100)%Q) in *. split; lra. }
  assert (Bsmall : (Qabs (F2Q x - F2Q c) < Qpow2 1023)%Q).
  { rewrite Qabs_pos by lra.
    apply (Qle_lt_trans _ 100); [lra|].
    apply (Qlt_le_trans _ (Qpow2 7)); [reflexivity | apply Qpow2_le; lia]. }
  destruct (Q2F_small false _ Bsmall) as [Fr Vr]. rewrite <- Er in Fr, Vr.
  assert (Sr : sign_bit r = false)
    by (rewrite Er; apply sign_bit_Q2F_false; lra).
  assert (Vr' : (F2Q r == rnd (F2Q x - inject_Z i * 100))%Q).
  { rewrite Vr. apply rnd_proper. rewrite Vc. reflexivity. }
  assert (Rr : (0 <= F2Q r <= 100)%Q).
  { rewrite Vr. split.
    - rewrite <- rnd_0. apply rnd_mono. lra.
    - rewrite <- rnd_100. apply rnd_mono. lra. }
  split; [exact Hi|]. split.
  { unfold show_int. destruct (Z.ltb_spec i 0); [reflexivity | lia]. }
  split; [exact Fr|]. split; [exact Sr|]. split; [exact Vr'|].
  split; [exact Rr|].
  rewrite Eft. rewrite (format_05_2f_render r Fr Sr) by lra. reflexivity.
Qed.

(** Two distinct floats are at least [2^emin] apart. *)
Lemma float_gap (x y : f64) :
  valid x -> valid y -> finite x -> finite y -> (F2Q x < F2Q y)%Q ->
  (Qpow2 emin <= F2Q y - F2Q x)%Q.
Proof.
  intros Vx Vy Fx Fy L.
  destruct (valid_finite_repr x Vx Fx) as [n [e [_ [He Ex]]]].
  destruct (valid_finite_repr y Vy Fy) as [n' [e' [_ [He' Ey]]]].
  pose proof (Qpow2_pos emin) as Hp.
  assert (Se : (Qpow2 e == inject_Z (2 ^ (e - emin)) * Qpow2 emin)%Q).
  { rewrite <- Qpow2_inject by lia. rewrite <- Qpow2_add.
    apply Qpow2_Proper_eq. lia. }
  assert (Se' : (Qpow2 e' == inject_Z (2 ^ (e' - emin)) * Qpow2 emin)%Q).
  { rewrite <- Qpow2_inject by lia. rewrite <- Qpow2_add.
    apply Qpow2_Proper_eq. lia. }
  set (k := n' * 2 ^ (e' - emin) - n * 2 ^ (e - emin)).
  assert (Ek : (F2Q y - F2Q x == inject_Z k * Qpow2 emin)%Q).
  { rewrite Ex, Ey, Se, Se'. unfold k, Z.sub.
    rewrite inject_Z_plus, inject_Z_opp, !inject_Z_mult. ring. }
  assert (Hk : 1 <= k).
  { assert (P : (0 < inject_Z k * Qpow2 emin)%Q) by (rewrite <- Ek; lra).
    assert (Q0 : (0 < inject_Z k)%Q).
    { destruct (Qlt_le_dec 0 (inject_Z k)) as [G|G]; [exact G|].
      exfalso.
      assert (NP : (inject_Z k * Qpow2 emin <= 0)%Q) by nra.
      lra. }
    change 0%Q with (inject_Z 0) in Q0. rewrite <- Zlt_Qlt in Q0. lia. }
  rewrite Ek.
  assert (Q1 : (1 <= inject_Z k)%Q)
    by (change 1%Q with (inject_Z 1); rewrite <- Zle_Qle; exact Hk).
  nra.
Qed.

(** [x - y] is below zero when [x < y]: the difference of two floats does
    not round to zero. *)
Lemma sub_negative (x y : f64) :
  valid x -> valid y -> ltb x y = true -> ltb (sub x y) pos_zero = true.
Proof.
  intros Vx Vy L.
  assert (Main : finite x -> finite y -> ltb (sub x y) pos_zero = true).
  { intros Fx Fy.
    apply (ltb_finite x y Fx Fy) in L.
    pose proof (float_gap x y Vx Vy Fx Fy L) as G.
    pose proof (Qpow2_pos emin) as Hp.
    destruct (sub_finite_eq x y Fx Fy) as [s0 E].
    assert (NN : is_nan (sub x y) = false) by (rewrite E; apply Q2F_not_nan).
    rewrite Q2F_neg in E by lra.
    assert (A : (Qabs (F2Q x - F2Q y) == F2Q y - F2Q x)%Q)
      by (rewrite Qabs_neg by lra; ring).
    assert (NZ : is_zero (sub x y) = false).
    { rewrite E. apply Q2F_mag_nonzero. rewrite A. exact G. }
    assert (SB : sign_bit (sub x y) = true)
      by (rewrite E; apply sign_bit_Q2F_mag).
    destruct (sub x y) as [u|u| |u p q]; try discriminate;
      cbn [sign_bit] in SB; subst u; [reflexivity|].
    apply (ltb_zero_value (S754_finite true p q) eq_refl).
    rewrite F2Q_finite_neg.
    assert (H : (0 < inject_Z (Zpos p) * Qpow2 q)%Q).
    { apply Qmult_lt_0_compat; [|apply Qpow2_pos].
      change 0%Q with (inject_Z 0). rewrite <- Zlt_Qlt. lia. }
    lra. }
  destruct x as [s|s| |s m e]; destruct y as [t|t| |t n f];
    try (apply Main; reflexivity);
    try discriminate L;
    destruct s; destruct t; try discriminate L; reflexivity.
Qed.

(** C10, amended: with I = 120, Da = 8, PI = 10+00.00 the P.C. station is
    negative and the script completes; for every negative distance down to
    -2^52 ft [ft_to_station] does not fail: the group is [floor(x/100)],
    negative, and the offset is the float nearest to [x - 100 * group],
    between 0 and 100 inclusive (100 is reached by rounding when x is just
    below a multiple of 100), never negative; and whenever the tangent
    length T exceeds the P.I. distance, the P.C. station [PI_ft - T] is
    below zero. *)
Theorem negative_station_is_formatted :
  (exists r,
     curve_webapp libm_samples 100 (of_Z 120) (of_Z 8) "10+00.00" 50
       = Ok (Rendered r) /\
     (F2Q (ce_PC (r_elements r)) < 0)%Q /\
     r_PC r = "-3+59.51"%string) /\
  (forall x : f64,
     valid x -> finite x -> (F2Q x < 0)%Q ->
     (- inject_Z (2 ^ 52) <= F2Q x)%Q ->
     let i := Qfloor (F2Q x / 100) in
     let r := sub x (of_Z (i * 100)) in
     i < 0 /\
     show_int i = "-"%char :: show_nat (- i) /\
     finite r /\ sign_bit r = false /\
     (F2Q r == rnd (F2Q x - inject_Z i * 100))%Q /\
     (0 <= F2Q r <= 100)%Q /\
     ft_to_station (Float x)
     = Ok (string_of_list_ascii
             (show_int i ++ "+"%char :: render_05_2f (F2Q r)))) /\
  (forall PI_ft T : f64,
     valid PI_ft -> valid T -> ltb PI_ft T = true ->
     ltb (sub PI_ft T) pos_zero = true).
Proof.
  split.
  - eexists. split; [vm_compute; reflexivity|].
    cbn [r_elements r_PC ce_PC]. split; reflexivity.
  - split; [exact ft_to_station_negative | exact sub_negative].
Qed.

(** C10, on -240.5 ft; and on a P.I. at 1000 ft with a tangent of
    1240 ft. *)
Lemma negative_station_is_formatted_witness :
  ft_to_station (Float (Q2F false (- (481 # 2)))) = Ok "-3+59.50"%string /\
  ltb (sub (of_Z 1000) (of_Z 1240)) pos_zero = true.
Proof.
  split; [|apply (proj2 (proj2 negative_station_is_formatted));
           vm_compute; reflexivity].
  assert (V : valid (Q2F false (- (481 # 2)))) by (vm_compute; reflexivity).
  assert (F : finite (Q2F false (- (481 # 2)))) by (vm_compute; reflexivity).
  assert (N : (F2Q (Q2F false (- (481 # 2))) < 0)%Q) by reflexivity.
  assert (B : (- inject_Z (2 ^ 52) <= F2Q (Q2F false (- (481 # 2))))%Q)
    by (vm_compute; intros C; discriminate).
  destruct (proj1 (proj2 negative_station_is_formatted)
              (Q2F false (- (481 # 2))) V F N B)
    as [_ [_ [_ [_ [_ [_ H]]]]]].
  rewrite H. reflexivity.
Defined.

(** C10, counterexample: with I = 1e-20, Da = 8, PI = 0+00.00 the tangent
    length is 6.25e-20 ft and P.C. is -6.25e-20 ft; the group is -1 and
    the offset [PC + 100] rounds to 100.0, which is not below 100; the run
    completes and shows P.C. as "-1+100.00". *)
Lemma ft_to_station_offset_reaches_100 :
  exists r,
    curve_webapp libm_samples 100 f1em20 (of_Z 8) "0+00.00" 100
      = Ok (Rendered r) /\
    (F2Q (ce_PC (r_elements r)) < 0)%Q /\
    Qfloor (F2Q (ce_PC (r_elements r)) / 100) = -1 /\
    (F2Q (sub (ce_PC (r_elements r)) (of_Z (-1 * 100))) == 100)%Q /\
    ~ (F2Q (sub (ce_PC (r_elements r)) (of_Z (-1 * 100))) < 100)%Q /\
    r_PC r = "-1+100.00"%string.
Proof.
  eexists. split; [vm_compute; reflexivity|].
  cbn [r_elements r_PC ce_PC]. split; [reflexivity|].
  split; [vm_compute; reflexivity|]. split; [vm_compute; reflexivity|].
  split; [|reflexivity].
  vm_compute. discriminate.
Qed.

(** ** The station round trip (claim C5) *)

Lemma two_digits_spec (j : Z) :
  0 <= j < 100 ->
  Forall (fun c => is_digit c = true) (two_digits j) /\
  digits_val (two_digits j) = j.
Proof.
  intros H.
  assert (H1 : 0 <= j / 10 <= 9).
  { split; [apply Z.div_pos; lia|].
    assert (j / 10 < 10) by (apply Z.div_lt_upper_bound; lia). lia. }
  assert (H2 : 0 <= j mod 10 <= 9) by (pose proof (Z.mod_pos_bound j 10); lia).
  unfold two_digits. split.
  - repeat constructor; apply digit_char_is_digit; assumption.
  - unfold digits_val. cbn [fold_left].
    rewrite !digit_val_digit_char by assumption.
    pose proof (Z.div_mod j 10 ltac:(lia)). lia.
Qed.

(** Zero padding of a number below 100 followed by three characters. *)
Lemma zero_pad_two_digits (j : Z) (x y z : ascii) :
  0 <= j < 100 ->
  zero_pad 5 false (show_nat j ++ [x; y; z]) = two_digits j ++ [x; y; z].
Proof.
  intros H. rewrite <- (Z2Nat.id j) by lia.
  assert (Hn : (Z.to_nat j < 100)%nat) by lia.
  generalize dependent (Z.to_nat j). clear H. intros n Hn.
  do 100 (destruct n as [|n]; [reflexivity|]). lia.
Qed.

Lemma rne_near (y : Q) (k : Z) :
  (Qabs (y - inject_Z k) < 1 # 2)%Q -> rne y = k.
Proof.
  intros H. pose proof (rne_error y) as E.
  apply Qabs_Qlt_condition in H. apply Qabs_Qle_condition in E.
  assert (A : (inject_Z (rne y) < inject_Z (k + 1))%Q)
    by (rewrite inject_Z_plus; change (inject_Z 1) with 1%Q; lra).
  assert (B : (inject_Z k < inject_Z (rne y + 1))%Q)
    by (rewrite inject_Z_plus; change (inject_Z 1) with 1%Q; lra).
  rewrite <- Zlt_Qlt in A, B. lia.
Qed.

Lemma render_05_2f_hundredths (r : Q) (k : Z) :
  0 <= k < 10000 -> (Qabs (r * 100 - inject_Z k) < 1 # 2)%Q ->
  render_05_2f r = two_digits (k / 100) ++ "."%char :: two_digits (k mod 100).
Proof.
  intros Hk H. unfold render_05_2f. rewrite (rne_near _ k H).
  assert (Hj : 0 <= k / 100 < 100).
  { split; [apply Z.div_pos; lia | apply Z.div_lt_upper_bound; lia]. }
  apply (zero_pad_two_digits (k / 100) "."%char _ _ Hj).
Qed.

(** C5, amended: for a station text in display form (a group without
    superfluous zeros below 10^11, two digits, a point, two digits),
    formatting the parsed value gives the text back. *)
Theorem station_round_trip (g k : Z) :
  0 <= g < 10 ^ 11 -> 0 <= k < 10000 ->
  let s := string_of_list_ascii (station_text g k) in
  exists x, station_to_ft s = Ok x /\ ft_to_station (Float x) = Ok s.
Proof.
  intros Hg Hk s.
  destruct (show_nat_spec g ltac:(lia)) as [Ng [Fg Vg]].
  assert (Hj : 0 <= k / 100 < 100).
  { split; [apply Z.div_pos; lia | apply Z.div_lt_upper_bound; lia]. }
  assert (Hm : 0 <= k mod 100 < 100) by (apply Z.mod_pos_bound; lia).
  destruct (two_digits_spec (k / 100) Hj) as [Fb Vb].
  destruct (two_digits_spec (k mod 100) Hm) as [Fc Vc].
  pose proof (station_to_ft_numeral (show_nat g) (two_digits (k / 100))
                (two_digits (k mod 100)) Fg Fb Fc Ng) as Ep.
  fold (station_text g k) in Ep. fold s in Ep.
  (* the number read *)
  set (N := g * 10000 + k).
  assert (EN : digits_val (show_nat g ++ two_digits (k / 100)
                           ++ two_digits (k mod 100)) = N).
  { rewrite !digits_val_app, Vg, Vb, Vc. cbn [List.length app two_digits].
    change (Z.of_nat 2) with 2. change (Z.of_nat (2 + 2)) with 4.
    pose proof (Z.div_mod k 100 ltac:(lia)). unfold N. lia. }
  rewrite EN in Ep. cbn [List.length two_digits] in Ep.
  change (Qpow10 (0 - Z.of_nat 2)) with (1 # 100)%Q in Ep.
  set (q := (inject_Z N * (1 # 100))%Q) in *.
  set (x := Q2F false q) in *.
  exists x. split; [exact Ep|].
  (* the value is within 2^-10 of N / 100 *)
  assert (HgQ : (0 <= inject_Z g <= 99999999999)%Q).
  { split.
    - change 0%Q with (inject_Z 0). rewrite <- Zle_Qle. lia.
    - change 99999999999%Q with (inject_Z 99999999999). rewrite <- Zle_Qle. lia. }
  assert (HkQ : (0 <= inject_Z k <= 9999)%Q).
  { split.
    - change 0%Q with (inject_Z 0). rewrite <- Zle_Qle. lia.
    - change 9999%Q with (inject_Z 9999). rewrite <- Zle_Qle. lia. }
  assert (Eq : (q == inject_Z g * 100 + inject_Z k * (1 # 100))%Q).
  { unfold q, N. rewrite inject_Z_plus, inject_Z_mult.
    change (inject_Z 10000) with 10000%Q. ring. }
  assert (Q0 : (0 <= q)%Q) by (rewrite Eq; lra).
  assert (B44 : (Qabs q < Qpow2 44)%Q).
  { rewrite Qabs_pos by exact Q0. change (Qpow2 44) with 17592186044416%Q.
    rewrite Eq. lra. }
  assert (B1023 : (Qabs q < Qpow2 1023)%Q).
  { eapply Qlt_le_trans; [exact B44|]. apply Qpow2_le. lia. }
  destruct (Q2F_small false q B1023) as [Fx Vx]. fold x in Fx, Vx.
  pose proof (rnd_error_below q 44 B44 ltac:(unfold emin; lia)) as Err.
  change (Qpow2 (44 - 54)) with (1 # 1024)%Q in Err.
  apply Qabs_Qle_condition in Err.
  assert (Lo : (inject_Z g * 100 <= F2Q x)%Q).
  { rewrite Vx.
    assert (E100 : (rnd (inject_Z (g * 100)) == inject_Z g * 100)%Q).
    { rewrite rnd_Z by lia. rewrite inject_Z_mult. reflexivity. }
    rewrite <- E100. apply rnd_mono. rewrite inject_Z_mult, Eq.
    change (inject_Z 100) with 100%Q. lra. }
  assert (Vx' : (F2Q x - q <= 1 # 1024)%Q /\ (- (1 # 1024) <= F2Q x - q)%Q).
  { rewrite Vx. lra. }
  destruct Vx' as [Up Dn].
  (* apply the formatting theorem *)
  assert (Sx : sign_bit x = false) by (apply sign_bit_Q2F_false; exact Q0).
  assert (Bx : (F2Q x <= inject_Z (2 ^ 52))%Q).
  { change (inject_Z (2 ^ 52)) with 4503599627370496%Q. rewrite Eq in Up. lra. }
  destruct (ft_to_station_group_offset x (Q2F_valid false q) Fx Sx Bx)
    as [_ [_ Eft]].
  rewrite Eft.
  assert (Ei : Qfloor (F2Q x / 100) = g).
  { apply Qfloor_unique.
    - apply Qle_shift_div_l; [reflexivity | exact Lo].
    - apply Qlt_shift_div_r; [reflexivity|]. rewrite Eq in Up. lra. }
  rewrite Ei.
  assert (Er : render_05_2f (F2Q x - inject_Z g * 100)
               = two_digits (k / 100) ++ "."%char :: two_digits (k mod 100)).
  { apply (render_05_2f_hundredths _ k Hk).
    apply Qabs_Qlt_condition. rewrite Eq in Up, Dn. split; lra. }
  rewrite Er. unfold s, station_text, show_int.
  destruct (Z.ltb_spec g 0); [lia | reflexivity].
Qed.

(** C5, on the text 10+00.00. *)
Lemma station_round_trip_witness :
  exists x, station_to_ft "10+00.00" = Ok x /\
            ft_to_station (Float x) = Ok "10+00.00"%string.
Proof.
  exact (station_round_trip 10 0 ltac:(lia) ltac:(lia)).
Defined.

(** C5, counterexample: "10+5.25" is an integer, a plus sign and a decimal
    with two fractional digits; it is read as 105.25 ft and formatted as
    "1+05.25".  A station in display form beyond 2^53 ft loses its
    hundredths: "90071992547409+92.01" comes back as
    "90071992547409+92.00". *)
Lemma station_round_trip_fails :
  (exists x,
     station_to_ft "10+5.25" = Ok x /\
     (F2Q x == 10525 # 100)%Q /\
     ft_to_station (Float x) = Ok "1+05.25"%string /\
     "1+05.25"%string <> "10+5.25"%string) /\
  (exists x,
     station_to_ft "90071992547409+92.01" = Ok x /\
     ft_to_station (Float x) = Ok "90071992547409+92.00"%string /\
     "90071992547409+92.00"%string <> "90071992547409+92.01"%string).
Proof.
  split.
  - eexists. split; [vm_compute; reflexivity|].
    split; [vm_compute; reflexivity|].
    split; [vm_compute; reflexivity | discriminate].
  - eexists. split; [vm_compute; reflexivity|].
    split; [vm_compute; reflexivity | discriminate].
Qed.

(** ** Reading a station (claim C8) *)

(** A text [station_to_ft] accepts consists of accepted characters. *)
Lemma station_to_ft_accepted (s : string) (x : f64) :
  station_to_ft s = Ok x -> all_accepted (list_ascii_of_string s).
Proof.
  unfold station_to_ft. intros H. apply float_of_string_accepted in H.
  rewrite list_ascii_of_string_of_list_ascii in H.
  apply remove_char_accepted. exact H.
Qed.

(** [station_to_ft] returns a float or raises [ValueError]. *)
Lemma station_to_ft_outcomes (s : string) :
  (exists x, station_to_ft s = Ok x) \/ station_to_ft s = Raise ValueError.
Proof. unfold station_to_ft. apply float_of_string_outcomes. Qed.

(** C8, amended: on digits, a plus sign, digits, a point and digits the
    plus sign is dropped and the remaining text is read as one decimal
    numeral, correctly rounded (literal concatenation); the only failure of
    [station_to_ft] is Python's [ValueError]; and an ASCII text with a
    character other than a digit, [+ - . _ e E], white space or a letter of
    [inf], [infinity], [nan] is rejected with it.  (Outside ASCII, [float]
    also reads the decimal digits and the white space of Unicode; the
    last part says nothing of such texts.) *)
Theorem station_to_ft_reads_one_numeral :
  (forall a b c : chars,
     Forall (fun d => is_digit d = true) a ->
     Forall (fun d => is_digit d = true) b ->
     Forall (fun d => is_digit d = true) c ->
     a <> [] ->
     station_to_ft (string_of_list_ascii (a ++ "+"%char :: b ++ "."%char :: c))
     = Ok (Q2F false (inject_Z (digits_val (a ++ b ++ c))
                      * Qpow10 (0 - Z.of_nat (List.length c))))) /\
  (forall s : string,
     (exists x, station_to_ft s = Ok x) \/ station_to_ft s = Raise ValueError) /\
  (forall s : string,
     isascii (list_ascii_of_string s) = true ->
     ~ all_accepted (list_ascii_of_string s) ->
     station_to_ft s = Raise ValueError).
Proof.
  split; [exact station_to_ft_numeral|].
  split; [exact station_to_ft_outcomes|].
  intros s _ N. destruct (station_to_ft_outcomes s) as [[x E]|E]; [|exact E].
  exfalso. apply N. apply (station_to_ft_accepted s x E).
Qed.

(** C8, on the text 10+00.00: 1000 ft; and on the ASCII text 10+0x.00,
    where x is not an accepted character: [ValueError]. *)
Lemma station_to_ft_reads_one_numeral_witness :
  station_to_ft "10+00.00" = Ok (of_Z 1000) /\
  station_to_ft "10+0x.00" = Raise ValueError.
Proof.
  split.
  - pose proof (proj1 station_to_ft_reads_one_numeral
                  (list_ascii_of_string "10") (list_ascii_of_string "00")
                  (list_ascii_of_string "00")
                  ltac:(repeat constructor) ltac:(repeat constructor)
                  ltac:(repeat constructor) ltac:(discriminate)) as H.
    etransitivity; [exact H|]. vm_compute. reflexivity.
  - apply (proj2 (proj2 station_to_ft_reads_one_numeral)).
    + reflexivity.
    + intros A. unfold all_accepted in A. rewrite Forall_forall in A.
      specialize (A "x"%char). vm_compute in A.
      assert (C : true = true -> false = true).
      { intros _. apply A. right. right. right. right. left. reflexivity. }
      specialize (C eq_refl). discriminate C.
Defined.

(** C8, counterexample: texts that are not an integer, a plus sign and a
    decimal are read all the same, and the failure raised is
    [ValueError]. *)
Lemma station_to_ft_accepts_other_shapes :
  station_to_ft "1000" = Ok (of_Z 1000) /\
  station_to_ft "1e3" = Ok (of_Z 1000) /\
  station_to_ft " -1_0+0 " = Ok (of_Z (-100)) /\
  station_to_ft "+inf+" = Ok pos_inf /\
  station_to_ft "ten+00.00" = Raise ValueError /\
  exn_name ValueError <> "FormatError"%string.
Proof. vm_compute. repeat split; try reflexivity. discriminate. Qed.

(** ** The deflection angles (claim C3) *)

Lemma F2Q_f200 : (F2Q f200 == 200)%Q.
Proof. reflexivity. Qed.

(** [deflection_at] computes the formula whenever the station converts to
    a float. *)
Lemma deflection_at_formula (Da_deg PC_station : f64) (stn : num) :
  to_float stn = Ok (num_float stn) ->
  deflection_at Da_deg PC_station stn
  = Ok (deflection_formula Da_deg PC_station stn).
Proof.
  intros H. unfold deflection_at, num_sub_float. rewrite H. reflexivity.
Qed.

Lemma deflections_formula (Da_deg PC_station : f64) (stations : list num) :
  Forall (fun stn => to_float stn = Ok (num_float stn)) stations ->
  deflections Da_deg PC_station stations
  = Ok (map (deflection_formula Da_deg PC_station) stations).
Proof.
  unfold deflections. induction 1 as [|stn l H _ IH]; [reflexivity|].
  cbn [mapM map]. rewrite (deflection_at_formula _ _ _ H). cbn [bind].
  rewrite IH. reflexivity.
Qed.

(** The formula is monotone in the station. *)
Lemma deflection_value_mono (da pc v v' : Q) :
  (0 <= da)%Q -> (v <= v')%Q ->
  (deflection_value da pc v <= deflection_value da pc v')%Q.
Proof.
  intros Hda Hv. unfold deflection_value. apply rnd_mono.
  apply Qmult_le_compat_r; [|discriminate].
  apply rnd_mono. rewrite !(Qmult_comm da).
  apply Qmult_le_compat_r; [|exact Hda].
  apply rnd_mono. lra.
Qed.

Lemma deflection_value_proper (da pc v v' : Q) :
  (v == v')%Q -> (deflection_value da pc v == deflection_value da pc v')%Q.
Proof.
  intros E. unfold deflection_value. apply rnd_proper.
  apply Qmult_comp; [|reflexivity]. apply rnd_proper.
  apply Qmult_comp; [reflexivity|]. apply rnd_proper. rewrite E. reflexivity.
Qed.

(** The deflection at a float station at most 2^31 ft after P.C. *)
Lemma deflection_float (Da_deg PC_station x : f64) :
  finite Da_deg -> finite PC_station -> finite x ->
  (0 < F2Q Da_deg <= 100)%Q ->
  (0 <= F2Q x - F2Q PC_station <= Qpow2 31)%Q ->
  finite (deflection_formula Da_deg PC_station (Float x)) /\
  (F2Q (deflection_formula Da_deg PC_station (Float x))
   == deflection_value (F2Q Da_deg) (F2Q PC_station) (F2Q x))%Q.
Proof.
  intros FDa FPC Fx HDa Hx.
  unfold deflection_formula, deflection_value. cbn [num_float].
  set (da := F2Q Da_deg) in *. set (pc := F2Q PC_station) in *.
  (* the subtraction *)
  destruct (sub_finite_eq x PC_station Fx FPC) as [s0 Es]. fold pc in Es.
  assert (Bs : (Qabs (F2Q x - pc) <= Qpow2 31)%Q).
  { rewrite Qabs_pos by lra. lra. }
  assert (Bs' : (Qabs (F2Q x - pc) < Qpow2 32)%Q).
  { eapply Qle_lt_trans; [exact Bs|]. apply Qpow2_lt. lia. }
  destruct (Q2F_below s0 _ 32 Bs' ltac:(unfold emin; lia)) as [Fs [Vs _]].
  rewrite <- Es in Fs, Vs.
  pose proof (rnd_within_pow2 _ 31 ltac:(unfold emin; lia) Bs) as Rs.
  (* the product *)
  destruct (mul_finite_eq Da_deg (sub x PC_station) FDa Fs) as [s1 Em].
  fold da in Em.
  assert (Bm : (Qabs (da * F2Q (sub x PC_station)) <= 100 * Qpow2 31)%Q).
  { apply Qabs_mult_le; [rewrite Qabs_pos; lra|]. rewrite Vs. exact Rs. }
  assert (Bm38 : (Qabs (da * F2Q (sub x PC_station)) <= Qpow2 38)%Q).
  { eapply Qle_trans; [exact Bm|]. discriminate. }
  assert (Bm' : (Qabs (da * F2Q (sub x PC_station)) < Qpow2 39)%Q).
  { eapply Qle_lt_trans; [exact Bm38|]. apply Qpow2_lt. lia. }
  destruct (Q2F_below s1 _ 39 Bm' ltac:(unfold emin; lia)) as [Fm [Vm _]].
  rewrite <- Em in Fm, Vm.
  pose proof (rnd_within_pow2 _ 38 ltac:(unfold emin; lia) Bm38) as Rm.
  (* the quotient *)
  destruct (div_finite_eq (mul Da_deg (sub x PC_station)) f200 Fm eq_refl eq_refl)
    as [s2 Ed].
  assert (Bd : (Qabs (F2Q (mul Da_deg (sub x PC_station)) / F2Q f200)
                < Qpow2 39)%Q).
  { rewrite F2Q_f200. unfold Qdiv. rewrite Qabs_Qmult, Vm.
    change (Qabs (/ 200)) with (1 # 200)%Q.
    pose proof (Qpow2_lt 38 39 ltac:(lia)).
    set (r := Qabs (rnd (da * F2Q (sub x PC_station)))) in *.
    assert (0 <= r)%Q by apply Qabs_nonneg. lra. }
  destruct (Q2F_below s2 _ 39 Bd ltac:(unfold emin; lia)) as [Fd [Vd _]].
  rewrite <- Ed in Fd, Vd.
  split; [exact Fd|].
  rewrite Vd. apply rnd_proper. rewrite F2Q_f200.
  apply Qmult_comp; [|reflexivity]. rewrite Vm. apply rnd_proper.
  apply Qmult_comp; [reflexivity | exact Vs].
Qed.

(** The first stake is not before P.C. *)
Lemma first_stake_after_PC (PC_station : f64) (stake_step : Z) :
  valid PC_station -> finite PC_station -> 0 < stake_step <= 100 ->
  (Qabs (F2Q PC_station) <= Qpow2 30)%Q ->
  (F2Q PC_station
   <= inject_Z (Qceiling (F2Q (div (add PC_station (of_Z stake_step))
                                   (of_Z stake_step))) * stake_step))%Q.
Proof.
  intros V F Hs B.
  destruct (first_quotient_finite PC_station stake_step V F Hs)
    as [_ [Va [_ Vd]]].
  set (y := F2Q (add PC_station (of_Z stake_step))) in *.
  set (q := F2Q (div (add PC_station (of_Z stake_step)) (of_Z stake_step))) in *.
  set (pc := F2Q PC_station) in *.
  assert (HsQ : (1 <= inject_Z stake_step <= 100)%Q).
  { split.
    - change 1%Q with (inject_Z 1); rewrite <- Zle_Qle; lia.
    - change 100%Q with (inject_Z 100); rewrite <- Zle_Qle; lia. }
  set (s := inject_Z stake_step) in *.
  apply Qabs_Qle_condition in B. change (Qpow2 30) with 1073741824%Q in B.
  (* the sum *)
  assert (Ba : (Qabs (pc + s) < Qpow2 31)%Q).
  { change (Qpow2 31) with 2147483648%Q. apply Qabs_Qlt_condition. split; lra. }
  pose proof (rnd_error_below _ 31 Ba ltac:(unfold emin; lia)) as Ea.
  rewrite <- Va in Ea. change (Qpow2 (31 - 54)) with (1 # 8388608)%Q in Ea.
  apply Qabs_Qle_condition in Ea.
  (* the quotient *)
  assert (Hinv : (0 < / s <= 1)%Q).
  { split; [apply Qinv_lt_0_compat; lra|]. apply Qle_shift_inv_r; lra. }
  assert (Ey : (y / s * s == y)%Q) by (field; lra).
  assert (Bq : (Qabs (y / s) < Qpow2 32)%Q).
  { change (Qpow2 32) with 4294967296%Q. unfold Qdiv.
    rewrite Qabs_Qmult. rewrite (Qabs_pos (/ s)) by lra.
    assert (By : (Qabs y <= 2147483648)%Q)
      by (apply Qabs_Qle_condition; split; lra).
    pose proof (Qabs_nonneg y) as Y0.
    apply (Qle_lt_trans _ (Qabs y * 1)); [|lra].
    rewrite !(Qmult_comm (Qabs y)). apply Qmult_le_compat_r; lra. }
  pose proof (rnd_error_below _ 32 Bq ltac:(unfold emin; lia)) as Eq.
  rewrite <- Vd in Eq. change (Qpow2 (32 - 54)) with (1 # 4194304)%Q in Eq.
  apply Qabs_Qle_condition in Eq.
  (* the ceiling *)
  pose proof (Qle_ceiling q) as Hc.
  rewrite inject_Z_mult. fold s.
  set (c := inject_Z (Qceiling q)) in *.
  assert (H1 : (q * s <= c * s)%Q) by (apply Qmult_le_compat_r; lra).
  assert (H2 : ((y / s - (1 # 4194304)) * s <= q * s)%Q)
    by (apply Qmult_le_compat_r; lra).
  assert (H3 : ((y / s - (1 # 4194304)) * s == y - (1 # 4194304) * s)%Q)
    by (rewrite <- Ey at 2; ring).
  lra.
Qed.

(** The values of the station list never decrease. *)
Lemma station_values_sorted (step : Z) (pt b : Q) (n : nat) :
  0 < step -> (b <= pt)%Q ->
  forall (first : Z) (lo : Q),
  (lo <= inject_Z first)%Q -> (lo <= pt)%Q ->
  (forall k, (k < n)%nat -> (inject_Z (first + Z.of_nat k * step) < b)%Q) ->
  values_sorted (lo :: map inject_Z (progression first step n) ++ [pt]).
Proof.
  intros Hs Hb. induction n as [|n IH]; intros first lo Hlo Hpt Hlt.
  - cbn. split; [exact Hpt | exact I].
  - rewrite progression_succ. cbn [map app].
    apply values_sorted_cons. split; [exact Hlo|].
    pose proof (Hlt 0%nat ltac:(lia)) as H0.
    replace (first + Z.of_nat 0 * step) with first in H0 by lia.
    apply IH.
    + rewrite <- Zle_Qle. lia.
    + lra.
    + intros k Hk. specialize (Hlt (S k) ltac:(lia)).
      replace (first + step + Z.of_nat k * step)
        with (first + Z.of_nat (S k) * step) by lia. exact Hlt.
Qed.

(** A well-formed finite float is its own rounding. *)
Lemma rnd_of_float (x : f64) : valid x -> finite x -> (rnd (F2Q x) == F2Q x)%Q.
Proof.
  intros V F. destruct (valid_finite_repr x V F) as [n [e [Hn [He E]]]].
  apply (rnd_exact _ n e); [lia | exact He | exact E].
Qed.

(** The arc length [L = 100 * I / Da]: [Da * L] is within 2^-16 of
    [100 * I]. *)
Lemma arc_length_value (I_deg Da_deg : f64) :
  finite I_deg -> finite Da_deg ->
  (0 < F2Q I_deg <= 180)%Q -> (0 < F2Q Da_deg <= 100)%Q ->
  let L := div (mul f100 I_deg) Da_deg in
  finite L -> (F2Q L <= Qpow2 30)%Q ->
  valid L /\ (0 <= F2Q L)%Q /\
  (Qabs (F2Q Da_deg * F2Q L - 100 * F2Q I_deg) <= 1 # 65536)%Q.
Proof.
  intros FI FDa HI HDa L FL HL.
  set (i := F2Q I_deg) in *. set (da := F2Q Da_deg) in *.
  (* 100 * I *)
  destruct (mul_finite_eq f100 I_deg eq_refl FI) as [s0 Em]. fold i in Em.
  assert (Bm : (Qabs (F2Q f100 * i) < Qpow2 15)%Q).
  { rewrite F2Q_f100. change (Qpow2 15) with 32768%Q.
    rewrite Qabs_pos by lra. lra. }
  destruct (Q2F_below s0 _ 15 Bm ltac:(unfold emin; lia)) as [Fm [Vm Rm]].
  rewrite <- Em in Fm, Vm. rewrite <- Vm in Rm.
  change (Qpow2 (15 - 54)) with (1 # 549755813888)%Q in Rm.
  rewrite F2Q_f100 in Rm. apply Qabs_Qle_condition in Rm.
  set (m1 := F2Q (mul f100 I_deg)) in *.
  assert (M0 : (0 <= m1)%Q).
  { rewrite Vm. apply rnd_sign_nonneg. rewrite F2Q_f100. lra. }
  (* the quotient *)
  assert (ZDa : is_zero Da_deg = false)
    by (apply is_zero_false_of_value; fold da; lra).
  destruct (div_finite_eq (mul f100 I_deg) Da_deg Fm FDa ZDa) as [s1 Ed].
  fold L in Ed. fold m1 in Ed. fold da in Ed.
  assert (VL : valid L) by (rewrite Ed; apply Q2F_valid).
  assert (Vl : (F2Q L == rnd (m1 / da))%Q).
  { rewrite Ed. apply Q2F_value. rewrite <- Ed. exact FL. }
  assert (Q0 : (0 <= m1 / da)%Q) by (apply Qle_shift_div_l; lra).
  assert (L0 : (0 <= F2Q L)%Q) by (rewrite Vl; apply rnd_sign_nonneg; exact Q0).
  rewrite Vl in HL.
  pose proof (rnd_below_inv _ 30 ltac:(unfold emin; lia) Q0 HL) as Bq.
  change (30 + 1) with 31 in Bq.
  assert (Bq' : (Qabs (m1 / da) < Qpow2 31)%Q) by (rewrite Qabs_pos; assumption).
  pose proof (rnd_error_below _ 31 Bq' ltac:(unfold emin; lia)) as Rq.
  rewrite <- Vl in Rq. change (Qpow2 (31 - 54)) with (1 # 8388608)%Q in Rq.
  split; [exact VL|]. split; [exact L0|].
  (* Da * L *)
  assert (Eq : (da * F2Q L - 100 * i
                == da * (F2Q L - m1 / da) + (m1 - 100 * i))%Q) by (field; lra).
  rewrite Eq.
  assert (P : (Qabs (da * (F2Q L - m1 / da)) <= 100 * (1 # 8388608))%Q).
  { apply Qabs_mult_le; [rewrite Qabs_pos; lra | exact Rq]. }
  apply Qabs_Qle_condition in P. apply Qabs_Qle_condition.
  set (u := (da * (F2Q L - m1 / da))%Q) in *. split; lra.
Qed.

(** P.T. and the deflection there. *)
Lemma final_deflection_value (I_deg Da_deg PC_station : f64) :
  finite I_deg -> finite Da_deg -> valid PC_station -> finite PC_station ->
  (0 < F2Q I_deg <= 180)%Q -> (0 < F2Q Da_deg <= 100)%Q ->
  (Qabs (F2Q PC_station) <= Qpow2 30)%Q ->
  let L := div (mul f100 I_deg) Da_deg in
  let PT_station := add PC_station L in
  finite L -> (F2Q L <= Qpow2 30)%Q ->
  valid PT_station /\ finite PT_station /\
  (0 <= F2Q PT_station - F2Q PC_station <= Qpow2 31)%Q /\
  within (1 # 1000000)
         (deflection_value (F2Q Da_deg) (F2Q PC_station) (F2Q PT_station))
         (F2Q I_deg / 2).
Proof.
  intros FI FDa VPC FPC HI HDa HPC L PT_station FL HL.
  destruct (arc_length_value I_deg Da_deg FI FDa HI HDa FL HL) as [VL [L0 E1]].
  fold L in VL, L0, E1.
  set (i := F2Q I_deg) in *. set (da := F2Q Da_deg) in *.
  set (pc := F2Q PC_station) in *. set (l := F2Q L) in *.
  change (Qpow2 30) with 1073741824%Q in HPC, HL.
  change (Qpow2 31) with 2147483648%Q.
  apply Qabs_Qle_condition in HPC.
  (* P.T. *)
  destruct (add_finite_eq PC_station L FPC FL) as [s0 Ea].
  fold PT_station in Ea. fold pc in Ea. fold l in Ea.
  assert (Ba : (Qabs (pc + l) < Qpow2 32)%Q).
  { change (Qpow2 32) with 4294967296%Q. apply Qabs_Qlt_condition. split; lra. }
  destruct (Q2F_below s0 _ 32 Ba ltac:(unfold emin; lia)) as [Fa [Va Ra]].
  rewrite <- Ea in Fa, Va. rewrite <- Va in Ra.
  change (Qpow2 (32 - 54)) with (1 # 4194304)%Q in Ra.
  apply Qabs_Qle_condition in Ra.
  set (pt := F2Q PT_station) in *.
  assert (Hle : (pc <= pt)%Q).
  { rewrite Va. unfold pc at 1. rewrite <- (rnd_of_float PC_station VPC FPC).
    fold pc. apply rnd_mono. lra. }
  split; [apply add_valid; assumption|]. split; [exact Fa|].
  split; [split; lra|].
  (* the subtraction *)
  unfold within, deflection_value.
  assert (Bs : (Qabs (pt - pc) < Qpow2 31)%Q).
  { change (Qpow2 31) with 2147483648%Q. apply Qabs_Qlt_condition. split; lra. }
  pose proof (rnd_error_below _ 31 Bs ltac:(unfold emin; lia)) as Rs.
  change (Qpow2 (31 - 54)) with (1 # 8388608)%Q in Rs.
  apply Qabs_Qle_condition in Rs.
  assert (A0 : (0 <= rnd (pt - pc))%Q) by (apply rnd_sign_nonneg; lra).
  set (a := rnd (pt - pc)) in *.
  (* the product *)
  assert (Hal : (Qabs (a - l) <= 3 # 8388608)%Q)
    by (apply Qabs_Qle_condition; split; lra).
  assert (Pal : (Qabs (da * (a - l)) <= 100 * (3 # 8388608))%Q).
  { apply Qabs_mult_le; [rewrite Qabs_pos; lra | exact Hal]. }
  assert (Pa : (Qabs (da * a) <= 100 * 1073741825)%Q).
  { apply Qabs_mult_le; [rewrite Qabs_pos; lra|].
    apply Qabs_Qle_condition. split; lra. }
  assert (Eal : (da * (a - l) == da * a - da * l)%Q) by ring.
  rewrite Eal in Pal. clear Eal.
  set (u := (da * a)%Q) in *. set (w := (da * l)%Q) in *.
  apply Qabs_Qle_condition in Pal. apply Qabs_Qle_condition in Pa.
  apply Qabs_Qle_condition in E1.
  assert (Bu : (Qabs u < Qpow2 37)%Q).
  { change (Qpow2 37) with 137438953472%Q. apply Qabs_Qlt_condition. split; lra. }
  pose proof (rnd_error_below _ 37 Bu ltac:(unfold emin; lia)) as Ru.
  change (Qpow2 (37 - 54)) with (1 # 131072)%Q in Ru.
  apply Qabs_Qle_condition in Ru.
  set (p := rnd u) in *.
  (* the quotient *)
  assert (Bp : (Qabs (p / 200) < Qpow2 30)%Q).
  { change (Qpow2 30) with 1073741824%Q. apply Qabs_Qlt_condition.
    unfold Qdiv. change (/ 200)%Q with (1 # 200)%Q. split; lra. }
  pose proof (rnd_error_below _ 30 Bp ltac:(unfold emin; lia)) as Rp.
  change (Qpow2 (30 - 54)) with (1 # 16777216)%Q in Rp.
  apply Qabs_Qle_condition in Rp.
  set (d := rnd (p / 200)) in *.
  unfold Qdiv in *. change (/ 200)%Q with (1 # 200)%Q in *.
  change (/ 2)%Q with (1 # 2)%Q.
  apply Qabs_Qle_condition. split; lra.
Qed.

Lemma deflection_in_range (Da_deg PC_station : f64) (pt : Q) (stn : num) :
  finite Da_deg -> finite PC_station ->
  (0 < F2Q Da_deg <= 100)%Q ->
  (pt - F2Q PC_station <= Qpow2 31)%Q ->
  station_in_range (F2Q PC_station) pt stn ->
  (F2Q (deflection_formula Da_deg PC_station stn)
   == deflection_value (F2Q Da_deg) (F2Q PC_station) (num_value stn))%Q.
Proof.
  intros FDa FPC HDa Hpt [_ [F [E [R1 R2]]]].
  change (deflection_formula Da_deg PC_station stn)
    with (deflection_formula Da_deg PC_station (Float (num_float stn))).
  destruct (deflection_float Da_deg PC_station (num_float stn) FDa FPC F HDa)
    as [_ V].
  - rewrite E. split; lra.
  - rewrite V. apply deflection_value_proper. exact E.
Qed.

(** C3, amended: each deflection is [Da * (stn - PC) / 200] in binary64
    arithmetic.  When P.C. is within 2^30 ft of the origin and the arc
    length is at most 2^30 ft (I up to 180, Da up to 100), the sequence
    never decreases and its last element is within 1e-6 of I/2; at larger
    magnitudes adding L to P.C. absorbs part of L. *)
Theorem deflection_sequence (I_deg Da_deg PC_station : f64) (stake_step : Z) :
  finite I_deg -> finite Da_deg -> valid PC_station -> finite PC_station ->
  (0 < F2Q I_deg <= 180)%Q -> (0 < F2Q Da_deg <= 100)%Q ->
  0 < stake_step <= 100 ->
  (Qabs (F2Q PC_station) <= 1073741824)%Q ->
  let L := div (mul f100 I_deg) Da_deg in
  let PT_station := add PC_station L in
  finite L -> (F2Q L <= 1073741824)%Q ->
  exists n : nat, forall fuel, (n <= fuel)%nat ->
    exists stations deflection_deg,
      stake_stations fuel PC_station PT_station stake_step = Ok stations /\
      deflections Da_deg PC_station stations = Ok deflection_deg /\
      deflection_deg = map (deflection_formula Da_deg PC_station) stations /\
      non_decreasing deflection_deg /\
      within (1 # 1000000)
             (F2Q (last deflection_deg pos_zero)) (F2Q I_deg / 2).
Proof.
  intros FI FDa VPC FPC HI HDa Hs HPC L PT_station FL HL.
  destruct (final_deflection_value I_deg Da_deg PC_station
              FI FDa VPC FPC HI HDa HPC FL HL) as [VPT [FPT [Hr Hfin]]].
  fold L in VPT, FPT, Hr, Hfin. fold PT_station in VPT, FPT, Hr, Hfin.
  destruct (stake_stations_progression PC_station PT_station stake_step
              VPC FPC VPT FPT Hs) as [first [n [E1 [Fb [Hlt [_ Hst]]]]]].
  set (pc := F2Q PC_station) in *. set (pt := F2Q PT_station) in *.
  (* the bound of the loop is not after P.T. *)
  assert (Hb : (F2Q (sub PT_station f1em6) <= pt)%Q).
  { destruct (sub_finite_eq PT_station f1em6 FPT eq_refl) as [s0 Es].
    rewrite Es in Fb |- *. rewrite (Q2F_value _ _ Fb).
    apply (Qle_trans _ (rnd pt)).
    - apply rnd_mono. fold pt.
      assert (0 < F2Q f1em6)%Q by reflexivity. lra.
    - unfold pt. rewrite (rnd_of_float PT_station VPT FPT). lra. }
  (* the first stake is not before P.C. *)
  pose proof (first_stake_after_PC PC_station stake_step VPC FPC Hs HPC) as Hf.
  rewrite <- E1 in Hf. fold pc in Hf.
  change (Qpow2 31) with 2147483648%Q in Hr.
  change (Qpow2 30) with 1073741824%Q in HPC.
  (* every station is in range *)
  set (stations := Float PC_station
                   :: map Int (progression first stake_step n)
                   ++ [Float PT_station]).
  assert (HR : Forall (station_in_range pc pt) stations).
  { unfold stations. constructor; [|apply Forall_app; split].
    - repeat split; try reflexivity; [exact FPC | | ]; cbn [num_value];
        fold pc; lra.
    - apply Forall_forall. intros stn Hin. apply in_map_iff in Hin.
      destruct Hin as [s [<- Hin]].
      destruct (in_progression _ _ _ _ Hin) as [k [Hk ->]].
      specialize (Hlt k Hk).
      assert (Hlo : (inject_Z first
                     <= inject_Z (first + Z.of_nat k * stake_step))%Q)
        by (rewrite <- Zle_Qle; nia).
      set (s := first + Z.of_nat k * stake_step) in *.
      apply Qabs_Qle_condition in HPC.
      assert (Bs : Z.abs s <= 2 ^ 53).
      { assert (B1 : (inject_Z (- 2 ^ 53) <= inject_Z s)%Q).
        { change (inject_Z (- 2 ^ 53)) with (- 9007199254740992)%Q. lra. }
        assert (B2 : (inject_Z s <= inject_Z (2 ^ 53))%Q).
        { change (inject_Z (2 ^ 53)) with 9007199254740992%Q. lra. }
        rewrite <- Zle_Qle in B1, B2. lia. }
      destruct (of_Z_exact s Bs) as [Fs Vs].
      unfold station_in_range. cbn [to_float num_float num_value].
      split; [apply float_of_int_small; exact Bs|].
      split; [exact Fs|]. split; [exact Vs|]. split; lra.
    - constructor; [|constructor].
      repeat split; try reflexivity; [exact FPT | | ]; cbn [num_value];
        fold pt; lra. }
  exists n. intros fuel Hfuel.
  exists stations, (map (deflection_formula Da_deg PC_station) stations).
  split; [apply Hst; exact Hfuel|].
  split.
  { apply deflections_formula. eapply Forall_impl; [|exact HR].
    intros stn [H _]. exact H. }
  split; [reflexivity|].
  assert (Hpt31 : (pt - F2Q PC_station <= Qpow2 31)%Q).
  { fold pc. change (Qpow2 31) with 2147483648%Q. lra. }
  split.
  - (* monotone *)
    unfold non_decreasing. rewrite map_map.
    apply (values_sorted_map num_value _ (station_in_range pc pt)).
    + intros a b Pa Pb Hab.
      rewrite (deflection_in_range Da_deg PC_station pt a FDa FPC HDa Hpt31 Pa).
      rewrite (deflection_in_range Da_deg PC_station pt b FDa FPC HDa Hpt31 Pb).
      apply deflection_value_mono; [lra | exact Hab].
    + exact HR.
    + unfold stations. cbn [map]. rewrite map_app, map_map. cbn [map num_value].
      fold pc. fold pt.
      apply (station_values_sorted stake_step pt (F2Q (sub PT_station f1em6)) n);
        try assumption; try lia; lra.
  - (* the last deflection *)
    unfold stations. rewrite app_comm_cons, last_map_app.
    assert (PPT : station_in_range pc pt (Float PT_station)).
    { repeat split; try reflexivity; [exact FPT | | ]; cbn [num_value];
        fold pt; lra. }
    unfold within.
    rewrite (deflection_in_range Da_deg PC_station pt _ FDa FPC HDa Hpt31 PPT).
    exact Hfin.
Qed.

(** C3, on the reference run: I = 40, Da = 8, P.C. = 7+39.33. *)
Lemma deflection_sequence_witness :
  exists n : nat, forall fuel, (n <= fuel)%nat ->
    exists stations deflection_deg,
      stake_stations fuel (fl 6503176059504482 (-43))
        (add (fl 6503176059504482 (-43)) (div (mul f100 (of_Z 40)) (of_Z 8)))
        50 = Ok stations /\
      deflections (of_Z 8) (fl 6503176059504482 (-43)) stations
        = Ok deflection_deg /\
      deflection_deg
        = map (deflection_formula (of_Z 8) (fl 6503176059504482 (-43))) stations /\
      non_decreasing deflection_deg /\
      within (1 # 1000000)
             (F2Q (last deflection_deg pos_zero)) (F2Q (of_Z 40) / 2).
Proof.
  apply (deflection_sequence (of_Z 40) (of_Z 8) (fl 6503176059504482 (-43)) 50).
  - reflexivity.
  - reflexivity.
  - reflexivity.
  - reflexivity.
  - split; [reflexivity | vm_compute; discriminate].
  - split; [reflexivity | vm_compute; discriminate].
  - lia.
  - vm_compute. discriminate.
  - reflexivity.
  - vm_compute. discriminate.
Defined.

(** ** The chords (claim C4) *)

Lemma finite_not_inf (x : f64) : finite x -> is_inf x = false.
Proof. destruct x; unfold finite; simpl; intros H; try reflexivity; discriminate. Qed.

Lemma finite_not_nan (x : f64) : finite x -> is_nan x = false.
Proof. destruct x; unfold finite; simpl; intros H; try reflexivity; discriminate. Qed.

Lemma pow2_1001_plus_1 : (Qpow2 1001 + 1 < Qpow2 1023)%Q.
Proof.
  pose proof (Qpow2_le 0 1001 ltac:(lia)) as H0. change (Qpow2 0) with 1%Q in H0.
  pose proof (Qpow2_succ 1001) as H1. change (1001 + 1) with 1002 in H1.
  pose proof (Qpow2_lt 1002 1023 ltac:(lia)) as H2. lra.
Qed.

(** [round(x, 2)] of a number up to 2^1001 in magnitude is a number. *)
Lemma round2_total (x : f64) :
  finite x -> (Qabs (F2Q x) <= Qpow2 1001)%Q ->
  exists r, round2 x = Ok r /\ finite r.
Proof.
  intros F B. destruct (finite_cases x F) as [[s ->]|[s [m [e ->]]]].
  - exists (S754_zero s). split; reflexivity.
  - set (x := S754_finite s m e) in *.
    set (n := rne (Qabs (F2Q x) * 100)).
    set (q := (inject_Z n / 100 * (if s then -1 else 1))%Q).
    assert (N0 : 0 <= n).
    { apply rne_ge. change (inject_Z 0) with 0%Q.
      pose proof (Qabs_nonneg (F2Q x)). lra. }
    pose proof (rne_error (Qabs (F2Q x) * 100)) as E. fold n in E.
    apply Qabs_Qle_condition in E.
    assert (N0' : (0 <= inject_Z n)%Q)
      by (change 0%Q with (inject_Z 0); rewrite <- Zle_Qle; exact N0).
    assert (Bq : (Qabs q < Qpow2 1023)%Q).
    { unfold q. rewrite Qabs_Qmult.
      assert (E1 : (Qabs (if s then -1 else 1) == 1)%Q) by (destruct s; reflexivity).
      rewrite E1, Qmult_1_r. unfold Qdiv. change (/ 100)%Q with (1 # 100)%Q.
      rewrite Qabs_pos by lra.
      pose proof pow2_1001_plus_1. set (A := Qabs (F2Q x)) in *. lra. }
    pose proof (Q2F_finite s q Bq) as Fr.
    exists (Q2F s q). split; [|exact Fr].
    change (round2 x) with (if is_inf (Q2F s q) then Raise OverflowError
                            else Ok (Q2F s q)).
    rewrite (finite_not_inf _ Fr). reflexivity.
Qed.

Lemma math_sin_defined (M : libm) (a : f64) :
  sine_defined M a -> math_sin M a = Ok (c_sin M a).
Proof.
  intros [_ [F _]]. unfold math_sin, math_1.
  rewrite (finite_not_nan _ F), (finite_not_inf _ F). reflexivity.
Qed.

(** The chord before rounding is a number up to 2^1001 in magnitude. *)
Lemma chord_formula_bound (M : libm) (R d : f64) :
  finite R -> (Qabs (F2Q R) <= Qpow2 1000)%Q ->
  sine_defined M (math_radians d) ->
  finite (chord_formula M R d) /\
  (Qabs (F2Q (chord_formula M R d)) <= Qpow2 1001)%Q.
Proof.
  intros FR BR [_ [Fs Bs]]. unfold chord_formula.
  set (sv := c_sin M (math_radians d)) in *.
  destruct (mul_finite_eq f2 R eq_refl FR) as [s0 E2].
  assert (B2 : (Qabs (F2Q f2 * F2Q R) <= Qpow2 1001)%Q).
  { assert (E : (F2Q f2 == 2)%Q) by reflexivity.
    rewrite E, Qabs_Qmult. change (Qabs 2) with 2%Q.
    pose proof (Qpow2_succ 1000) as H. change (1000 + 1) with 1001 in H. lra. }
  assert (B2' : (Qabs (F2Q f2 * F2Q R) < Qpow2 1002)%Q).
  { eapply Qle_lt_trans; [exact B2|]. apply Qpow2_lt. lia. }
  destruct (Q2F_below s0 _ 1002 B2' ltac:(unfold emin; lia)) as [F2 [V2 _]].
  rewrite <- E2 in F2, V2.
  pose proof (rnd_within_pow2 _ 1001 ltac:(unfold emin; lia) B2) as R2.
  rewrite <- V2 in R2.
  destruct (mul_finite_eq (mul f2 R) sv F2 Fs) as [s1 E3].
  assert (B3 : (Qabs (F2Q (mul f2 R) * F2Q sv) <= Qpow2 1001)%Q).
  { pose proof (Qabs_mult_le _ _ _ _ R2 Bs) as H. lra. }
  assert (B3' : (Qabs (F2Q (mul f2 R) * F2Q sv) < Qpow2 1002)%Q).
  { eapply Qle_lt_trans; [exact B3|]. apply Qpow2_lt. lia. }
  destruct (Q2F_below s1 _ 1002 B3' ltac:(unfold emin; lia)) as [F3 [V3 _]].
  rewrite <- E3 in F3, V3.
  split; [exact F3|]. rewrite V3.
  apply rnd_within_pow2; [unfold emin; lia | exact B3].
Qed.

(** The deflection at P.C. is 0.0. *)
Lemma deflection_at_PC (Da_deg PC_station : f64) :
  finite Da_deg -> finite PC_station -> (0 < F2Q Da_deg)%Q ->
  deflection_formula Da_deg PC_station (Float PC_station) = pos_zero.
Proof.
  intros FDa FPC HDa. unfold deflection_formula. cbn [num_float].
  assert (Es : sub PC_station PC_station = pos_zero).
  { destruct (finite_cases PC_station FPC) as [[s ->]|[s [m [e ->]]]].
    - destruct s; reflexivity.
    - change (sub (S754_finite s m e) (S754_finite s m e))
        with (Q2F false (F2Q (S754_finite s m e)
                         + F2Q (opp (S754_finite s m e)))).
      apply Q2F_zero. rewrite F2Q_opp. ring. }
  rewrite Es.
  destruct (finite_cases Da_deg FDa) as [[s ->]|[s [m [e ->]]]].
  - rewrite F2Q_zero in HDa. lra.
  - destruct s.
    + exfalso. rewrite F2Q_finite_neg in HDa.
      pose proof (Qpow2_pos e) as Hp.
      assert (0 < inject_Z (Zpos m) * Qpow2 e)%Q.
      { apply Qmult_lt_0_compat; [|exact Hp].
        change 0%Q with (inject_Z 0). rewrite <- Zlt_Qlt. lia. }
      lra.
    + assert (Em : mul (S754_finite false m e) pos_zero = pos_zero).
      { change (mul (S754_finite false m e) pos_zero)
          with (Q2F false (F2Q (S754_finite false m e) * 0)).
        apply Q2F_zero. ring. }
      rewrite Em. vm_compute. reflexivity.
Qed.

(** One row of the chord loop. *)
Lemma chord_row_total (M : libm) (R prev cur : f64) :
  finite R -> (Qabs (F2Q R) <= Qpow2 1000)%Q ->
  sine_defined M (math_radians (sub cur prev)) ->
  sine_defined M (math_radians cur) ->
  exists ti ec,
    chord_row M R prev cur = Ok (ti, ec) /\
    round2 (chord_formula M R (sub cur prev)) = Ok ti /\
    round2 (chord_formula M R cur) = Ok ec.
Proof.
  intros FR BR Si Sc.
  destruct (chord_formula_bound M R (sub cur prev) FR BR Si) as [Fi Bi].
  destruct (chord_formula_bound M R cur FR BR Sc) as [Fc Bc].
  destruct (round2_total _ Fi Bi) as [ti [Ei _]].
  destruct (round2_total _ Fc Bc) as [ec [Ec _]].
  exists ti, ec. split; [|split; assumption].
  unfold chord_row. rewrite (math_sin_defined M _ Si). cbn [bind].
  rewrite (math_sin_defined M _ Sc). cbn [bind].
  fold (chord_formula M R (sub cur prev)). fold (chord_formula M R cur).
  rewrite Ei. cbn [bind]. rewrite Ec. reflexivity.
Qed.

(** The chord loop. *)
Lemma chord_loop_total (M : libm) (R : f64) (rest : list f64) :
  finite R -> (Qabs (F2Q R) <= Qpow2 1000)%Q ->
  forall prev,
  Forall (sine_defined M) (sine_arguments prev rest) ->
  exists rows,
    chord_loop M R prev rest = Ok rows /\
    List.length rows = List.length rest /\
    forall i, (i < List.length rest)%nat ->
      round2 (chord_formula M R (sub (nth i rest nan) (nth i (prev :: rest) nan)))
        = Ok (fst (nth i rows (nan, nan))) /\
      round2 (chord_formula M R (nth i rest nan))
        = Ok (snd (nth i rows (nan, nan))).
Proof.
  intros FR BR. induction rest as [|cur rest IH]; intros prev HS.
  - exists []. split; [reflexivity|]. split; [reflexivity|].
    intros i Hi. cbn in Hi. lia.
  - cbn [sine_arguments] in HS.
    inversion HS as [|? ? Si HS1]; subst.
    inversion HS1 as [|? ? Sc HS2]; subst.
    destruct (chord_row_total M R prev cur FR BR Si Sc) as [ti [ec [Er [Ei Ec]]]].
    destruct (IH cur HS2) as [rows [El [Hlen Hrows]]].
    exists ((ti, ec) :: rows). split; [|split].
    + cbn [chord_loop]. rewrite Er. cbn [bind]. rewrite El. reflexivity.
    + cbn [List.length]. rewrite Hlen. reflexivity.
    + intros i Hi. destruct i as [|i].
      * cbn [nth fst snd]. split; assumption.
      * cbn [List.length] in Hi.
        change (nth (S i) (cur :: rest) nan) with (nth i rest nan).
        change (nth (S i) (prev :: cur :: rest) nan)
          with (nth i (cur :: rest) nan).
        change (nth (S i) ((ti, ec) :: rows) (nan, nan))
          with (nth i rows (nan, nan)).
        apply Hrows. lia.
Qed.

(** C4, amended: the first entries of both columns are 0.0; entry i is
    [round(2 * R * sin(radians(d)), 2)], with d the difference of
    consecutive deflections for the incremental chord and the deflection
    itself for the cumulative chord.  At the first stake after P.C., where
    the previous deflection is 0.0, the two agree; so the incremental
    chords add up to the final cumulative chord when the list is P.C. and
    P.T. only.  With intermediate stakes they do not in general. *)
Theorem chord_columns (M : libm) (R : f64) (rest : list f64) :
  finite R -> (Qabs (F2Q R) <= Qpow2 1000)%Q ->
  Forall (fun d => valid d /\ finite d) rest ->
  Forall (sine_defined M) (sine_arguments pos_zero rest) ->
  exists tape edm,
    chords M R (pos_zero :: rest) = Ok (pos_zero :: tape, pos_zero :: edm) /\
    List.length tape = List.length rest /\
    List.length edm = List.length rest /\
    (forall i, (i < List.length rest)%nat ->
       round2 (chord_formula M R
                 (sub (nth i rest nan) (nth i (pos_zero :: rest) nan)))
         = Ok (nth i tape nan) /\
       round2 (chord_formula M R (nth i rest nan)) = Ok (nth i edm nan)) /\
    nth 0 tape pos_zero = nth 0 edm pos_zero /\
    (List.length rest = 1%nat ->
     (Qsum (pos_zero :: tape) == F2Q (last (pos_zero :: edm) pos_zero))%Q).
Proof.
  intros FR BR HV HS.
  destruct (chord_loop_total M R rest FR BR pos_zero HS)
    as [rows [El [Hlen Hrows]]].
  exists (map fst rows), (map snd rows).
  assert (Hnth : forall i, (i < List.length rest)%nat ->
            round2 (chord_formula M R
                      (sub (nth i rest nan) (nth i (pos_zero :: rest) nan)))
              = Ok (nth i (map fst rows) nan) /\
            round2 (chord_formula M R (nth i rest nan))
              = Ok (nth i (map snd rows) nan)).
  { intros i Hi. destruct (Hrows i Hi) as [H1 H2].
    change nan with (fst (nan, nan)) at 3. rewrite map_nth.
    change nan with (snd (nan, nan)) at 6. rewrite map_nth.
    split; assumption. }
  assert (H0 : nth 0 (map fst rows) pos_zero = nth 0 (map snd rows) pos_zero).
  { destruct rest as [|d1 rest].
    - destruct rows; [reflexivity | discriminate Hlen].
    - destruct rows as [|[t e] rows]; [discriminate Hlen|].
      destruct (Hrows 0%nat ltac:(cbn; lia)) as [H1 H2].
      cbn [nth fst snd] in H1, H2. cbn [map nth fst snd].
      inversion HV as [|? ? [Vd Fd] _]; subst.
      rewrite (sub_pos_zero d1 Vd Fd) in H1. congruence. }
  split; [unfold chords; rewrite El; reflexivity|].
  split; [rewrite length_map; exact Hlen|].
  split; [rewrite length_map; exact Hlen|].
  split; [exact Hnth|]. split; [exact H0|].
  intros H1. rewrite H1 in Hlen.
  destruct rows as [|[t e] [|? ?]]; try discriminate Hlen.
  cbn [map nth fst snd] in H0. subst e.
  cbn [map fst snd Qsum fold_right last]. unfold pos_zero.
  rewrite F2Q_zero. ring.
Qed.

(** C4, on the first segment of the reference run: P.C. to 8+00. *)
Lemma chord_columns_witness :
  exists tape edm,
    chords libm_samples (div f18000 (mul math_pi (of_Z 8)))
      [pos_zero;
       deflection_formula (of_Z 8) (fl 6503176059504482 (-43)) (Int 800)]
    = Ok (pos_zero :: tape, pos_zero :: edm) /\
    (Qsum (pos_zero :: tape) == F2Q (last (pos_zero :: edm) pos_zero))%Q.
Proof.
  destruct (chord_columns libm_samples (div f18000 (mul math_pi (of_Z 8)))
              [deflection_formula (of_Z 8) (fl 6503176059504482 (-43)) (Int 800)])
    as [tape [edm [E [_ [_ [_ [_ H]]]]]]].
  - reflexivity.
  - vm_compute. discriminate.
  - constructor; [|constructor]. split; vm_compute; reflexivity.
  - repeat constructor; vm_compute; try reflexivity; discriminate.
  - exists tape, edm. split; [exact E | apply H; reflexivity].
Defined.

(** ** Degrees, minutes and seconds ([deg_to_dms_nearest_sec]) *)

Lemma round_to_int_finite (x : f64) :
  finite x -> round_to_int x = Ok (rne (F2Q x)).
Proof.
  intros F. destruct (finite_cases x F) as [[t ->]|[t [m [e ->]]]]; reflexivity.
Qed.

Lemma round_to_int_not_finite (x : f64) :
  is_finite x = false ->
  round_to_int x = Raise (if is_nan x then ValueError else OverflowError).
Proof. destruct x; intros H; try discriminate H; reflexivity. Qed.

(** The product [deg * 3600] is NaN only for a NaN angle. *)
Lemma is_nan_mul_3600 (deg : f64) :
  is_nan (mul deg (of_Z 3600)) = is_nan deg.
Proof.
  destruct deg as [s|s| |s m e]; try reflexivity.
  change (mul (S754_finite s m e) (of_Z 3600))
    with (Q2F (xorb s false) (F2Q (S754_finite s m e) * F2Q (of_Z 3600))).
  apply Q2F_not_nan.
Qed.

(** The remainders of [divmod] are below the divisor. *)
Lemma dms_field_bounds (tot : Z) :
  0 <= tot mod 3600 / 60 < 60 /\ 0 <= tot mod 3600 mod 60 < 60.
Proof.
  pose proof (Z.mod_pos_bound tot 3600 ltac:(lia)) as Hr.
  pose proof (Z.mod_pos_bound (tot mod 3600) 60 ltac:(lia)) as Hs.
  split; [|exact Hs].
  split; [apply Z.div_pos; lia | apply Z.div_lt_upper_bound; lia].
Qed.

(** The text, once neither carry is taken. *)
Lemma deg_to_dms_text (deg : f64) :
  finite (mul deg (of_Z 3600)) ->
  let tot := rne (F2Q (mul deg (of_Z 3600))) in
  deg_to_dms_nearest_sec deg
  = Ok (string_of_list_ascii
          (format_02d (tot / 3600) ++ degree_sign
           ++ format_02d (tot mod 3600 / 60) ++ prime_sign
           ++ format_02d (tot mod 3600 mod 60) ++ double_prime_sign)).
Proof.
  intros F tot. destruct (dms_field_bounds tot) as [Hm Hs].
  unfold deg_to_dms_nearest_sec. rewrite (round_to_int_finite _ F).
  cbn [bind]. fold tot.
  destruct (Z.eqb_spec (tot mod 3600 mod 60) 60) as [E|_]; [lia|].
  destruct (Z.geb_spec (tot mod 3600 / 60) 60) as [G|_]; [lia|]. reflexivity.
Qed.

(** The angle split into degrees, minutes and seconds: [divmod] already
    gives minutes and seconds below 60, so neither carry of the function is
    ever taken. *)
Theorem deg_to_dms_fields (deg : f64) :
  finite (mul deg (of_Z 3600)) ->
  let tot := rne (F2Q (mul deg (of_Z 3600))) in
  let d := tot / 3600 in
  let m := tot mod 3600 / 60 in
  let s := tot mod 3600 mod 60 in
  0 <= m < 60 /\ 0 <= s < 60 /\ d * 3600 + m * 60 + s = tot /\
  deg_to_dms_nearest_sec deg
  = Ok (string_of_list_ascii
          (format_02d d ++ degree_sign ++ format_02d m ++ prime_sign
           ++ format_02d s ++ double_prime_sign)).
Proof.
  intros F tot d m s.
  destruct (dms_field_bounds tot) as [Hm Hs].
  split; [exact Hm|]. split; [exact Hs|]. split.
  - pose proof (Z.div_mod tot 3600 ltac:(lia)) as E1.
    pose proof (Z.div_mod (tot mod 3600) 60 ltac:(lia)) as E2.
    unfold d, m, s. lia.
  - apply (deg_to_dms_text deg F).
Qed.

(** 5.5 degrees: 05 degrees 30 minutes 00 seconds. *)
Lemma deg_to_dms_fields_witness :
  deg_to_dms_nearest_sec (Q2F false (11 # 2))
  = Ok (string_of_list_ascii
          (format_02d 5 ++ degree_sign ++ format_02d 30 ++ prime_sign
           ++ format_02d 0 ++ double_prime_sign)).
Proof.
  destruct (deg_to_dms_fields (Q2F false (11 # 2)) eq_refl) as [_ [_ [_ H]]].
  exact H.
Defined.

(** An angle whose product with 3600 is not a number has no text:
    [round] raises [ValueError] on NaN and [OverflowError] on an
    infinity. *)
Theorem deg_to_dms_raises (deg : f64) :
  is_finite (mul deg (of_Z 3600)) = false ->
  deg_to_dms_nearest_sec deg
  = Raise (if is_nan deg then ValueError else OverflowError).
Proof.
  intros H. unfold deg_to_dms_nearest_sec.
  rewrite (round_to_int_not_finite _ H), is_nan_mul_3600. reflexivity.
Qed.

Lemma deg_to_dms_raises_witness :
  deg_to_dms_nearest_sec (of_Z (10 ^ 306)) = Raise OverflowError
  /\ deg_to_dms_nearest_sec nan = Raise ValueError.
Proof.
  split.
  - apply (deg_to_dms_raises (of_Z (10 ^ 306))). vm_compute. reflexivity.
  - apply (deg_to_dms_raises nan). reflexivity.
Defined.

Lemma format_02d_two_digits (j : Z) :
  0 <= j < 100 -> format_02d j = two_digits j.
Proof.
  intros H. rewrite <- (Z2Nat.id j) by lia.
  assert (Hn : (Z.to_nat j < 100)%nat) by lia.
  generalize dependent (Z.to_nat j). clear H. intros n Hn.
  do 100 (destruct n as [|n]; [reflexivity|]). lia.
Qed.

Lemma F2Q_3600 : (F2Q (of_Z 3600) == 3600)%Q.
Proof. reflexivity. Qed.

(** An angle from 0 to 99 degrees is shown with two digits in each field,
    and the angle shown is within half a second (and a rounding of the
    product) of the angle. *)
Theorem deg_to_dms_display (deg : f64) :
  finite deg -> (0 <= F2Q deg <= 99)%Q ->
  exists d m s,
    0 <= d < 100 /\ 0 <= m < 60 /\ 0 <= s < 60 /\
    deg_to_dms_nearest_sec deg
    = Ok (string_of_list_ascii
            (two_digits d ++ degree_sign ++ two_digits m ++ prime_sign
             ++ two_digits s ++ double_prime_sign)) /\
    (Qabs (inject_Z (d * 3600 + m * 60 + s) - 3600 * F2Q deg)
     <= (1 # 2) + (1 # 1000000000))%Q.
Proof.
  intros F [H0 H99].
  destruct (mul_finite_eq deg (of_Z 3600) F eq_refl) as [s0 Em].
  assert (Bm : (Qabs (F2Q deg * F2Q (of_Z 3600)) < Qpow2 19)%Q).
  { rewrite F2Q_3600. change (Qpow2 19) with 524288%Q.
    rewrite Qabs_pos by lra. lra. }
  destruct (Q2F_below s0 _ 19 Bm ltac:(unfold emin; lia)) as [Fm [Vm Rm]].
  rewrite <- Em in Fm, Vm. rewrite <- Vm in Rm.
  change (Qpow2 (19 - 54)) with (1 # 34359738368)%Q in Rm.
  rewrite F2Q_3600 in Rm. apply Qabs_Qle_condition in Rm.
  assert (P0 : (0 <= F2Q (mul deg (of_Z 3600)))%Q).
  { rewrite Vm. apply rnd_sign_nonneg. rewrite F2Q_3600. lra. }
  pose proof (deg_to_dms_text deg Fm) as Etxt. cbv zeta in Etxt.
  set (p := F2Q (mul deg (of_Z 3600))) in *.
  set (tot := rne p) in *.
  destruct (dms_field_bounds tot) as [Hm Hs].
  assert (Etot : tot / 3600 * 3600 + tot mod 3600 / 60 * 60
                 + tot mod 3600 mod 60 = tot).
  { pose proof (Z.div_mod tot 3600 ltac:(lia)) as E1.
    pose proof (Z.div_mod (tot mod 3600) 60 ltac:(lia)) as E2. lia. }
  pose proof (rne_error p) as Er. fold tot in Er.
  apply Qabs_Qle_condition in Er.
  assert (T0 : 0 <= tot).
  { apply rne_ge. change (inject_Z 0) with 0%Q. lra. }
  assert (T1 : tot <= 356400).
  { assert (A : (inject_Z tot < inject_Z 356401)%Q).
    { change (inject_Z 356401) with 356401%Q. lra. }
    rewrite <- Zlt_Qlt in A. lia. }
  assert (Hd : 0 <= tot / 3600 < 100).
  { split; [apply Z.div_pos; lia | apply Z.div_lt_upper_bound; lia]. }
  exists (tot / 3600), (tot mod 3600 / 60), (tot mod 3600 mod 60).
  split; [exact Hd|]. split; [exact Hm|]. split; [exact Hs|]. split.
  - rewrite Etxt.
    rewrite (format_02d_two_digits _ Hd).
    rewrite (format_02d_two_digits (tot mod 3600 / 60)) by lia.
    rewrite (format_02d_two_digits (tot mod 3600 mod 60)) by lia.
    reflexivity.
  - rewrite Etot. apply Qabs_Qle_condition. split; lra.
Qed.

(** 12.3456 degrees: 12 degrees 20 minutes 44 seconds. *)
Lemma deg_to_dms_display_witness :
  exists d m s,
    0 <= d < 100 /\ 0 <= m < 60 /\ 0 <= s < 60 /\
    deg_to_dms_nearest_sec (Q2F false (123456 # 10000))
    = Ok (string_of_list_ascii
            (two_digits d ++ degree_sign ++ two_digits m ++ prime_sign
             ++ two_digits s ++ double_prime_sign)) /\
    (Qabs (inject_Z (d * 3600 + m * 60 + s)
           - 3600 * F2Q (Q2F false (123456 # 10000)))
     <= (1 # 2) + (1 # 1000000000))%Q.
Proof.
  apply (deg_to_dms_display (Q2F false (123456 # 10000))).
  - reflexivity.
  - split; vm_compute; discriminate.
Defined.

(** ** The table of a run *)

Lemma bind_Ok {A B} (r : result A) (k : A -> result B) (b : B) :
  bind r k = Ok b -> exists a, r = Ok a /\ k a = Ok b.
Proof.
  destruct r as [a|e|]; cbn [bind]; intros H; try discriminate H.
  exists a. split; [reflexivity | exact H].
Qed.

Lemma mapM_length {A B} (f : A -> result B) (l : list A) :
  forall l', mapM f l = Ok l' -> List.length l' = List.length l.
Proof.
  induction l as [|a l IH]; intros l' H.
  - injection H as <-. reflexivity.
  - cbn [mapM] in H.
    apply bind_Ok in H. destruct H as [b [_ H]].
    apply bind_Ok in H. destruct H as [bs [Hbs H]].
    injection H as <-. cbn [List.length]. rewrite (IH bs Hbs). reflexivity.
Qed.

Lemma chord_loop_length (M : libm) (R : f64) (rest : list f64) :
  forall prev rows,
  chord_loop M R prev rest = Ok rows -> List.length rows = List.length rest.
Proof.
  induction rest as [|cur rest IH]; intros prev rows H.
  - injection H as <-. reflexivity.
  - cbn [chord_loop] in H.
    apply bind_Ok in H. destruct H as [row [_ H]].
    apply bind_Ok in H. destruct H as [rows' [Hr H]].
    injection H as <-. cbn [List.length]. rewrite (IH cur rows' Hr). reflexivity.
Qed.

Lemma chords_length (M : libm) (R : f64) (dl tape edm : list f64) :
  dl <> [] -> chords M R dl = Ok (tape, edm) ->
  List.length tape = List.length dl /\ List.length edm = List.length dl.
Proof.
  intros N H. destruct dl as [|d0 rest]; [contradiction|].
  cbn [chords] in H. apply bind_Ok in H. destruct H as [rows [Hr H]].
  injection H as <- <-. cbn [List.length]. rewrite !length_map.
  rewrite (chord_loop_length M R rest d0 rows Hr). split; reflexivity.
Qed.

Lemma stake_stations_ends (fuel : nat) (PC_station PT_station : f64)
    (stake_step : Z) (stations : list num) :
  stake_stations fuel PC_station PT_station stake_step = Ok stations ->
  exists mid, stations = Float PC_station :: map Int mid ++ [Float PT_station].
Proof.
  unfold stake_stations. intros H.
  apply bind_Ok in H. destruct H as [first [_ H]].
  apply bind_Ok in H. destruct H as [mid [_ H]].
  injection H as <-. exists mid. reflexivity.
Qed.

Lemma point_labels_length (n : nat) :
  (2 <= n)%nat -> List.length (point_labels n) = n.
Proof.
  intros H. unfold point_labels. cbn [List.length].
  rewrite length_app, length_map, length_seq. cbn [List.length]. lia.
Qed.

(** Whenever a run renders, the table is rectangular: the labels, the
    station texts, the deflections, their texts, both chord columns and
    the coordinates have one entry per station; there are at least two
    stations, the first labelled P.C. and the last P.T. *)
Theorem table_columns_agree (M : libm) (fuel : nat) (I_deg Da_deg : f64)
    (PI_station_str : string) (stake_step : Z) (r : rendering) :
  curve_webapp M fuel I_deg Da_deg PI_station_str stake_step = Ok (Rendered r) ->
  let n := List.length (r_stations r) in
  (2 <= n)%nat /\
  List.length (r_points r) = n /\
  List.length (r_station_text r) = n /\
  List.length (r_deflection_deg r) = n /\
  List.length (r_dms r) = n /\
  List.length (r_tape_ct r) = n /\
  List.length (r_edm_ct r) = n /\
  List.length (r_xy r) = n /\
  hd EmptyString (r_points r) = "P.C."%string /\
  last (r_points r) EmptyString = "P.T."%string.
Proof.
  unfold curve_webapp. destruct (guard I_deg Da_deg); [|discriminate].
  intros H.
  apply bind_Ok in H. destruct H as [ce [_ H]].
  apply bind_Ok in H. destruct H as [stations [Hst H]].
  apply bind_Ok in H. destruct H as [dl [Hdl H]].
  apply bind_Ok in H. destruct H as [[tape edm] [Hct H]].
  apply bind_Ok in H. destruct H as [txt [Htxt H]].
  apply bind_Ok in H. destruct H as [dms [Hdms H]].
  apply bind_Ok in H. destruct H as [xy [Hxy H]].
  destruct (last xy (pos_zero, pos_zero)) as [PT_x PT_y].
  apply bind_Ok in H. destruct H as [xy_PI [_ H]].
  apply bind_Ok in H. destruct H as [pc_text [_ H]].
  apply bind_Ok in H. destruct H as [pt_text [_ H]].
  injection H as <-.
  cbn [r_stations r_points r_station_text r_deflection_deg r_dms r_tape_ct
       r_edm_ct r_xy fst snd].
  destruct (stake_stations_ends _ _ _ _ _ Hst) as [mid Est].
  assert (Hn : (2 <= List.length stations)%nat).
  { rewrite Est. cbn [List.length]. rewrite length_app. cbn [List.length]. lia. }
  pose proof (mapM_length _ _ _ Hdl) as Ldl. unfold deflections in Hdl.
  pose proof (mapM_length _ _ _ Hdl) as Ldl'.
  assert (Ndl : dl <> []).
  { intros ->. cbn [List.length] in Ldl'. lia. }
  destruct (chords_length M _ dl tape edm Ndl Hct) as [Lt Le].
  split; [exact Hn|].
  split; [apply point_labels_length; exact Hn|].
  split; [apply (mapM_length _ _ _ Htxt)|].
  split; [exact Ldl'|].
  split; [rewrite (mapM_length _ _ _ Hdms); exact Ldl'|].
  split; [rewrite Lt; exact Ldl'|].
  split; [rewrite Le; exact Ldl'|].
  split; [rewrite (mapM_length _ _ _ Hxy); exact Ldl'|].
  split; [reflexivity|].
  unfold point_labels. rewrite app_comm_cons. apply last_last.
Qed.

(** The reference run: eleven rows. *)
Lemma table_columns_agree_witness :
  exists r,
    curve_webapp libm_samples 100 (of_Z 40) (of_Z 8) "10+00.00" 50
      = Ok (Rendered r) /\
    List.length (r_stations r) = 11%nat /\
    List.length (r_points r) = List.length (r_stations r) /\
    List.length (r_tape_ct r) = List.length (r_stations r).
Proof.
  assert (H : exists r,
             curve_webapp libm_samples 100 (of_Z 40) (of_Z 8) "10+00.00" 50
             = Ok (Rendered r) /\ List.length (r_stations r) = 11%nat).
  { eexists. split; [vm_compute; reflexivity | reflexivity]. }
  destruct H as [r [E L]]. exists r.
  destruct (table_columns_agree _ _ _ _ _ _ r E) as [_ [H1 [_ [_ [_ [H2 _]]]]]].
  split; [exact E|]. split; [exact L|]. split; [exact H1 | exact H2].
Defined.

(** The guidance warning is shown exactly when [Da_deg > 0 and I_deg > 0]
    is false, which includes a NaN in either input: once the guard holds
    the run renders the curve, raises or does not end, and never falls
    back to the warning. *)
Theorem warning_iff_guard_fails (M : libm) (fuel : nat) (I_deg Da_deg : f64)
    (PI_station_str : string) (stake_step : Z) :
  curve_webapp M fuel I_deg Da_deg PI_station_str stake_step = Ok Warning
  <-> (ltb pos_zero Da_deg = false \/ ltb pos_zero I_deg = false).
Proof.
  unfold curve_webapp, guard.
  destruct (ltb pos_zero Da_deg); destruct (ltb pos_zero I_deg); cbn [andb];
    split; intros H; try reflexivity; try (left; reflexivity);
    try (right; reflexivity); try (destruct H; discriminate).
  exfalso.
  apply bind_Ok in H. destruct H as [ce [_ H]].
  apply bind_Ok in H. destruct H as [stations [_ H]].
  apply bind_Ok in H. destruct H as [dl [_ H]].
  apply bind_Ok in H. destruct H as [ct [_ H]].
  apply bind_Ok in H. destruct H as [txt [_ H]].
  apply bind_Ok in H. destruct H as [dms [_ H]].
  apply bind_Ok in H. destruct H as [xy [_ H]].
  destruct (last xy (pos_zero, pos_zero)) as [PT_x PT_y].
  apply bind_Ok in H. destruct H as [xy_PI [_ H]].
  apply bind_Ok in H. destruct H as [pc_text [_ H]].
  apply bind_Ok in H. destruct H as [pt_text [_ H]].
  discriminate H.
Qed.

(** A NaN angle gives the warning. *)
Lemma warning_iff_guard_fails_witness :
  curve_webapp libm_samples 100 nan (of_Z 8) "10+00.00" 50 = Ok Warning.
Proof.
  apply (proj2 (warning_iff_guard_fails libm_samples 100 nan (of_Z 8)
                  "10+00.00" 50)).
  right. reflexivity.
Defined.

(** ** The plan coordinates *)

Lemma math_1_finite (f : f64 -> f64) (a : f64) :
  finite (f a) -> math_1 f a = Ok (f a).
Proof.
  intros F. unfold math_1.
  rewrite (finite_not_nan _ F), (finite_not_inf _ F). reflexivity.
Qed.

Lemma rnd_opp_float (x : f64) :
  valid x -> finite x -> (rnd (- F2Q x) == - F2Q x)%Q.
Proof.
  intros V F.
  pose proof (rnd_of_float (opp x) (valid_opp x V) (finite_opp x F)) as E.
  eapply Qeq_trans; [apply rnd_proper; symmetry; apply F2Q_opp|].
  rewrite E. apply F2Q_opp.
Qed.

(** Twice a float rounds to itself. *)
Lemma rnd_double (x : f64) :
  valid x -> finite x -> (rnd (2 * F2Q x) == 2 * F2Q x)%Q.
Proof.
  intros V F. destruct (valid_finite_repr x V F) as [n [e [Hn [He E]]]].
  apply (rnd_exact _ n (e + 1)); [lia | lia|].
  rewrite E, Qpow2_succ. ring.
Qed.

(** Every point of the curve lies in the strip the circle of radius [R]
    through the origin occupies: [|x| <= R] and [-2R <= y <= 0] (the curve
    turns right), whatever the deflection, as long as the C library's sine
    and cosine are numbers of magnitude at most 1. *)
Theorem coordinate_in_circle_box (M : libm) (R d : f64) :
  valid R -> finite R -> (0 <= F2Q R <= Qpow2 1000)%Q ->
  sine_defined M (math_radians (mul f2 d)) ->
  cosine_defined M (math_radians (mul f2 d)) ->
  exists x y,
    coordinate M R d = Ok (x, y) /\
    finite x /\ finite y /\
    (Qabs (F2Q x) <= F2Q R)%Q /\
    (- (2 * F2Q R) <= F2Q y <= 0)%Q.
Proof.
  intros VR FR [R0 R1] [_ [Fs Bs]] [_ [Fc Bc]].
  set (a := math_radians (mul f2 d)) in *.
  set (sv := c_sin M a) in *. set (cv := c_cos M a) in *.
  pose proof (Qpow2_lt 1000 1023 ltac:(lia)) as P1.
  pose proof (Qpow2_succ 1000) as P2. change (1000 + 1) with 1001 in P2.
  pose proof (Qpow2_lt 1001 1023 ltac:(lia)) as P3.
  apply Qabs_Qle_condition in Bs. apply Qabs_Qle_condition in Bc.
  (* x = R * sin *)
  destruct (mul_finite_eq R sv FR Fs) as [s0 Ex].
  assert (Bx : (- F2Q R <= F2Q R * F2Q sv <= F2Q R)%Q).
  { set (r := F2Q R) in *. set (t := F2Q sv) in *.
    assert (H1 : (r * t <= r * 1)%Q).
    { rewrite !(Qmult_comm r). apply Qmult_le_compat_r; lra. }
    assert (H2 : (r * (-1) <= r * t)%Q).
    { rewrite !(Qmult_comm r). apply Qmult_le_compat_r; lra. }
    lra. }
  assert (Bx' : (Qabs (F2Q R * F2Q sv) < Qpow2 1023)%Q).
  { apply Qabs_Qlt_condition. split; lra. }
  destruct (Q2F_small s0 _ Bx') as [Fx Vx]. rewrite <- Ex in Fx, Vx.
  assert (Hx : (Qabs (F2Q (mul R sv)) <= F2Q R)%Q).
  { rewrite Vx. apply Qabs_Qle_condition. split.
    - rewrite <- (rnd_opp_float R VR FR). apply rnd_mono. lra.
    - apply (Qle_trans _ (rnd (F2Q R))); [apply rnd_mono; lra|].
      rewrite (rnd_of_float R VR FR). lra. }
  (* 1 - cos *)
  destruct (sub_finite_eq f1 cv eq_refl Fc) as [s1 Ew].
  pose proof F2Q_f1 as E1.
  assert (Bw : (Qabs (F2Q f1 - F2Q cv) < Qpow2 1023)%Q).
  { apply Qabs_Qlt_condition. pose proof (Qpow2_le 2 1000 ltac:(lia)) as P4.
    change (Qpow2 2) with 4%Q in P4. split; lra. }
  destruct (Q2F_small s1 _ Bw) as [Fw Vw]. rewrite <- Ew in Fw, Vw.
  assert (Hw : (0 <= F2Q (sub f1 cv) <= 2)%Q).
  { rewrite Vw. split.
    - apply rnd_sign_nonneg. lra.
    - assert (E : (rnd 2 == 2)%Q) by (apply (rnd_Z 2); lia).
      rewrite <- E. apply rnd_mono. lra. }
  (* y = -R * (1 - cos) *)
  destruct (mul_finite_eq (opp R) (sub f1 cv) (finite_opp R FR) Fw) as [s2 Ey].
  assert (By : (- (2 * F2Q R) <= F2Q (opp R) * F2Q (sub f1 cv) <= 0)%Q).
  { pose proof (F2Q_opp R) as Eo.
    set (r := F2Q R) in *. set (w := F2Q (sub f1 cv)) in *.
    set (o := F2Q (opp R)) in *.
    assert (H1 : (r * w <= r * 2)%Q).
    { rewrite !(Qmult_comm r). apply Qmult_le_compat_r; lra. }
    assert (H2 : (0 <= r * w)%Q) by (apply Qmult_le_0_compat; lra).
    assert (H3 : (o * w == - (r * w))%Q) by (rewrite Eo; ring).
    split; lra. }
  assert (By' : (Qabs (F2Q (opp R) * F2Q (sub f1 cv)) < Qpow2 1023)%Q).
  { apply Qabs_Qlt_condition. split; lra. }
  destruct (Q2F_small s2 _ By') as [Fy Vy]. rewrite <- Ey in Fy, Vy.
  assert (Hy : (- (2 * F2Q R) <= F2Q (mul (opp R) (sub f1 cv)) <= 0)%Q).
  { rewrite Vy. split.
    - assert (E : (rnd (- (2 * F2Q R)) == - (2 * F2Q R))%Q).
      { assert (E2 : (- (2 * F2Q R) == 2 * F2Q (opp R))%Q)
          by (rewrite F2Q_opp; ring).
        eapply Qeq_trans; [apply rnd_proper; exact E2|].
        rewrite (rnd_double (opp R) (valid_opp R VR) (finite_opp R FR)).
        symmetry. exact E2. }
      rewrite <- E. apply rnd_mono. lra.
    - apply rnd_sign_nonpos. lra. }
  exists (mul R sv), (mul (opp R) (sub f1 cv)).
  split.
  - unfold coordinate. fold a. unfold math_sin, math_cos.
    rewrite (math_1_finite (c_sin M) a Fs). cbn [bind].
    rewrite (math_1_finite (c_cos M) a Fc). reflexivity.
  - repeat split; try assumption; lra.
Qed.

(** The first stake of the reference run after P.C. *)
Lemma coordinate_in_circle_box_witness :
  exists x y,
    coordinate libm_samples (div f18000 (mul math_pi (of_Z 8)))
      (deflection_formula (of_Z 8) (fl 6503176059504482 (-43)) (Int 800))
    = Ok (x, y) /\
    (Qabs (F2Q x) <= F2Q (div f18000 (mul math_pi (of_Z 8))))%Q /\
    (F2Q y <= 0)%Q.
Proof.
  destruct (coordinate_in_circle_box libm_samples
              (div f18000 (mul math_pi (of_Z 8)))
              (deflection_formula (of_Z 8) (fl 6503176059504482 (-43)) (Int 800)))
    as [x [y [E [_ [_ [Hx [_ Hy]]]]]]].
  - vm_compute. reflexivity.
  - reflexivity.
  - split; vm_compute; discriminate.
  - repeat split; vm_compute; try reflexivity; discriminate.
  - repeat split; vm_compute; try reflexivity; discriminate.
  - exists x, y. repeat split; assumption.
Defined.

(** A finite float times a zero is a zero. *)
Lemma mul_zero_r (x : f64) (t : bool) :
  finite x -> is_zero (mul x (S754_zero t)) = true.
Proof.
  intros F. destruct (finite_cases x F) as [[s ->]|[s [m [e ->]]]].
  - unfold mul. rewrite Q2F_zero; [reflexivity|]. rewrite !F2Q_zero. ring.
  - change (mul (S754_finite s m e) (S754_zero t))
      with (Q2F (xorb s t) (F2Q (S754_finite s m e) * 0)).
    rewrite Q2F_zero; [reflexivity | ring].
Qed.

(** P.C. is drawn at the origin: its deflection is 0.0, and with
    [sin 0 = 0] and [cos 0 = 1] both coordinates are zero. *)
Theorem PC_is_at_origin (M : libm) (Da_deg PC_station R : f64) :
  finite Da_deg -> (0 < F2Q Da_deg)%Q -> finite PC_station -> finite R ->
  is_zero (c_sin M pos_zero) = true ->
  c_cos M pos_zero = f1 ->
  exists d x y,
    deflection_at Da_deg PC_station (Float PC_station) = Ok d /\
    d = pos_zero /\
    coordinate M R d = Ok (x, y) /\
    is_zero x = true /\ is_zero y = true.
Proof.
  intros FDa HDa FPC FR Hs Hc.
  exists pos_zero.
  assert (Ex : is_zero (mul R (c_sin M pos_zero)) = true).
  { destruct (c_sin M pos_zero) as [t|t| |t m e]; try discriminate Hs.
    apply mul_zero_r. exact FR. }
  assert (Ey : is_zero (mul (opp R) (sub f1 f1)) = true).
  { change (sub f1 f1) with (S754_zero false).
    apply mul_zero_r. apply finite_opp. exact FR. }
  exists (mul R (c_sin M pos_zero)), (mul (opp R) (sub f1 f1)).
  split.
  - rewrite deflection_at_formula by reflexivity.
    rewrite (deflection_at_PC Da_deg PC_station FDa FPC HDa). reflexivity.
  - split; [reflexivity|]. split; [|split; assumption].
    unfold coordinate.
    change (math_radians (mul f2 pos_zero)) with pos_zero.
    unfold math_sin, math_cos, math_1. rewrite Hc.
    destruct (c_sin M pos_zero) as [t|t| |t m e]; try discriminate Hs.
    reflexivity.
Qed.

Lemma PC_is_at_origin_witness :
  exists d x y,
    deflection_at (of_Z 8) (fl 6503176059504482 (-43))
      (Float (fl 6503176059504482 (-43))) = Ok d /\
    d = pos_zero /\
    coordinate libm_samples (div f18000 (mul math_pi (of_Z 8))) d = Ok (x, y) /\
    is_zero x = true /\ is_zero y = true.
Proof.
  apply (PC_is_at_origin libm_samples (of_Z 8) (fl 6503176059504482 (-43))
           (div f18000 (mul math_pi (of_Z 8)))); try reflexivity.
Defined.

(** ** Stations that are ints *)

(** The stake loop appends Python ints.  For an int whose group
    [n // 100] has at most 4300 digits, the longest int CPython converts
    to text by default, the text is exact: the group is [n // 100], the
    offset [n % 100] with two digits, then [.00]; no rounding, overflow or
    offset of 100 can occur. *)
Theorem ft_to_station_of_int (n : Z) :
  Z.abs (n / 100) < 10 ^ 4300 ->
  ft_to_station (Int n)
  = Ok (string_of_list_ascii
          (show_int (n / 100) ++ "+"%char :: two_digits (n mod 100)
           ++ list_ascii_of_string ".00")).
Proof.
  intros _.
  pose proof (Z.mod_pos_bound n 100 ltac:(lia)) as Hr.
  pose proof (Z.div_mod n 100 ltac:(lia)) as Hd.
  assert (Er : n - n / 100 * 100 = n mod 100) by lia.
  unfold ft_to_station. rewrite Er.
  rewrite (float_of_int_small (n mod 100)) by lia. cbn [bind].
  destruct (of_Z_exact (n mod 100) ltac:(lia)) as [F V].
  assert (P : (0 <= inject_Z (n mod 100))%Q)
    by (change 0%Q with (inject_Z 0); rewrite <- Zle_Qle; lia).
  assert (S : sign_bit (of_Z (n mod 100)) = false)
    by (apply sign_bit_Q2F_false; exact P).
  rewrite (format_05_2f_render _ F S) by (rewrite V; exact P).
  rewrite (render_05_2f_proper _ (inject_Z (n mod 100)) V).
  rewrite (render_05_2f_hundredths _ (n mod 100 * 100)).
  - rewrite Z.div_mul, Z.mod_mul by lia. reflexivity.
  - lia.
  - rewrite inject_Z_mult. change (inject_Z 100) with 100%Q.
    assert (E0 : (inject_Z (n mod 100) * 100 - inject_Z (n mod 100) * 100 == 0)%Q)
      by ring.
    rewrite E0. reflexivity.
Qed.

(** The int stations 1050 and -240 of the stake loop: 10+50.00 and
    -3+60.00. *)
Lemma ft_to_station_of_int_witness :
  ft_to_station (Int 1050) = Ok "10+50.00"%string /\
  ft_to_station (Int (-240)) = Ok "-3+60.00"%string.
Proof.
  split.
  - rewrite (ft_to_station_of_int 1050) by (vm_compute; reflexivity).
    reflexivity.
  - rewrite (ft_to_station_of_int (-240)) by (vm_compute; reflexivity).
    reflexivity.
Defined.

(** ** The first intermediate stake *)

(** The window of [ceil((PC + step) / step) * step]. *)
Lemma first_stake_window (PC_station : f64) (stake_step : Z) :
  valid PC_station -> finite PC_station -> 0 < stake_step <= 100 ->
  (Qabs (F2Q PC_station) <= 1073741824)%Q ->
  let first := Qceiling (F2Q (div (add PC_station (of_Z stake_step))
                                  (of_Z stake_step))) * stake_step in
  (F2Q PC_station + inject_Z stake_step - (1 # 32768) <= inject_Z first)%Q /\
  (inject_Z first < F2Q PC_station + 2 * inject_Z stake_step + (1 # 32768))%Q.
Proof.
  intros V F Hs B first. unfold first. clear first.
  destruct (first_quotient_finite PC_station stake_step V F Hs)
    as [_ [Va [Fd Vd]]].
  set (st := of_Z stake_step) in *.
  set (y := F2Q (add PC_station st)) in *.
  set (q := F2Q (div (add PC_station st) st)) in *.
  set (pc := F2Q PC_station) in *.
  assert (HsQ : (1 <= inject_Z stake_step <= 100)%Q).
  { split.
    - change 1%Q with (inject_Z 1); rewrite <- Zle_Qle; lia.
    - change 100%Q with (inject_Z 100); rewrite <- Zle_Qle; lia. }
  set (s := inject_Z stake_step) in *.
  apply Qabs_Qle_condition in B.
  (* the sum *)
  assert (Ba : (Qabs (pc + s) < Qpow2 31)%Q).
  { change (Qpow2 31) with 2147483648%Q. apply Qabs_Qlt_condition. split; lra. }
  pose proof (rnd_error_below _ 31 Ba ltac:(unfold emin; lia)) as Ea.
  rewrite <- Va in Ea. change (Qpow2 (31 - 54)) with (1 # 8388608)%Q in Ea.
  apply Qabs_Qle_condition in Ea.
  (* the quotient *)
  assert (Hinv : (0 < / s <= 1)%Q).
  { split; [apply Qinv_lt_0_compat; lra|]. apply Qle_shift_inv_r; lra. }
  assert (Ey : (y / s * s == y)%Q) by (field; lra).
  assert (Bq : (Qabs (y / s) < Qpow2 32)%Q).
  { change (Qpow2 32) with 4294967296%Q. unfold Qdiv.
    rewrite Qabs_Qmult. rewrite (Qabs_pos (/ s)) by lra.
    assert (By : (Qabs y <= 2147483648)%Q)
      by (apply Qabs_Qle_condition; split; lra).
    pose proof (Qabs_nonneg y) as Y0.
    apply (Qle_lt_trans _ (Qabs y * 1)); [|lra].
    rewrite !(Qmult_comm (Qabs y)). apply Qmult_le_compat_r; lra. }
  pose proof (rnd_error_below _ 32 Bq ltac:(unfold emin; lia)) as Eq.
  rewrite <- Vd in Eq. change (Qpow2 (32 - 54)) with (1 # 4194304)%Q in Eq.
  apply Qabs_Qle_condition in Eq.
  (* the ceiling *)
  pose proof (Qle_ceiling q) as Hc.
  pose proof (Qceiling_lt q) as Hc'.
  rewrite inject_Z_pred in Hc'.
  rewrite inject_Z_mult. fold s.
  set (c := inject_Z (Qceiling q)) in *.
  assert (H1 : (q * s <= c * s)%Q) by (apply Qmult_le_compat_r; lra).
  assert (H2 : ((y / s - (1 # 4194304)) * s <= q * s)%Q)
    by (apply Qmult_le_compat_r; lra).
  assert (H3 : ((y / s - (1 # 4194304)) * s == y - (1 # 4194304) * s)%Q)
    by (rewrite <- Ey at 2; ring).
  assert (H4 : (c * s < (q + 1) * s)%Q) by (apply Qmult_lt_compat_r; lra).
  assert (H5 : (q * s <= (y / s + (1 # 4194304)) * s)%Q)
    by (apply Qmult_le_compat_r; lra).
  assert (H6 : ((y / s + (1 # 4194304)) * s == y + (1 # 4194304) * s)%Q)
    by (rewrite <- Ey at 2; ring).
  assert (H7 : ((q + 1) * s == q * s + s)%Q) by ring.
  split; lra.
Qed.

Lemma first_full_value (PC_station : f64) (stake_step : Z) :
  valid PC_station -> finite PC_station -> 0 < stake_step <= 100 ->
  first_full PC_station stake_step
  = Ok (Qceiling (F2Q (div (add PC_station (of_Z stake_step))
                           (of_Z stake_step))) * stake_step).
Proof.
  intros V F Hs.
  destruct (first_quotient_finite PC_station stake_step V F Hs)
    as [_ [_ [Fd _]]].
  destruct (of_Z_exact stake_step ltac:(lia)) as [_ Est].
  assert (HsQ : (0 < inject_Z stake_step)%Q)
    by (change 0%Q with (inject_Z 0); rewrite <- Zlt_Qlt; lia).
  unfold first_full. rewrite (float_of_int_small stake_step) by lia.
  cbn [bind]. unfold truediv.
  rewrite (is_zero_false_of_value (of_Z stake_step)) by (rewrite Est; lra).
  cbn [bind]. rewrite (math_ceil_finite _ Fd). reflexivity.
Qed.

(** The first intermediate stake is a multiple of the interval that lies
    one to two intervals after P.C. (to within 2^-15 ft of rounding): the
    multiple of the interval inside the first interval after P.C. is not
    staked. *)
Theorem first_stake_skips_an_interval (PC_station : f64) (stake_step : Z) :
  valid PC_station -> finite PC_station -> 0 < stake_step <= 100 ->
  (Qabs (F2Q PC_station) <= 1073741824)%Q ->
  exists first : Z,
    first_full PC_station stake_step = Ok first /\
    first mod stake_step = 0 /\
    (F2Q PC_station + inject_Z stake_step - (1 # 32768) <= inject_Z first)%Q /\
    (inject_Z first < F2Q PC_station + 2 * inject_Z stake_step + (1 # 32768))%Q.
Proof.
  intros V F Hs B.
  eexists. split; [apply (first_full_value PC_station stake_step V F Hs)|].
  split; [apply Z.mod_mul; lia|].
  apply (first_stake_window PC_station stake_step V F Hs B).
Qed.

(** The reference run: P.C. = 7+39.33, interval 50; the first stake is
    8+00, not 7+50. *)
Lemma first_stake_skips_an_interval_witness :
  first_full (fl 6503176059504482 (-43)) 50 = Ok 800 /\
  exists first : Z,
    first_full (fl 6503176059504482 (-43)) 50 = Ok first /\
    first mod 50 = 0 /\
    (F2Q (fl 6503176059504482 (-43)) + inject_Z 50 - (1 # 32768)
     <= inject_Z first)%Q /\
    (inject_Z first
     < F2Q (fl 6503176059504482 (-43)) + 2 * inject_Z 50 + (1 # 32768))%Q.
Proof.
  split; [vm_compute; reflexivity|].
  apply (first_stake_skips_an_interval (fl 6503176059504482 (-43)) 50).
  - reflexivity.
  - reflexivity.
  - lia.
  - vm_compute. discriminate.
Defined.

(** ** The order of the stations *)

Lemma station_values_increasing (step : Z) (pt b : Q) (n : nat) :
  0 < step -> (b <= pt)%Q ->
  forall (first : Z) (lo : Q),
  (lo < inject_Z first)%Q -> (lo < pt)%Q ->
  (forall k, (k < n)%nat -> (inject_Z (first + Z.of_nat k * step) < b)%Q) ->
  values_increasing (lo :: map inject_Z (progression first step n) ++ [pt]).
Proof.
  intros Hs Hb. induction n as [|n IH]; intros first lo Hlo Hpt Hlt.
  - cbn. split; [exact Hpt | exact I].
  - rewrite progression_succ. cbn [map app].
    change (values_increasing
              (lo :: inject_Z first
                  :: map inject_Z (progression (first + step) step n) ++ [pt]))
      with ((lo < inject_Z first)%Q /\
            values_increasing
              (inject_Z first
                 :: map inject_Z (progression (first + step) step n) ++ [pt])).
    split; [exact Hlo|].
    pose proof (Hlt 0%nat ltac:(lia)) as H0.
    replace (first + Z.of_nat 0 * step) with first in H0 by lia.
    apply IH.
    + rewrite <- Zlt_Qlt. lia.
    + lra.
    + intros k Hk. specialize (Hlt (S k) ltac:(lia)).
      replace (first + step + Z.of_nat k * step)
        with (first + Z.of_nat (S k) * step) by lia. exact Hlt.
Qed.

(** The stations increase strictly from P.C. to P.T.: no station is
    repeated, every intermediate stake is after P.C. and more than 1e-6 ft
    (as rounded) before P.T. *)
Theorem stations_increase (PC_station PT_station : f64) (stake_step : Z) :
  valid PC_station -> finite PC_station ->
  valid PT_station -> finite PT_station ->
  0 < stake_step <= 100 ->
  (Qabs (F2Q PC_station) <= 1073741824)%Q ->
  (F2Q PC_station < F2Q PT_station)%Q ->
  exists n : nat, forall fuel, (n <= fuel)%nat ->
    exists stations,
      stake_stations fuel PC_station PT_station stake_step = Ok stations /\
      List.length stations = (n + 2)%nat /\
      values_increasing (map num_value stations).
Proof.
  intros VPC FPC VPT FPT Hs B Hlt.
  destruct (stake_stations_progression PC_station PT_station stake_step
              VPC FPC VPT FPT Hs) as [first [n [E1 [Fb [Hk [_ Hst]]]]]].
  destruct (first_stake_window PC_station stake_step VPC FPC Hs B) as [W1 _].
  rewrite <- E1 in W1.
  assert (HsQ : (1 <= inject_Z stake_step)%Q)
    by (change 1%Q with (inject_Z 1); rewrite <- Zle_Qle; lia).
  assert (Hb : (F2Q (sub PT_station f1em6) <= F2Q PT_station)%Q).
  { destruct (sub_finite_eq PT_station f1em6 FPT eq_refl) as [s0 Es].
    rewrite Es in Fb |- *. rewrite (Q2F_value _ _ Fb).
    apply (Qle_trans _ (rnd (F2Q PT_station))).
    - apply rnd_mono. assert (0 < F2Q f1em6)%Q by reflexivity. lra.
    - rewrite (rnd_of_float PT_station VPT FPT). lra. }
  exists n. intros fuel Hfuel.
  eexists. split; [apply Hst; exact Hfuel|]. split.
  - cbn [List.length]. rewrite length_app, length_map. cbn [List.length].
    unfold progression. rewrite length_map, length_seq. lia.
  - cbn [map]. rewrite map_app, map_map. cbn [map num_value].
    apply (station_values_increasing stake_step _
             (F2Q (sub PT_station f1em6)) n); try assumption; try lia; lra.
Qed.

(** The reference run: P.C. = 7+39.33, P.T. = 12+39.33. *)
Lemma stations_increase_witness :
  exists n : nat, forall fuel, (n <= fuel)%nat ->
    exists stations,
      stake_stations fuel (fl 6503176059504482 (-43))
        (fl 5450611285304241 (-42)) 50 = Ok stations /\
      List.length stations = (n + 2)%nat /\
      values_increasing (map num_value stations).
Proof.
  apply (stations_increase (fl 6503176059504482 (-43))
           (fl 5450611285304241 (-42)) 50).
  - reflexivity.
  - reflexivity.
  - reflexivity.
  - reflexivity.
  - lia.
  - vm_compute. discriminate.
  - vm_compute. reflexivity.
Defined.

(** ** The radius *)

Lemma F2Q_f18000 : (F2Q f18000 == 18000)%Q.
Proof. reflexivity. Qed.

Lemma F2Q_math_pi_le_4 : (F2Q math_pi <= 4)%Q.
Proof. vm_compute. discriminate. Qed.

(** [pi * Da] for a degree of curve between 2^-1000 and 100. *)
Lemma pi_Da_value (Da_deg : f64) :
  finite Da_deg -> (Qpow2 (-1000) <= F2Q Da_deg <= 100)%Q ->
  finite (mul math_pi Da_deg) /\
  (F2Q (mul math_pi Da_deg) == rnd (F2Q math_pi * F2Q Da_deg))%Q /\
  (Qpow2 (-1000) <= F2Q (mul math_pi Da_deg) <= 512)%Q.
Proof.
  intros F [H0 H1]. pose proof (Qpow2_pos (-1000)) as Hp.
  pose proof F2Q_math_pi_ge_1 as P1. pose proof F2Q_math_pi_le_4 as P4.
  destruct (mul_finite_eq math_pi Da_deg eq_refl F) as [s0 E].
  set (da := F2Q Da_deg) in *. set (p := F2Q math_pi) in *.
  assert (B : (da <= p * da <= 400)%Q).
  { assert (A1 : (1 * da <= p * da)%Q) by (apply Qmult_le_compat_r; lra).
    assert (A2 : (p * da <= 4 * da)%Q) by (apply Qmult_le_compat_r; lra).
    split; lra. }
  assert (B9 : (Qabs (p * da) < Qpow2 9)%Q).
  { change (Qpow2 9) with 512%Q. rewrite Qabs_pos by lra. lra. }
  destruct (Q2F_below s0 _ 9 B9 ltac:(unfold emin; lia)) as [Fm [Vm _]].
  rewrite <- E in Fm, Vm.
  split; [exact Fm|]. split; [exact Vm|]. rewrite Vm. split.
  - rewrite <- (rnd_pow2 (-1000)) by (unfold emin; lia). apply rnd_mono. lra.
  - assert (E512 : (rnd 512 == 512)%Q) by (apply (rnd_Z 512); lia).
    rewrite <- E512. apply rnd_mono. lra.
Qed.

(** The radius is positive and never grows with the degree of curve: a
    sharper curve has a radius at most that of a flatter one. *)
Theorem radius_decreases_with_Da (Da1 Da2 : f64) :
  finite Da1 -> finite Da2 ->
  (Qpow2 (-1000) <= F2Q Da1)%Q -> (F2Q Da1 <= F2Q Da2)%Q ->
  (F2Q Da2 <= 100)%Q ->
  exists R1 R2,
    truediv f18000 (mul math_pi Da1) = Ok R1 /\
    truediv f18000 (mul math_pi Da2) = Ok R2 /\
    finite R1 /\ finite R2 /\
    (0 < F2Q R2 <= F2Q R1)%Q.
Proof.
  intros F1 F2 H0 H12 H100.
  pose proof (Qpow2_pos (-1000)) as Hp.
  destruct (pi_Da_value Da1 F1 ltac:(split; lra)) as [Fp1 [Vp1 [L1 U1]]].
  destruct (pi_Da_value Da2 F2 ltac:(split; lra)) as [Fp2 [Vp2 [L2 U2]]].
  assert (Hp12 : (F2Q (mul math_pi Da1) <= F2Q (mul math_pi Da2))%Q).
  { rewrite Vp1, Vp2. apply rnd_mono.
    pose proof F2Q_math_pi_ge_1 as P1.
    rewrite !(Qmult_comm (F2Q math_pi)). apply Qmult_le_compat_r; lra. }
  set (p1 := F2Q (mul math_pi Da1)) in *.
  set (p2 := F2Q (mul math_pi Da2)) in *.
  assert (Z1 : is_zero (mul math_pi Da1) = false)
    by (apply is_zero_false_of_value; fold p1; lra).
  assert (Z2 : is_zero (mul math_pi Da2) = false)
    by (apply is_zero_false_of_value; fold p2; lra).
  destruct (div_finite_eq f18000 (mul math_pi Da1) eq_refl Fp1 Z1) as [s1 E1].
  destruct (div_finite_eq f18000 (mul math_pi Da2) eq_refl Fp2 Z2) as [s2 E2].
  fold p1 in E1. fold p2 in E2.
  pose proof F2Q_f18000 as E18.
  (* the quotients *)
  assert (Hinv : (Qpow2 1000 * Qpow2 (-1000) == 1)%Q).
  { rewrite <- Qpow2_add. reflexivity. }
  assert (P1000 : (0 < Qpow2 1000)%Q) by apply Qpow2_pos.
  assert (Q15 : (Qpow2 15 * Qpow2 1000 == Qpow2 1015)%Q).
  { rewrite <- Qpow2_add. reflexivity. }
  change (Qpow2 15) with 32768%Q in Q15.
  pose proof (Qpow2_lt 1015 1023 ltac:(lia)) as Q1023.
  assert (Hq : forall p, (Qpow2 (-1000) <= p <= 512)%Q ->
             (18000 # 512 <= F2Q f18000 / p)%Q /\
             (F2Q f18000 / p <= 18000 * Qpow2 1000)%Q).
  { intros p [Lp Up]. split.
    - apply Qle_shift_div_l; [lra|]. lra.
    - apply Qle_shift_div_r; [lra|].
      assert (A : (18000 * Qpow2 1000 * Qpow2 (-1000)
                   <= 18000 * Qpow2 1000 * p)%Q).
      { rewrite !(Qmult_comm (18000 * Qpow2 1000)).
        apply Qmult_le_compat_r; lra. }
      assert (A' : (18000 * Qpow2 1000 * Qpow2 (-1000) == 18000)%Q)
        by (rewrite <- Qmult_assoc, Hinv; ring).
      lra. }
  destruct (Hq p1 ltac:(split; assumption)) as [Lq1 Uq1].
  destruct (Hq p2 ltac:(split; assumption)) as [Lq2 Uq2].
  assert (B1 : (Qabs (F2Q f18000 / p1) < Qpow2 1023)%Q).
  { rewrite Qabs_pos by lra. lra. }
  assert (B2 : (Qabs (F2Q f18000 / p2) < Qpow2 1023)%Q).
  { rewrite Qabs_pos by lra. lra. }
  destruct (Q2F_small s1 _ B1) as [FR1 VR1]. rewrite <- E1 in FR1, VR1.
  destruct (Q2F_small s2 _ B2) as [FR2 VR2]. rewrite <- E2 in FR2, VR2.
  exists (div f18000 (mul math_pi Da1)), (div f18000 (mul math_pi Da2)).
  unfold truediv. rewrite Z1, Z2.
  split; [reflexivity|]. split; [reflexivity|].
  split; [exact FR1|]. split; [exact FR2|].
  rewrite VR1, VR2. split.
  - assert (E32 : (rnd 32 == 32)%Q) by (apply (rnd_Z 32); lia).
    apply (Qlt_le_trans _ (rnd 32)); [rewrite E32; reflexivity|].
    apply rnd_mono. lra.
  - apply rnd_mono.
    apply Qle_shift_div_l; [lra|].
    assert (A : (F2Q f18000 / p2 * p1 == F2Q f18000 * (p1 / p2))%Q)
      by (field; lra).
    rewrite A.
    assert (A2 : (p1 / p2 <= 1)%Q) by (apply Qle_shift_div_r; lra).
    assert (A3 : (F2Q f18000 * (p1 / p2) <= F2Q f18000 * 1)%Q).
    { rewrite !(Qmult_comm (F2Q f18000)). apply Qmult_le_compat_r; lra. }
    lra.
Qed.

(** Da = 4 and Da = 8. *)
Lemma radius_decreases_with_Da_witness :
  exists R1 R2,
    truediv f18000 (mul math_pi (of_Z 4)) = Ok R1 /\
    truediv f18000 (mul math_pi (of_Z 8)) = Ok R2 /\
    finite R1 /\ finite R2 /\
    (0 < F2Q R2 <= F2Q R1)%Q.
Proof.
  apply (radius_decreases_with_Da (of_Z 4) (of_Z 8)).
  - reflexivity.
  - reflexivity.
  - vm_compute. discriminate.
  - vm_compute. discriminate.
  - vm_compute. discriminate.
Defined.

(** ** Reading back the text of a negative station *)

(** [float] on a minus sign, digits, a point and digits. *)
Lemma float_of_string_negative (ip fp : chars) :
  Forall (fun c => is_digit c = true) ip ->
  Forall (fun c => is_digit c = true) fp ->
  ip <> [] -> fp <> [] ->
  float_of_string (string_of_list_ascii ("-"%char :: ip ++ "."%char :: fp))
  = Ok (Q2F true (- (inject_Z (digits_val (ip ++ fp))
                     * Qpow10 (0 - Z.of_nat (List.length fp))))).
Proof.
  intros Fi Ff Ni Nf.
  unfold float_of_string. rewrite list_ascii_of_string_of_list_ascii.
  set (l := "-"%char :: ip ++ "."%char :: fp).
  assert (Hu : drop_underscores None l = Some l).
  { apply drop_underscores_none; [|exact I].
    unfold l. constructor; [reflexivity|]. apply Forall_app. split.
    - apply Forall_digit_no_underscore. exact Fi.
    - constructor; [reflexivity|]. apply Forall_digit_no_underscore. exact Ff. }
  rewrite Hu.
  assert (Hs : strip l = l).
  { destruct (exists_last Nf) as [mid [b Eb]].
    apply (strip_id l "-"%char b (ip ++ "."%char :: mid)).
    - left. unfold l. rewrite Eb. f_equal. rewrite <- app_assoc. reflexivity.
    - reflexivity.
    - rewrite Eb in Ff. apply Forall_app in Ff. destruct Ff as [_ Ff].
      inversion Ff; subst. apply digit_not_space. assumption. }
  rewrite Hs.
  unfold parse_decimal. unfold l at 1. cbn [take_sign].
  rewrite (span_digits_app ip ("."%char :: fp) Fi eq_refl).
  cbn [parse_fraction].
  rewrite <- (app_nil_r fp) at 1.
  rewrite (span_digits_app fp [] Ff I).
  destruct (ip ++ fp) as [|c cs] eqn:E.
  - apply app_eq_nil in E. destruct E. contradiction.
  - cbn [parse_exponent]. reflexivity.
Qed.

(** The shape of an offset between 0 and 100: two or three digits, a
    point, two digits. *)
Lemma render_05_2f_shape (v : Q) :
  (0 <= v <= 100)%Q ->
  exists zs d1 d2,
    render_05_2f v = zs ++ "."%char :: [d1; d2] /\
    Forall (fun c => is_digit c = true) zs /\
    (2 <= List.length zs <= 3)%nat /\
    is_digit d1 = true /\ is_digit d2 = true.
Proof.
  intros [H0 H1]. unfold render_05_2f.
  set (n := rne (v * 100)).
  assert (N0 : 0 <= n).
  { apply rne_ge. change (inject_Z 0) with 0%Q. lra. }
  assert (N1 : n <= 10000).
  { apply rne_le. change (inject_Z 10000) with 10000%Q. lra. }
  pose proof (Z.mod_pos_bound n 100 ltac:(lia)) as Hf.
  assert (D1 : is_digit (digit_char (n mod 100 / 10)) = true).
  { apply digit_char_is_digit. split; [apply Z.div_pos; lia|].
    assert (n mod 100 / 10 < 10) by (apply Z.div_lt_upper_bound; lia). lia. }
  assert (D2 : is_digit (digit_char (n mod 100 mod 10)) = true).
  { apply digit_char_is_digit.
    pose proof (Z.mod_pos_bound (n mod 100) 10 ltac:(lia)). lia. }
  destruct (Z.eq_dec n 10000) as [E|NE].
  - rewrite E. exists (list_ascii_of_string "100"), "0"%char, "0"%char.
    split; [reflexivity|]. split; [repeat constructor|].
    split; [cbn; lia|]. split; reflexivity.
  - assert (Hm : 0 <= n / 100 < 100).
    { split; [apply Z.div_pos; lia | apply Z.div_lt_upper_bound; lia]. }
    exists (two_digits (n / 100)), (digit_char (n mod 100 / 10)),
      (digit_char (n mod 100 mod 10)).
    split; [apply (zero_pad_two_digits (n / 100) "."%char _ _ Hm)|].
    split; [apply (two_digits_spec _ Hm)|].
    split; [cbn; lia|]. split; assumption.
Qed.

Lemma digits_val_lt (ds : chars) :
  Forall (fun c => is_digit c = true) ds ->
  digits_val ds < 10 ^ Z.of_nat (List.length ds).
Proof.
  induction ds as [|c ds IH] using rev_ind; intros H.
  - reflexivity.
  - apply Forall_app in H. destruct H as [H1 H2].
    inversion H2 as [|? ? Hc _]; subst.
    rewrite digits_val_app, digits_val_single, length_app. cbn [List.length].
    pose proof (is_digit_range c Hc) as R. specialize (IH H1).
    rewrite Nat2Z.inj_add, Z.pow_add_r by lia.
    change (10 ^ Z.of_nat 1) with 10. lia.
Qed.

(** Reading the text of a negative group and an offset: the offset's
    digits follow the group's, under the minus sign. *)
Lemma station_to_ft_negative_text (i : Z) (zs : chars) (d1 d2 : ascii) :
  i < 0 ->
  Forall (fun c => is_digit c = true) zs ->
  is_digit d1 = true -> is_digit d2 = true ->
  station_to_ft
    (string_of_list_ascii (show_int i ++ "+"%char :: zs ++ "."%char :: [d1; d2]))
  = Ok (Q2F true
          (- (inject_Z (- i * 10 ^ Z.of_nat (List.length zs) * 100
                        + digits_val (zs ++ [d1; d2]))
              * (1 # 100)))).
Proof.
  intros Hi Fz H1 H2.
  destruct (show_nat_spec (- i) ltac:(lia)) as [Nn [Fn Vn]].
  assert (Es : show_int i = "-"%char :: show_nat (- i)).
  { unfold show_int. destruct (Z.ltb_spec i 0); [reflexivity | lia]. }
  unfold station_to_ft. rewrite list_ascii_of_string_of_list_ascii, Es.
  assert (E : remove_char "+"
                (("-"%char :: show_nat (- i))
                 ++ "+"%char :: zs ++ "."%char :: [d1; d2])
              = "-"%char :: (show_nat (- i) ++ zs) ++ "."%char :: [d1; d2]).
  { change ("-"%char :: show_nat (- i)) with (["-"%char] ++ show_nat (- i)).
    change ("+"%char :: zs ++ "."%char :: [d1; d2])
      with (["+"%char] ++ zs ++ ["."%char] ++ [d1; d2]).
    rewrite !remove_char_app.
    rewrite (remove_plus_digits _ Fn), (remove_plus_digits _ Fz).
    rewrite (remove_plus_digits [d1; d2]) by (repeat constructor; assumption).
    cbn. rewrite <- app_assoc. reflexivity. }
  rewrite E, float_of_string_negative.
  - f_equal. apply Q2F_proper.
    rewrite !digits_val_app, Vn. cbn [List.length].
    change (Qpow10 (0 - Z.of_nat 2)) with (1 # 100)%Q.
    change (10 ^ Z.of_nat 2) with 100.
    assert (Ez : (- i * 10 ^ Z.of_nat (List.length zs) + digits_val zs) * 100
                 + digits_val [d1; d2]
                 = - i * 10 ^ Z.of_nat (List.length zs) * 100
                   + (digits_val zs * 100 + digits_val [d1; d2])) by ring.
    rewrite Ez. reflexivity.
  - apply Forall_app. split; assumption.
  - repeat constructor; assumption.
  - intros C. apply app_eq_nil in C. destruct C. contradiction.
  - discriminate.
Qed.

(** The text of a negative distance does not read back as the distance:
    [station_to_ft] takes the offset, which [ft_to_station] counts upward
    from the group, as further digits under the minus sign.  The value read
    back is never above the distance, and equals it only for a multiple
    of 100. *)
Theorem negative_station_reads_back_lower (x : f64) :
  valid x -> finite x -> (F2Q x < 0)%Q -> (- inject_Z (2 ^ 52) <= F2Q x)%Q ->
  exists s y,
    ft_to_station (Float x) = Ok s /\
    station_to_ft s = Ok y /\
    finite y /\
    (F2Q y <= F2Q x)%Q /\
    ((F2Q y == F2Q x)%Q
     <-> (F2Q x == inject_Z (Qfloor (F2Q x / 100)) * 100)%Q).
Proof.
  intros V F N B.
  destruct (ft_to_station_negative x V F N B)
    as [Hi [_ [Fr [_ [Vr [Rr Etxt]]]]]].
  set (i := Qfloor (F2Q x / 100)) in *.
  set (r := sub x (of_Z (i * 100))) in *.
  destruct (Qfloor_bounds (F2Q x / 100)) as [F1 F2]. fold i in F1, F2.
  change (inject_Z (2 ^ 52)) with 4503599627370496%Q in B.
  assert (EX : (F2Q x == F2Q x / 100 * 100)%Q) by field.
  assert (Hx : (inject_Z i * 100 <= F2Q x)%Q).
  { set (D := (F2Q x / 100)%Q) in *. lra. }
  assert (Hi46 : - 2 ^ 46 <= i).
  { assert (A : (inject_Z (- 2 ^ 46 - 1) < inject_Z i)%Q).
    { change (inject_Z (- 2 ^ 46 - 1)) with (- 70368744177665)%Q.
      set (D := (F2Q x / 100)%Q) in *. lra. }
    rewrite <- Zlt_Qlt in A. lia. }
  destruct (render_05_2f_shape (F2Q r) Rr) as [zs [d1 [d2 [Er [Fz [Lz [H1 H2]]]]]]].
  pose proof (station_to_ft_negative_text i zs d1 d2 Hi Fz H1 H2) as Ey.
  rewrite <- Er in Ey.
  set (D := - i * 10 ^ Z.of_nat (List.length zs) * 100
            + digits_val (zs ++ [d1; d2])) in *.
  assert (Fzd : Forall (fun c => is_digit c = true) (zs ++ [d1; d2])).
  { apply Forall_app. split; [exact Fz | repeat constructor; assumption]. }
  pose proof (digits_val_nonneg _ Fzd) as D0.
  pose proof (digits_val_lt _ Fzd) as D1.
  rewrite length_app in D1. cbn [List.length] in D1.
  rewrite Nat2Z.inj_add, Z.pow_add_r in D1 by lia.
  change (10 ^ Z.of_nat 2) with 100 in D1.
  assert (HD : - (i * 100) * 100 <= D < 2 ^ 64).
  { unfold D.
    assert (C : 10 ^ Z.of_nat (List.length zs) = 100
                \/ 10 ^ Z.of_nat (List.length zs) = 1000).
    { assert (C : List.length zs = 2%nat \/ List.length zs = 3%nat) by lia.
      destruct C as [C|C]; rewrite C; [left | right]; reflexivity. }
    destruct C as [C|C]; rewrite C in *; lia. }
  assert (HDq : (inject_Z (- (i * 100)) * 100 <= inject_Z D)%Q /\
                (inject_Z D < inject_Z (2 ^ 64))%Q).
  { split.
    - change 100%Q with (inject_Z 100). rewrite <- inject_Z_mult, <- Zle_Qle. lia.
    - rewrite <- Zlt_Qlt. lia. }
  destruct HDq as [HD1 HD2]. rewrite inject_Z_opp in HD1.
  change (inject_Z (2 ^ 64)) with 18446744073709551616%Q in HD2.
  assert (Ei : (inject_Z (i * 100) == inject_Z i * 100)%Q)
    by (rewrite inject_Z_mult; reflexivity).
  assert (T0 : (inject_Z i < 0)%Q)
    by (change 0%Q with (inject_Z 0); rewrite <- Zlt_Qlt; exact Hi).
  set (q := (- (inject_Z D * (1 # 100)))%Q) in *.
  assert (Hq : (q <= inject_Z (i * 100))%Q) by (unfold q; lra).
  assert (Bq : (Qabs q < Qpow2 1023)%Q).
  { apply (Qlt_le_trans _ (Qpow2 64)); [|apply Qpow2_le; lia].
    change (Qpow2 64) with 18446744073709551616%Q.
    apply Qabs_Qlt_condition. unfold q. split; lra. }
  destruct (Q2F_small true q Bq) as [Fy Vy].
  assert (Ri : (rnd (inject_Z (i * 100)) == inject_Z (i * 100))%Q)
    by (apply rnd_Z; lia).
  assert (Hy : (F2Q (Q2F true q) <= inject_Z i * 100)%Q).
  { rewrite Vy, <- Ei, <- Ri. apply rnd_mono. exact Hq. }
  exists (string_of_list_ascii (show_int i ++ "+"%char :: render_05_2f (F2Q r))),
    (Q2F true q).
  split; [exact Etxt|]. split; [exact Ey|]. split; [exact Fy|].
  split; [lra|]. split.
  - intros E. lra.
  - intros E.
    (* a multiple of 100: the offset is 00.00 *)
    assert (Er0 : render_05_2f (F2Q r) = list_ascii_of_string "00.00").
    { rewrite (render_05_2f_proper (F2Q r) 0); [reflexivity|].
      rewrite Vr. apply rnd_zero. rewrite E. ring. }
    pose proof (station_to_ft_negative_text i (list_ascii_of_string "00")
                  "0"%char "0"%char Hi ltac:(repeat constructor)
                  eq_refl eq_refl) as Ey0.
    change (list_ascii_of_string "00" ++ "."%char :: ["0"%char; "0"%char])
      with (list_ascii_of_string "00.00") in Ey0.
    rewrite <- Er0, Ey in Ey0. injection Ey0 as Eyy. rewrite Eyy.
    assert (Bq0 : (Qabs (inject_Z (i * 100)) < Qpow2 1023)%Q).
    { apply (Qlt_le_trans _ (Qpow2 64)); [|apply Qpow2_le; lia].
      change (Qpow2 64) with 18446744073709551616%Q.
      apply Qabs_Qlt_condition. rewrite Ei. split; lra. }
    match goal with |- (F2Q (Q2F true ?q0) == _)%Q =>
      assert (E0 : (q0 == inject_Z (i * 100))%Q)
    end.
    { match goal with |- (- (inject_Z ?z * _) == _)%Q =>
        change z with (- i * 100 * 100 + 0)
      end.
      assert (Ez : - i * 100 * 100 + 0 = - (i * 100) * 100) by lia.
      rewrite Ez, inject_Z_mult, inject_Z_opp.
      change (inject_Z 100) with 100%Q.
      set (t := inject_Z (i * 100)). lra. }
    rewrite (Q2F_proper true _ _ E0).
    destruct (Q2F_small true _ Bq0) as [_ V0].
    rewrite V0, Ri, Ei, E. reflexivity.
Qed.

(** -240.5 ft is shown as "-3+59.50", which reads back as -359.5 ft. *)
Lemma negative_station_reads_back_lower_witness :
  exists s y,
    ft_to_station (Float (Q2F false (- (481 # 2)))) = Ok s /\
    station_to_ft s = Ok y /\
    s = "-3+59.50"%string /\
    (F2Q y == - (719 # 2))%Q /\
    (F2Q y <= F2Q (Q2F false (- (481 # 2))))%Q.
Proof.
  destruct (negative_station_reads_back_lower (Q2F false (- (481 # 2))))
    as [s [y [E1 [E2 [_ [H _]]]]]].
  - vm_compute. reflexivity.
  - reflexivity.
  - reflexivity.
  - vm_compute. discriminate.
  - exists s, y. split; [exact E1|]. split; [exact E2|].
    assert (Es : s = "-3+59.50"%string).
    { assert (C : ft_to_station (Float (Q2F false (- (481 # 2))))
                  = Ok "-3+59.50"%string) by (vm_compute; reflexivity).
      rewrite E1 in C. injection C as C. exact C. }
    split; [exact Es|]. split; [|exact H].
    rewrite Es in E2.
    assert (C : station_to_ft "-3+59.50" = Ok (Q2F false (- (719 # 2))))
      by (vm_compute; reflexivity).
    rewrite E2 in C. injection C as C. rewrite C. vm_compute. reflexivity.
Defined.

(** ** The deflection column *)

(** Every station of the list is between P.C. and P.T. *)
Lemma stations_in_range (PC_station PT_station : f64) (first step : Z)
    (n : nat) (b : Q) :
  finite PC_station -> finite PT_station ->
  (Qabs (F2Q PC_station) <= 1073741824)%Q ->
  (0 <= F2Q PT_station - F2Q PC_station <= 2147483648)%Q ->
  0 < step ->
  (F2Q PC_station <= inject_Z first)%Q ->
  (forall k, (k < n)%nat -> (inject_Z (first + Z.of_nat k * step) < b)%Q) ->
  (b <= F2Q PT_station)%Q ->
  Forall (station_in_range (F2Q PC_station) (F2Q PT_station))
         (Float PC_station :: map Int (progression first step n)
          ++ [Float PT_station]).
Proof.
  intros FPC FPT HPC Hr Hs Hf Hlt Hb.
  set (pc := F2Q PC_station) in *. set (pt := F2Q PT_station) in *.
  constructor; [|apply Forall_app; split].
  - repeat split; try reflexivity; [exact FPC | | ]; cbn [num_value];
      fold pc; lra.
  - apply Forall_forall. intros stn Hin. apply in_map_iff in Hin.
    destruct Hin as [s [<- Hin]].
    destruct (in_progression _ _ _ _ Hin) as [k [Hk ->]].
    specialize (Hlt k Hk).
    assert (Hlo : (inject_Z first
                   <= inject_Z (first + Z.of_nat k * step))%Q)
      by (rewrite <- Zle_Qle; nia).
    set (s := first + Z.of_nat k * step) in *.
    apply Qabs_Qle_condition in HPC.
    assert (Bs : Z.abs s <= 2 ^ 53).
    { assert (B1 : (inject_Z (- 2 ^ 53) <= inject_Z s)%Q).
      { change (inject_Z (- 2 ^ 53)) with (- 9007199254740992)%Q. lra. }
      assert (B2 : (inject_Z s <= inject_Z (2 ^ 53))%Q).
      { change (inject_Z (2 ^ 53)) with 9007199254740992%Q. lra. }
      rewrite <- Zle_Qle in B1, B2. lia. }
    destruct (of_Z_exact s Bs) as [Fs Vs].
    unfold station_in_range. cbn [to_float num_float num_value].
    split; [apply float_of_int_small; exact Bs|].
    split; [exact Fs|]. split; [exact Vs|]. split; lra.
  - constructor; [|constructor].
    repeat split; try reflexivity; [exact FPT | | ]; cbn [num_value];
      fold pt; lra.
Qed.

Lemma deflection_value_at_PC (da pc : Q) : (deflection_value da pc pc == 0)%Q.
Proof.
  unfold deflection_value.
  assert (E1 : (rnd (pc - pc) == 0)%Q) by (apply rnd_zero; ring).
  assert (E2 : (rnd (da * rnd (pc - pc)) == 0)%Q)
    by (apply rnd_zero; rewrite E1; ring).
  apply rnd_zero. rewrite E2. reflexivity.
Qed.

(** [deg_to_dms_nearest_sec] returns a text when [deg * 3600] is a
    number. *)
Lemma deg_to_dms_total (deg : f64) :
  finite (mul deg (of_Z 3600)) ->
  exists t, deg_to_dms_nearest_sec deg = Ok t.
Proof.
  intros F. unfold deg_to_dms_nearest_sec. rewrite (round_to_int_finite _ F).
  cbn [bind].
  destruct (_ =? 60); destruct (_ >=? 60); eexists; reflexivity.
Qed.

Lemma mapM_total {A B} (f : A -> result B) (l : list A) :
  Forall (fun a => exists b, f a = Ok b) l -> exists l', mapM f l = Ok l'.
Proof.
  induction 1 as [|a l [b Hb] _ [l' IH]].
  - exists []. reflexivity.
  - exists (b :: l'). cbn [mapM]. rewrite Hb. cbn [bind]. rewrite IH. reflexivity.
Qed.

(** For an input in the usual range every deflection of the table is a
    number between 0 and I/2 (plus 1e-6), and the column of their texts in
    degrees, minutes and seconds is produced: [round] never fails
    there. *)
Theorem deflection_column_bounded (I_deg Da_deg PC_station : f64)
    (stake_step : Z) :
  finite I_deg -> finite Da_deg -> valid PC_station -> finite PC_station ->
  (0 < F2Q I_deg <= 180)%Q -> (0 < F2Q Da_deg <= 100)%Q ->
  0 < stake_step <= 100 ->
  (Qabs (F2Q PC_station) <= 1073741824)%Q ->
  let L := div (mul f100 I_deg) Da_deg in
  let PT_station := add PC_station L in
  finite L -> (F2Q L <= 1073741824)%Q ->
  exists n : nat, forall fuel, (n <= fuel)%nat ->
    exists stations deflection_deg dms,
      stake_stations fuel PC_station PT_station stake_step = Ok stations /\
      deflections Da_deg PC_station stations = Ok deflection_deg /\
      Forall (fun d => finite d /\
                       (0 <= F2Q d <= F2Q I_deg / 2 + (1 # 1000000))%Q)
             deflection_deg /\
      mapM deg_to_dms_nearest_sec deflection_deg = Ok dms.
Proof.
  intros FI FDa VPC FPC HI HDa Hs HPC L PT_station FL HL.
  destruct (final_deflection_value I_deg Da_deg PC_station
              FI FDa VPC FPC HI HDa HPC FL HL) as [VPT [FPT [Hr Hfin]]].
  fold L in VPT, FPT, Hr, Hfin. fold PT_station in VPT, FPT, Hr, Hfin.
  destruct (stake_stations_progression PC_station PT_station stake_step
              VPC FPC VPT FPT Hs) as [first [n [E1 [Fb [Hlt [_ Hst]]]]]].
  assert (Hb : (F2Q (sub PT_station f1em6) <= F2Q PT_station)%Q).
  { destruct (sub_finite_eq PT_station f1em6 FPT eq_refl) as [s0 Es].
    rewrite Es in Fb |- *. rewrite (Q2F_value _ _ Fb).
    apply (Qle_trans _ (rnd (F2Q PT_station))).
    - apply rnd_mono. assert (0 < F2Q f1em6)%Q by reflexivity. lra.
    - rewrite (rnd_of_float PT_station VPT FPT). lra. }
  pose proof (first_stake_after_PC PC_station stake_step VPC FPC Hs HPC) as Hf.
  rewrite <- E1 in Hf.
  change (Qpow2 31) with 2147483648%Q in Hr.
  pose proof (stations_in_range PC_station PT_station first stake_step n _
                FPC FPT HPC Hr ltac:(lia) Hf Hlt Hb) as HR.
  set (stations := Float PC_station
                   :: map Int (progression first stake_step n)
                   ++ [Float PT_station]) in *.
  assert (Hpt31 : (F2Q PT_station - F2Q PC_station <= Qpow2 31)%Q).
  { change (Qpow2 31) with 2147483648%Q. lra. }
  (* each deflection *)
  assert (HD : Forall (fun stn =>
              finite (deflection_formula Da_deg PC_station stn) /\
              (0 <= F2Q (deflection_formula Da_deg PC_station stn)
               <= F2Q I_deg / 2 + (1 # 1000000))%Q) stations).
  { eapply Forall_impl; [|exact HR]. intros stn P.
    pose proof (deflection_in_range Da_deg PC_station _ stn FDa FPC HDa Hpt31 P)
      as Ev.
    destruct P as [_ [Fn [En [R1 R2]]]]. split.
    - change (deflection_formula Da_deg PC_station stn)
        with (deflection_formula Da_deg PC_station (Float (num_float stn))).
      apply (deflection_float Da_deg PC_station (num_float stn) FDa FPC Fn HDa).
      rewrite En. split; lra.
    - rewrite Ev. split.
      + rewrite <- (deflection_value_at_PC (F2Q Da_deg) (F2Q PC_station)).
        apply deflection_value_mono; lra.
      + unfold within in Hfin. apply Qabs_Qle_condition in Hfin.
        apply (Qle_trans _ (deflection_value (F2Q Da_deg) (F2Q PC_station)
                              (F2Q PT_station))); [|lra].
        apply deflection_value_mono; lra. }
  exists n. intros fuel Hfuel.
  assert (Edl : deflections Da_deg PC_station stations
                = Ok (map (deflection_formula Da_deg PC_station) stations)).
  { apply deflections_formula. eapply Forall_impl; [|exact HR].
    intros stn [H _]. exact H. }
  assert (HD' : Forall (fun d => finite d /\
                  (0 <= F2Q d <= F2Q I_deg / 2 + (1 # 1000000))%Q)
                  (map (deflection_formula Da_deg PC_station) stations)).
  { apply Forall_map. exact HD. }
  destruct (mapM_total deg_to_dms_nearest_sec
              (map (deflection_formula Da_deg PC_station) stations))
    as [dms Edms].
  { eapply Forall_impl; [|exact HD']. intros d [Fd [D0 D1]].
    apply deg_to_dms_total.
    destruct (mul_finite_eq d (of_Z 3600) Fd eq_refl) as [s0 Em]. rewrite Em.
    apply Q2F_finite.
    apply (Qlt_le_trans _ (Qpow2 19)); [|apply Qpow2_le; lia].
    change (Qpow2 19) with 524288%Q.
    assert (E3600 : (F2Q (of_Z 3600) == 3600)%Q) by reflexivity.
    rewrite E3600, Qabs_pos by lra. unfold Qdiv in D1.
    change (/ 2)%Q with (1 # 2)%Q in D1. lra. }
  exists stations, (map (deflection_formula Da_deg PC_station) stations), dms.
  split; [apply Hst; exact Hfuel|]. split; [exact Edl|].
  split; [exact HD' | exact Edms].
Qed.

(** The reference run: I = 40, Da = 8, P.C. = 7+39.33. *)
Lemma deflection_column_bounded_witness :
  exists n : nat, forall fuel, (n <= fuel)%nat ->
    exists stations deflection_deg dms,
      stake_stations fuel (fl 6503176059504482 (-43))
        (add (fl 6503176059504482 (-43)) (div (mul f100 (of_Z 40)) (of_Z 8)))
        50 = Ok stations /\
      deflections (of_Z 8) (fl 6503176059504482 (-43)) stations
        = Ok deflection_deg /\
      Forall (fun d => finite d /\
                       (0 <= F2Q d <= F2Q (of_Z 40) / 2 + (1 # 1000000))%Q)
             deflection_deg /\
      mapM deg_to_dms_nearest_sec deflection_deg = Ok dms.
Proof.
  apply (deflection_column_bounded (of_Z 40) (of_Z 8)
           (fl 6503176059504482 (-43)) 50).
  - reflexivity.
  - reflexivity.
  - reflexivity.
  - reflexivity.
  - split; [reflexivity | vm_compute; discriminate].
  - split; [reflexivity | vm_compute; discriminate].
  - lia.
  - vm_compute. discriminate.
  - reflexivity.
  - vm_compute. discriminate.
Defined.
